(** * audioMotion-analyzer: layout, LED, peak and energy pipeline

    A shallow embedding of [src/components/AudiomotionAnalyzer.js]
    (class [AudioMotionAnalyzer], version 3.2.1 as vendored in the
    spotify-audiomotion-frontend repository) and the properties of its
    specification that can be settled on it.

    Numbers.  A JavaScript number that is an integer by construction
    (a result of [| 0], [>>], [<<], [Math.round], [Math.floor], a loop
    counter) is a [Z]; every other finite number is a [Q], with exact
    rational arithmetic standing for the rounded IEEE arithmetic of the
    source; where the source can produce [Infinity] or [NaN] the value is
    a [jsnum].  The logarithms and the 24th root of two live in [R].

    Exact arithmetic and the source's doubles agree on bounds, on
    orders and on whole numbers computed from whole numbers; they can
    differ in the last bits of a quotient or a product, and so on a
    whole number taken from one ([Math.floor], [| 0], a comparison)
    when the exact value is a whole number or the bound itself.  The
    definitions concerned say so, and the properties of Parts II and
    III state bounds, orders and whole-number facts, or carry the
    conditions under which the source's arithmetic is exact. *)

From stdpp Require Import gmap strings.
From Stdlib Require Import ZArith QArith Qround Qminmax Qreals Reals Lra Lqa Lia List Sorted.
Import ListNotations.

Open Scope Z_scope.

(* ================================================================== *)
(** * Part I: the embedding                                            *)
(* ================================================================== *)

(** ** JavaScript numbers *)

Inductive jsnum : Type :=
| NaN
| NegInf
| Fin (q : Q)
| PosInf.

Definition Qlt_bool (a b : Q) : bool := negb (Qle_bool b a).

(** [a > b] on JavaScript numbers: false as soon as one side is [NaN]. *)
Definition js_gt (a b : jsnum) : bool :=
  match a, b with
  | NaN, _ | _, NaN => false
  | NegInf, _ => false
  | Fin _, NegInf => true
  | Fin x, Fin y => Qlt_bool y x
  | Fin _, PosInf => false
  | PosInf, PosInf => false
  | PosInf, _ => true
  end.

(** [x / y] for finite operands. *)
Definition js_div (x y : Q) : jsnum :=
  if Qeq_bool y 0 then
    if Qeq_bool x 0 then NaN
    else if Qlt_bool 0 x then PosInf else NegInf
  else Fin (x / y).

(** [a * r] and [a - r] for a finite [r]. *)
Definition js_scale (a : jsnum) (r : Q) : jsnum :=
  match a with
  | NaN => NaN
  | Fin x => Fin (x * r)
  | PosInf => if Qeq_bool r 0 then NaN else if Qlt_bool 0 r then PosInf else NegInf
  | NegInf => if Qeq_bool r 0 then NaN else if Qlt_bool 0 r then NegInf else PosInf
  end.

Definition js_minus (a : jsnum) (r : Q) : jsnum :=
  match a with
  | Fin x => Fin (x - r)
  | other => other
  end.

(** Truncation toward zero, then reduction into [-2^31, 2^31): the
    conversion ToInt32 behind [x | 0], [x >> n] and [x << n]. *)
Definition Qtrunc (x : Q) : Z := Z.quot (Qnum x) (Zpos (Qden x)).

Definition wrap32 (z : Z) : Z := (z + 2 ^ 31) mod 2 ^ 32 - 2 ^ 31.

Definition to_int32 (x : Q) : Z := wrap32 (Qtrunc x).

Definition js_shl (a n : Z) : Z := wrap32 (Z.shiftl (wrap32 a) (n mod 32)).
Definition js_shr (a n : Z) : Z := Z.shiftr (wrap32 a) (n mod 32).

(** [Math.floor] and [Math.round] (halves go up) on a finite number. *)
Definition Math_floor (x : Q) : Z := Qfloor x.
Definition Math_round (x : Q) : Z := Qfloor (x + (1 # 2)).

Definition bool_to_Z (b : bool) : Z := if b then 1 else 0.

(** ** BarState: the peak / hold / fall state of one bar on one channel

    [_calcBars] creates every bar with [peak: [0,0], hold: [], accel: []].
    An absent [hold] entry is falsy like [0]; an absent [accel] entry is
    never read before the first frame writes it (see [frame_fresh]), so
    both start at [0] here. *)

Module BarState.

Record t : Type := mk { peak : Q; hold : Z; accel : Z }.

Definition fresh : t := {| peak := 0; hold := 0; accel := 0 |}.

(** [if ( barHeight >= bar.peak[ channel ] ) { ... }]; a [NaN] height
    ([None]) compares false. *)
Definition reset (h : option Q) (s : t) : t :=
  match h with
  | Some hq =>
      if Qle_bool (peak s) hq
      then {| peak := hq; hold := 30; accel := 0 |}
      else s
  | None => s
  end.

(** [if ( bar.peak[ channel ] > 1 ) { ... if ( hold ) hold--; else {
    accel++; peak -= accel } }], the tail of the "Draw peak" block. *)
Definition decay (s : t) : t :=
  if Qlt_bool 1 (peak s) then
    if negb (hold s =? 0)
    then {| peak := peak s; hold := hold s - 1; accel := accel s |}
    else {| peak := peak s - inject_Z (accel s + 1);
            hold := hold s;
            accel := accel s + 1 |}
  else s.

(** One pass of the bar loop of [_draw] over this state. *)
Definition frame (h : option Q) (s : t) : t := decay (reset h s).

Definition run (hs : list Q) (s : t) : t :=
  fold_left (fun st h => frame (Some h) st) hs s.

(** The update as the specification words it: reset on a new peak,
    else count the hold down, else fall with a floor at zero. *)
Definition spec_frame (h : Q) (s : t) : t :=
  if Qle_bool (peak s) h then {| peak := h; hold := 30; accel := 0 |}
  else if 0 <? hold s
  then {| peak := peak s; hold := hold s - 1; accel := accel s |}
  else {| peak := Qmax 0 (peak s - inject_Z (accel s + 1));
          hold := hold s;
          accel := accel s + 1 |}.

(** What every state reached from [fresh] under non-negative heights
    satisfies. *)
Definition inv (s : t) : Prop :=
  0 <= hold s <= 30 /\ 0 <= accel s /\ (0 <= peak s + inject_Z (accel s))%Q.

End BarState.

(** ** Bars and the magnitude of a bar

    One entry of [this._bars].  The per-channel arrays [peak], [hold]
    and [accel] of the source are the two [BarState.t] of the bar. *)

Module Bar.

Record t : Type := mk {
  posX : jsnum;
  dataIdx : Z;
  endIdx : Z;
  factor : Q;
  chan0 : BarState.t;
  chan1 : BarState.t
}.

(** [{ posX, dataIdx, endIdx, factor: 0, peak: [0,0], hold: [], accel: [] }] *)
Definition new (pos : jsnum) (idx e : Z) : t :=
  mk pos idx e 0 BarState.fresh BarState.fresh.

Definition set_endIdx (e : Z) (b : t) : t :=
  mk (posX b) (dataIdx b) e (factor b) (chan0 b) (chan1 b).

Definition set_factor (f : Q) (b : t) : t :=
  mk (posX b) (dataIdx b) (endIdx b) f (chan0 b) (chan1 b).

End Bar.

(** [fftData[ i ]]: a byte of the magnitude buffer.  The indices stored
    in the bars stay below [frequencyBinCount] ([_freqToBin] clamps
    them), so the default is not reached by [_draw]. *)
Definition fft_at (fftData : list Z) (i : Z) : Q :=
  inject_Z (default 0 (fftData !! Z.to_nat i)).

(** The value of a bar in [_draw], after [barHeight /= 255]: the single
    bin (interpolated with the previous bin when [factor] is set) or the
    highest value of the range [dataIdx .. endIdx].  The quotient by 255
    is exact here and rounded in the source, which matters to a pixel or
    LED count cut from it ([bar_height]) when [value * height] is a
    whole number: byte 187 on 300 pixels is 220 here and 219 in the
    source. *)
Definition bar_value (fftData : list Z) (bar : Bar.t) : Q :=
  (if Bar.endIdx bar =? 0 then
     let v := fft_at fftData (Bar.dataIdx bar) in
     if negb (Qeq_bool (Bar.factor bar) 0) then
       let prevBar :=
         if negb (Bar.dataIdx bar =? 0)
         then fft_at fftData (Bar.dataIdx bar - 1)
         else v in
       prevBar + (v - prevBar) * Bar.factor bar
     else v
   else
     fold_left (fun h j => Qmax h (fft_at fftData j))
               (seqZ (Bar.dataIdx bar) (Bar.endIdx bar - Bar.dataIdx bar + 1))
               0%Q)
  / 255.

(** ** EnergyTracker: [this._energy = { val, peak, hold }]

    [val] is [None] when the division of the frame gave [NaN]. *)

Module Energy.

Record t : Type := mk { val : option Q; peak : Q; hold : Z }.

(** [this._energy = { val: 0, peak: 0, hold: 0 }] *)
Definition initial : t := mk (Some 0%Q) 0 0.

(** The [else] branch of the update: hold, then decay. *)
Definition settle (v : option Q) (e : t) : t :=
  if 0 <? hold e then mk v (peak e) (hold e - 1)
  else if Qlt_bool 0 (peak e)
       then mk v (peak e * (inject_Z (30 + hold e) / 30)) (hold e - 1)
       else mk v (peak e) (hold e).

(** The "Update energy" block of [_draw], once [energy.val] is known. *)
Definition update (v : option Q) (e : t) : t :=
  match v with
  | Some x => if Qle_bool (peak e) x then mk v x 30 else settle v e
  | None => settle v e
  end.

Definition feed (x : Q) (n : nat) (e : t) : t :=
  Nat.iter n (update (Some x)) e.

End Energy.

(** [for ( channel = 0; channel < isStereo + 1; channel++ )] *)
Definition channels (isStereo : bool) : list nat :=
  if isStereo then [0%nat; 1%nat] else [0%nat].

(** [currentEnergy], accumulated bar after bar, channel after channel. *)
Definition currentEnergy (isStereo : bool) (bars : list Bar.t)
    (fftData : list (list Z)) : Q :=
  fold_left
    (fun (e : Q) (channel : nat) =>
       fold_left
         (fun (e' : Q) bar => (e' + bar_value (default [] (fftData !! channel)) bar)%Q)
         bars e)
    (channels isStereo) 0%Q.

(** [energy.val = currentEnergy / ( nBars << isStereo )].  [_bars] never
    holds 2^31 entries, so the divisor is zero only when there is no bar,
    and then the quotient is 0/0. *)
Definition energy_val (isStereo : bool) (bars : list Bar.t)
    (fftData : list (list Z)) : option Q :=
  let divisor := js_shl (Z.of_nat (length bars)) (bool_to_Z isStereo) in
  if divisor =? 0 then None
  else Some (currentEnergy isStereo bars fftData / inject_Z divisor)%Q.

Definition draw_energy (isStereo : bool) (bars : list Bar.t)
    (fftData : list (list Z)) (e : Energy.t) : Energy.t :=
  Energy.update (energy_val isStereo bars fftData) e.

(** The sum the specification names: every normalized bar height of
    every channel. *)
Definition Qsum (l : list Q) : Q := fold_right Qplus 0%Q l.

Definition all_bar_values (isStereo : bool) (bars : list Bar.t)
    (fftData : list (list Z)) : list Q :=
  flat_map (fun channel => map (bar_value (default [] (fftData !! channel))) bars)
           (channels isStereo).

(** ** Real-valued numbers with IEEE special values

    [Math.log10] and [ROOT24 ** i] leave the rationals, and
    [Math.log10( 0 )] is [-Infinity]: the layout code is read over the
    reals extended with the two infinities and [NaN]. *)

Inductive xreal : Type :=
| XNaN
| XNegInf
| XFin (r : R)
| XPosInf.

Definition Rsign (r : R) : comparison :=
  match total_order_T r 0 with
  | inleft (left _) => Lt
  | inleft (right _) => Eq
  | inright _ => Gt
  end.

Definition xneg (a : xreal) : xreal :=
  match a with
  | XNaN => XNaN
  | XNegInf => XPosInf
  | XFin r => XFin (- r)
  | XPosInf => XNegInf
  end.

(** The product of an infinity of the given sign class with [b]. *)
Definition xinf_times (inf : xreal) (b : xreal) : xreal :=
  match b with
  | XNaN => XNaN
  | XNegInf => xneg inf
  | XPosInf => inf
  | XFin r =>
      match Rsign r with
      | Eq => XNaN
      | Gt => inf
      | Lt => xneg inf
      end
  end.

Definition xmul (a b : xreal) : xreal :=
  match a, b with
  | XNaN, _ | _, XNaN => XNaN
  | XFin x, XFin y => XFin (x * y)
  | XPosInf, _ => xinf_times XPosInf b
  | XNegInf, _ => xinf_times XNegInf b
  | _, XPosInf => xinf_times XPosInf a
  | _, XNegInf => xinf_times XNegInf a
  end.

Definition xsub (a b : xreal) : xreal :=
  match a, b with
  | XNaN, _ | _, XNaN => XNaN
  | XFin x, XFin y => XFin (x - y)
  | XPosInf, XPosInf | XNegInf, XNegInf => XNaN
  | XPosInf, _ | _, XNegInf => XPosInf
  | XNegInf, _ | _, XPosInf => XNegInf
  end.

(** [w / d] for a finite [w]. *)
Definition xdiv (w : R) (d : xreal) : xreal :=
  match d with
  | XNaN => XNaN
  | XNegInf | XPosInf => XFin 0
  | XFin y =>
      match Rsign y with
      | Eq => match Rsign w with Eq => XNaN | Gt => XPosInf | Lt => XNegInf end
      | _ => XFin (w / y)
      end
  end.

(** [Math.log10] *)
Definition xlog10 (x : R) : xreal :=
  match Rsign x with
  | Lt => XNaN
  | Eq => XNegInf
  | Gt => XFin (Rlog 10 x)
  end.

(** [Math.round] and [Math.floor] on a real. *)
Definition Rround (x : R) : Z := Int_part (x + / 2).
Definition Rfloor (x : R) : Z := Int_part x.

Definition xround (a : xreal) : jsnum :=
  match a with
  | XNaN => NaN
  | XNegInf => NegInf
  | XFin r => Fin (inject_Z (Rround r))
  | XPosInf => PosInf
  end.

(** ** FrequencyMapper *)

Inductive rounding : Type := round | floor.

(** [_freqToBin( freq, rounding = 'round' )] for a rational frequency;
    [frequencyBinCount] is half the FFT size.  The quotient is exact
    here and rounded in the source: the two agree when the sample rate
    is a whole number and the product [freq * fftSize] is one too (as
    for the frequency of a bin), and can differ by one bin when
    [freq * fftSize / sampleRate] is a whole number that the source's
    division misses from below. *)
Definition freqToBin (fftSize : Z) (sampleRate : Q) (freq : Q) (mode : rounding) : Z :=
  let max := fftSize / 2 - 1 in
  let x := (freq * inject_Z fftSize / sampleRate)%Q in
  let bin := match mode with round => Math_round x | floor => Math_floor x end in
  if bin <? max then bin else max.

(** The same function on a real frequency (the notes of the tempered
    scale are irrational). *)
Definition freqToBinR (fftSize : Z) (sampleRate : Q) (freq : R) (mode : rounding) : Z :=
  let max := fftSize / 2 - 1 in
  let x := (freq * IZR fftSize / Q2R sampleRate)%R in
  let bin := match mode with round => Rround x | floor => Rfloor x end in
  if bin <? max then bin else max.

(** [binToFreq = bin => bin * sampleRate / fftSize] *)
Definition binToFreq (fftSize : Z) (sampleRate : Q) (bin : Z) : Q :=
  (inject_Z bin * sampleRate / inject_Z fftSize)%Q.

(** The pixel column of an FFT bin in the discrete modes:
    [Math.round( logWidth * ( Math.log10( freq ) - minLog ) )] with
    [minLog = Math.log10( minFreq )] and
    [logWidth = canvas.width / ( Math.log10( maxFreq ) - minLog )]. *)
Definition logPos (width : Z) (minFreq maxFreq : Q) (freq : Q) : jsnum :=
  let minLog := xlog10 (Q2R minFreq) in
  let logWidth := xdiv (IZR width) (xsub (xlog10 (Q2R maxFreq)) minLog) in
  xround (xmul logWidth (xsub (xlog10 (Q2R freq)) minLog)).

(** ** BarLayoutBuilder, discrete modes

    The body of [for ( let i = minIndex; i <= maxIndex; i++ )] in
    [_calcBars], on the pair [(bars, lastPos)]. *)
Definition discrete_step (posOf : Z -> jsnum)
    (st : list Bar.t * jsnum) (i : Z) : list Bar.t * jsnum :=
  let '(bars, lastPos) := st in
  let pos := posOf i in
  if js_gt pos lastPos then (bars ++ [Bar.new pos i 0], pos)
  else if negb (Nat.eqb (length bars) 0)
       then (alter (Bar.set_endIdx i) (length bars - 1)%nat bars, lastPos)
       else st.

Definition discrete_bars (posOf : Z -> jsnum) (minIndex maxIndex : Z) : list Bar.t :=
  fst (fold_left (discrete_step posOf)
                 (seqZ minIndex (maxIndex - minIndex + 1))
                 ([], Fin (-999))).

(** ** BarLayoutBuilder, octave bands modes *)

(** [ROOT24 = 2 ** ( 1 / 24 )], [C0 = 440 * ROOT24 ** -114] *)
Definition ROOT24 : R := Rpower 2 (/ 24).
Definition C0 : R := (440 * Rpower ROOT24 (-114))%R.

(** [C0 * ROOT24 ** i], the [i]-th step of the 24-tone tempered scale. *)
Definition note_freq (i : Z) : R := (C0 * Rpower ROOT24 (IZR i))%R.

(** [[0,1,2,3,4,6,8,12,24][ this._mode ]]; [None] is [undefined]. *)
Definition notesPerBand (mode : Z) : option Z :=
  if mode <? 0 then None
  else [0; 1; 2; 3; 4; 6; 8; 12; 24] !! Z.to_nat mode.

(** [i % notesPerBand === 0]; the remainder by [0] or [undefined] is
    [NaN]. *)
Definition on_band (i : Z) (npb : option Z) : bool :=
  match npb with
  | Some n => if n =? 0 then false else Z.rem i n =? 0
  | None => false
  end.

(** [while ( ( freq = C0 * ROOT24 ** i ) <= maxFreq ) { if ( freq >=
    minFreq && i % notesPerBand === 0 ) temperedScale.push( freq ); i++ }]

    The notes are real numbers here and doubles in the source, off by a
    few units in the last place; the two loops keep the same notes
    unless a bound is itself a note (220 and 880 are: the source's
    powers give 219.99999999999977 and 880.000000000001, and the note
    at such a bound is dropped by the source and kept here). *)
Fixpoint scale_loop (fuel : nat) (minFreq maxFreq : R) (npb : option Z)
    (i : Z) (temperedScale : list R) : option (list R) :=
  match fuel with
  | O => None
  | S fuel' =>
      let freq := note_freq i in
      if Rle_dec freq maxFreq then
        scale_loop fuel' minFreq maxFreq npb (i + 1)
          (if Rge_dec freq minFreq
           then if on_band i npb then temperedScale ++ [freq] else temperedScale
           else temperedScale)
      else Some temperedScale
  end.

(** The notes double every 24 steps and [C0 > 1], so the loop is over
    before [24 * log2 maxFreq + 1] steps (see [temperedScale_total]). *)
Definition scale_fuel (maxFreq : Q) : nat :=
  S (Z.to_nat (24 * Z.log2_up (Z.max 1 (Qceiling maxFreq)))).

Definition temperedScale (mode : Z) (minFreq maxFreq : Q) : option (list R) :=
  scale_loop (scale_fuel maxFreq) (Q2R minFreq) (Q2R maxFreq)
             (notesPerBand mode) 0 [].

(** [for ( let i = 0; i < nBars; i++ ) bars[ bars.length - nBars + i ]
    .factor = ( i + 1 ) / nBars] *)
Definition set_factors (nBars : nat) (bars : list Bar.t) : list Bar.t :=
  fold_left
    (fun bs i =>
       alter (Bar.set_factor (inject_Z (Z.of_nat i + 1) / inject_Z (Z.of_nat nBars)))
             (length bs - nBars + i)%nat bs)
    (seq 0 nBars) bars.

Record octave_state : Type := mk_octave {
  o_bars : list Bar.t;
  prevBin : Z;   (* last bin included in previous frequency band *)
  prevIdx : Z;   (* previous bar FFT array index *)
  nBars : nat    (* count of bars with the same index *)
}.

(** The callback of [temperedScale.forEach( ( freq, index ) => ... )];
    [next] is [temperedScale[ index + 1 ]] when [index <
    temperedScale.length - 1]. *)
Definition octave_step (binOf : R -> Z) (barWidth : jsnum)
    (st : octave_state) (index : nat) (freq : R) (next : option R) : octave_state :=
  let bin := binOf freq in
  let idx := if (0 <? prevBin st) && (prevBin st + 1 <=? bin)
             then prevBin st + 1 else bin in
  let '(bars, prevIdx', nBars') :=
    if idx =? prevIdx st then (o_bars st, prevIdx st, S (nBars st))
    else ((if (1 <? nBars st)%nat then set_factors (nBars st) (o_bars st)
           else o_bars st),
          idx, 1%nat) in
  let prevBin' :=
    match next with
    | Some nextFreq =>
        let nextBin := binOf nextFreq in
        if 1 <? nextBin - bin
        then bin + Math_round (inject_Z (nextBin - bin) / 2)
        else bin
    | None => bin
    end in
  let endIdx := if 0 <? prevBin' - idx then prevBin' else 0 in
  mk_octave (bars ++ [Bar.new (js_scale barWidth (inject_Z (Z.of_nat index))) idx endIdx])
            prevBin' prevIdx' nBars'.

Fixpoint octave_loop (binOf : R -> Z) (barWidth : jsnum)
    (scale : list R) (index : nat) (st : octave_state) : octave_state :=
  match scale with
  | [] => st
  | freq :: rest =>
      octave_loop binOf barWidth rest (S index)
                  (octave_step binOf barWidth st index freq (head rest))
  end.

(** [this._barWidth = canvas.width / temperedScale.length] *)
Definition octave_barWidth (width : Z) (scale : list R) : jsnum :=
  js_div (inject_Z width) (inject_Z (Z.of_nat (length scale))).

Definition octave_bars (binOf : R -> Z) (width : Z) (scale : list R) : list Bar.t :=
  o_bars (octave_loop binOf (octave_barWidth width scale) scale 0
                      (mk_octave [] 0 (-1) 0)).

(** ** LedQuantizer *)

(** [this._leds = [ ledCount, spaceH, spaceV, ledHeight ]] *)
Record Leds : Type := mk_leds {
  ledCount : Q;
  ledSpaceH : jsnum;
  ledSpaceV : Q;
  ledHeight : jsnum
}.

(** The table [params] of [_calcLeds], rows [maxLeds, spaceVRatio,
    spaceHRatio]; row 0 is empty and there is no row above 8. *)
Definition led_table (mode : Z) : option (Q * Q * Q) :=
  if mode =? 1 then Some (128, 3, 45 # 100)%Q
  else if mode =? 2 then Some (128, 4, 225 # 1000)%Q
  else if mode =? 3 then Some (96, 6, 225 # 1000)%Q
  else if mode =? 4 then Some (80, 6, 225 # 1000)%Q
  else if mode =? 5 then Some (80, 6, 125 # 1000)%Q
  else if mode =? 6 then Some (64, 6, 125 # 1000)%Q
  else if mode =? 7 then Some (48, 8, 125 # 1000)%Q
  else if mode =? 8 then Some (24, 16, 125 # 1000)%Q
  else None.

(** [do { ledCount--; blockHeight = analyzerHeight / ledCount / ( 1 +
    spaceVRatio ); spaceV = blockHeight * spaceVRatio; } while ( (
    blockHeight < minHeight || spaceV < minHeight ) && ledCount > 1 )];
    the result is [(ledCount, blockHeight, spaceV)] at the exit. *)
Fixpoint led_loop (fuel : nat) (analyzerHeight spaceVRatio minHeight count : Q)
    : option (Q * Q * Q) :=
  match fuel with
  | O => None
  | S fuel' =>
      let count := (count - 1)%Q in
      let blockHeight := (analyzerHeight / count / (1 + spaceVRatio))%Q in
      let spaceV := (blockHeight * spaceVRatio)%Q in
      if (Qlt_bool blockHeight minHeight || Qlt_bool spaceV minHeight)
         && Qlt_bool 1 count
      then led_loop fuel' analyzerHeight spaceVRatio minHeight count
      else Some (count, blockHeight, spaceV)
  end.

(** The loop takes one step per unit of [maxLeds]. *)
Definition led_fuel (maxLeds : Q) : nat := S (Z.to_nat (Qceiling maxLeds)).

(** The body of [_calcLeds] after its guard.  [custom] is
    [this._ledParams]; the result is [None] where the source has no
    value to give: no table row for the mode, or a loop out of fuel
    (which [led_loop_total] excludes).  [ledHeight] is the exact
    quotient [H / ledCount - spaceV]; the source's is rounded, so that
    [ledCount * ( ledHeight + spaceV )] is [H] here and can miss it by
    an ulp there. *)
Definition compute_leds (custom : option (Q * Q * Q)) (mode : Z) (dPR : Q)
    (analyzerHeight : Z) (maximizeLeds : bool) (barWidth : jsnum) : option Leds :=
  let finish (count spaceHRatio spaceV height : Q) : Leds :=
    mk_leds count
            (if Qle_bool 1 spaceHRatio then Fin spaceHRatio
             else js_scale barWidth spaceHRatio)
            spaceV
            (js_minus (js_div height count) spaceV) in
  match custom with
  | Some (maxLeds, spaceVRatio, spaceHRatio) =>
      let minHeight := (2 * dPR)%Q in
      match led_loop (led_fuel maxLeds) (inject_Z analyzerHeight) spaceVRatio
                     minHeight (maxLeds + 1)%Q with
      | Some (count, _, spaceV) =>
          let height := if maximizeLeds then (inject_Z analyzerHeight + spaceV)%Q
                        else inject_Z analyzerHeight in
          Some (finish count spaceHRatio spaceV height)
      | None => None
      end
  | None =>
      match led_table mode with
      | Some (maxLeds, spaceVRatio, spaceHRatio) =>
          let refRatio := (540 / spaceVRatio)%Q in
          let spaceV :=
            Qmin (spaceVRatio * dPR)
                 (Qmax 2 (inject_Z (to_int32 (inject_Z analyzerHeight / refRatio
                                              + (1 # 10))))) in
          let height := if maximizeLeds then (inject_Z analyzerHeight + spaceV)%Q
                        else inject_Z analyzerHeight in
          let count := Qmin maxLeds (inject_Z (to_int32 (height / (spaceV * 2)))) in
          Some (finish count spaceHRatio spaceV height)
      | None => None
      end
  end.

(** ** GradientBuilder: the registry of gradients *)

Inductive ColorStop : Type :=
| Color (color : string)
| ColorAt (pos : Q) (color : string).

Record Gradient : Type := mk_gradient {
  bgColor : string;
  dir : option string;
  colorStops : list ColorStop
}.

(** [this._gradients] as set up by the constructor. *)
Definition builtin_gradients : gmap string Gradient :=
  <["classic" :=
      mk_gradient "#111" None
        [Color "hsl( 0, 100%, 50% )";
         ColorAt (6 # 10) "hsl( 60, 100%, 50% )";
         Color "hsl( 120, 100%, 50% )"]]>
  (<["prism" :=
      mk_gradient "#111" None
        [Color "hsl( 0, 100%, 50% )"; Color "hsl( 60, 100%, 50% )";
         Color "hsl( 120, 100%, 50% )"; Color "hsl( 180, 100%, 50% )";
         Color "hsl( 240, 100%, 50% )"]]>
  (<["rainbow" :=
      mk_gradient "#111" (Some "h")
        [Color "hsl( 0, 100%, 50% )"; Color "hsl( 60, 100%, 50% )";
         Color "hsl( 120, 100%, 50% )"; Color "hsl( 180, 100%, 47% )";
         Color "hsl( 240, 100%, 58% )"; Color "hsl( 300, 100%, 50% )";
         Color "hsl( 360, 100%, 50% )"]]> ∅)).

(** The arguments of [registerGradient] as JavaScript values. *)
Inductive js_name : Type :=
| NameString (s : string)
| NameOther.                (* [typeof name !== 'string'] *)

(** [options] when it is an object: [colorStops] is [undefined] ([None])
    or an array.  A [colorStops] of another type, whose [length] the
    test of [registerGradient] would read, is outside the model. *)
Record GradientOptions : Type := mk_options {
  o_bgColor : option string;
  o_dir : option string;
  o_colorStops : option (list ColorStop)
}.

Inductive js_options : Type :=
| OptionsOther              (* [typeof options !== 'object'] *)
| OptionsNull               (* [null], whose [typeof] is ['object'] *)
| OptionsObject (o : GradientOptions).

(** ** The analyzer object

    The fields of [this] that the layout, LED, peak and energy code
    reads or writes.  The audio graph, the canvas contexts,
    [_canvasGradient] and the scale canvases ([_minLog], [_logWidth],
    [_createScales], [_makeGrad]) belong to the drawing surface and are
    not part of the state; their calls are assumed to return. *)

(** What the collaborators provide. *)
Record Env : Type := mk_env {
  canvas_width : Z;               (* [canvas.width] *)
  canvas_height : Z;              (* [canvas.height] *)
  _pixelRatio : Q;
  window_devicePixelRatio : Q;
  screen_height : Z;              (* [window.screen.height] *)
  sampleRate : Q;                 (* [audioCtx.sampleRate] *)
  fftSize : Z                     (* [_analyzer[0].fftSize] *)
}.

(** The properties behind the public setters. *)
Record Props : Type := mk_props {
  _mode : Z;
  _minFreq : Q;
  _maxFreq : Q;
  _reflexRatio : Q;
  _barSpace : Q;
  _stereo : bool;
  _radial : bool;
  _lumiBars : bool;
  _showLeds : bool;
  _ledParams : option (Q * Q * Q);
  _gradient : string
}.

(** The values computed by [_calcAux]. *)
Record Aux : Type := mk_aux {
  _radius : Z;
  _barSpacePx : jsnum;
  _isOctaveBands : bool;
  _isLedDisplay : bool;
  _isLumiBars : bool;
  _maximizeLeds : bool;
  _channelHeight : Z;
  _analyzerHeight : Z;
  _channelGap : Z
}.

Record Analyzer : Type := mk_analyzer {
  env : Env;
  _ready : bool;
  props : Props;
  aux : Aux;
  _barWidth : jsnum;
  _bars : list Bar.t;
  _leds : option Leds;            (* [None] is [undefined] *)
  _energy : Energy.t;
  _fftData : list (list Z);
  _gradients : gmap string Gradient
}.

Definition with_props (p : Props) (a : Analyzer) : Analyzer :=
  mk_analyzer (env a) (_ready a) p (aux a) (_barWidth a) (_bars a) (_leds a)
              (_energy a) (_fftData a) (_gradients a).

Definition with_aux (x : Aux) (a : Analyzer) : Analyzer :=
  mk_analyzer (env a) (_ready a) (props a) x (_barWidth a) (_bars a) (_leds a)
              (_energy a) (_fftData a) (_gradients a).

Definition with_barWidth (w : jsnum) (a : Analyzer) : Analyzer :=
  mk_analyzer (env a) (_ready a) (props a) (aux a) w (_bars a) (_leds a)
              (_energy a) (_fftData a) (_gradients a).

Definition with_bars (bs : list Bar.t) (a : Analyzer) : Analyzer :=
  mk_analyzer (env a) (_ready a) (props a) (aux a) (_barWidth a) bs (_leds a)
              (_energy a) (_fftData a) (_gradients a).

Definition with_leds (l : option Leds) (a : Analyzer) : Analyzer :=
  mk_analyzer (env a) (_ready a) (props a) (aux a) (_barWidth a) (_bars a) l
              (_energy a) (_fftData a) (_gradients a).

Definition with_energy (e : Energy.t) (a : Analyzer) : Analyzer :=
  mk_analyzer (env a) (_ready a) (props a) (aux a) (_barWidth a) (_bars a) (_leds a)
              e (_fftData a) (_gradients a).

Definition with_gradients (g : gmap string Gradient) (a : Analyzer) : Analyzer :=
  mk_analyzer (env a) (_ready a) (props a) (aux a) (_barWidth a) (_bars a) (_leds a)
              (_energy a) (_fftData a) g.

Definition set__mode (v : Z) (p : Props) : Props :=
  mk_props v (_minFreq p) (_maxFreq p) (_reflexRatio p) (_barSpace p) (_stereo p)
           (_radial p) (_lumiBars p) (_showLeds p) (_ledParams p) (_gradient p).

Definition set__minFreq (v : Q) (p : Props) : Props :=
  mk_props (_mode p) v (_maxFreq p) (_reflexRatio p) (_barSpace p) (_stereo p)
           (_radial p) (_lumiBars p) (_showLeds p) (_ledParams p) (_gradient p).

Definition set__maxFreq (v : Q) (p : Props) : Props :=
  mk_props (_mode p) (_minFreq p) v (_reflexRatio p) (_barSpace p) (_stereo p)
           (_radial p) (_lumiBars p) (_showLeds p) (_ledParams p) (_gradient p).

Definition set__reflexRatio (v : Q) (p : Props) : Props :=
  mk_props (_mode p) (_minFreq p) (_maxFreq p) v (_barSpace p) (_stereo p)
           (_radial p) (_lumiBars p) (_showLeds p) (_ledParams p) (_gradient p).

Definition set__ledParams (v : option (Q * Q * Q)) (p : Props) : Props :=
  mk_props (_mode p) (_minFreq p) (_maxFreq p) (_reflexRatio p) (_barSpace p)
           (_stereo p) (_radial p) (_lumiBars p) (_showLeds p) v (_gradient p).

Definition set__gradient (v : string) (p : Props) : Props :=
  mk_props (_mode p) (_minFreq p) (_maxFreq p) (_reflexRatio p) (_barSpace p)
           (_stereo p) (_radial p) (_lumiBars p) (_showLeds p) (_ledParams p) v.

(** ** Errors and methods

    A method takes the object to the object it leaves behind and the
    way it completed.  An exception does not roll anything back: what a
    method wrote before [throw] stays written. *)

Inductive error : Type :=
| ERR_UNKNOWN_GRADIENT
| ERR_INVALID_MODE
| ERR_REFLEX_OUT_OF_RANGE
| ERR_FREQUENCY_TOO_LOW
| ERR_GRADIENT_INVALID_NAME
| ERR_GRADIENT_NOT_AN_OBJECT
| ERR_GRADIENT_MISSING_COLOR
| TypeError
| IndexSizeError            (* the [DOMException]s of the canvas *)
| SyntaxError.

Inductive completion (A : Type) : Type :=
| Return (v : A)
| Throw (e : error).
Arguments Return {A} v.
Arguments Throw {A} e.

Definition method (A : Type) : Type := Analyzer -> Analyzer * completion A.

Definition ret {A} (v : A) : method A := fun a => (a, Return v).
Definition throw {A} (e : error) : method A := fun a => (a, Throw e).
Definition modify (f : Analyzer -> Analyzer) : method unit :=
  fun a => (f a, Return tt).
Definition bind {A B} (m : method A) (k : A -> method B) : method B :=
  fun a => match m a with
           | (a', Return v) => k v a'
           | (a', Throw e) => (a', Throw e)
           end.

Definition state_after {A} (r : Analyzer * completion A) : Analyzer := fst r.
Definition outcome {A} (r : Analyzer * completion A) : completion A := snd r.

(** ** Private methods *)

(** [Math.min] on two JavaScript numbers. *)
Definition js_min (a b : jsnum) : jsnum :=
  match a, b with
  | NaN, _ | _, NaN => NaN
  | NegInf, _ | _, NegInf => NegInf
  | PosInf, other | other, PosInf => other
  | Fin x, Fin y => Fin (Qmin x y)
  end.

(** [_calcAux()]: the values it computes, from the collaborators, the
    properties and [_barWidth]. *)
Definition aux_of (e : Env) (p : Props) (barWidth : jsnum) : Aux :=
  let height := canvas_height e in
  let radius :=
    to_int32 (inject_Z height * (if _stereo p then 375 # 1000 else 125 # 1000)) in
  let barSpacePx :=
    js_min (js_minus barWidth 1)
           (if Qlt_bool 0 (_barSpace p) && Qlt_bool (_barSpace p) 1
            then js_scale barWidth (_barSpace p)
            else Fin (_barSpace p)) in
  let isOctaveBands := negb (Z.rem (_mode p) 10 =? 0) in
  let isLedDisplay := _showLeds p && isOctaveBands && negb (_radial p) in
  let isLumiBars := _lumiBars p && isOctaveBands && negb (_radial p) in
  let maximizeLeds :=
    negb (_stereo p) || (Qlt_bool 0 (_reflexRatio p) && negb isLumiBars) in
  let isDual := _stereo p && negb (_radial p) in
  let channelHeight :=
    js_shr (Qtrunc (inject_Z height
                    - (if isDual && negb isLedDisplay then 1 # 2 else 0)))
           (bool_to_Z isDual) in
  let analyzerHeight :=
    to_int32 (inject_Z channelHeight
              * (if isLumiBars || _radial p then 1 else 1 - _reflexRatio p)) in
  let channelGap := if isDual then height - channelHeight * 2 else 0 in
  mk_aux radius barSpacePx isOctaveBands isLedDisplay isLumiBars
         maximizeLeds channelHeight analyzerHeight channelGap.

Definition _calcAux (a : Analyzer) : Analyzer :=
  with_aux (aux_of (env a) (props a) (_barWidth a)) a.

(** [_calcLeds()].  When [compute_leds] has no value (no table row for
    a mode that [_isOctaveBands] lets through: excluded once [_calcAux]
    has run on a mode accepted by the setter, see [led_table_defined])
    [_leds] is left alone. *)
Definition _calcLeds (a : Analyzer) : Analyzer :=
  if negb (_isOctaveBands (aux a)) || negb (_ready a) then a
  else
    let e := env a in
    let dPR :=
      (_pixelRatio e
       / (if Qlt_bool 1 (window_devicePixelRatio e) && (screen_height e <=? 540)
          then 2 else 1))%Q in
    match compute_leds (_ledParams (props a)) (_mode (props a)) dPR
                       (_analyzerHeight (aux a)) (_maximizeLeds (aux a))
                       (_barWidth a) with
    | Some l => with_leds (Some l) a
    | None => a
    end.

(** [_freqToBin( freq, rounding )] on the object. *)
Definition _freqToBin (a : Analyzer) (freq : Q) (mode : rounding) : Z :=
  freqToBin (fftSize (env a)) (sampleRate (env a)) freq mode.

(** The two layouts of [_calcBars], as [(barWidth, bars)]. *)
Definition layout_discrete (a : Analyzer) : jsnum * list Bar.t :=
  let e := env a in
  let p := props a in
  let minIndex := _freqToBin a (_minFreq p) floor in
  let maxIndex := _freqToBin a (_maxFreq p) round in
  (Fin 1,
   discrete_bars
     (fun i => logPos (canvas_width e) (_minFreq p) (_maxFreq p)
                      (binToFreq (fftSize e) (sampleRate e) i))
     minIndex maxIndex).

Definition layout_octave (a : Analyzer) : option (jsnum * list Bar.t) :=
  let e := env a in
  let p := props a in
  match temperedScale (_mode p) (_minFreq p) (_maxFreq p) with
  | Some scale =>
      Some (octave_barWidth (canvas_width e) scale,
            octave_bars (fun freq => freqToBinR (fftSize e) (sampleRate e) freq round)
                        (canvas_width e) scale)
  | None => None
  end.

(** [_calcBars()]: the bar list is emptied, and rebuilt when the object
    is ready; then [_calcAux()], [_createScales()] and [_calcLeds()]. *)
Definition _calcBars (a : Analyzer) : Analyzer :=
  let a0 := with_bars [] a in
  if negb (_ready a0) then a0
  else
    let a1 :=
      if negb (_isOctaveBands (aux a0)) then
        let '(w, bars) := layout_discrete a0 in
        with_bars bars (with_barWidth w a0)
      else
        match layout_octave a0 with
        | Some (w, bars) => with_bars bars (with_barWidth w a0)
        | None => a0
        end in
    _calcLeds (_calcAux a1).

(** ** Public setters *)

(** [value | 0] on an argument that may be [NaN] or infinite. *)
Definition js_to_int32 (v : jsnum) : Z :=
  match v with
  | Fin q => to_int32 q
  | _ => 0
  end.

(** [set mode( value )] *)
Definition set_mode (value : jsnum) : method unit := fun a =>
  let mode := js_to_int32 value in
  if (0 <=? mode) && (mode <=? 10) && negb (mode =? 9)
  then modify (fun a => _calcBars (_calcAux (with_props (set__mode mode (props a)) a))) a
  else throw ERR_INVALID_MODE a.

(** [set reflexRatio( value )]; [+value || 0] is [value] on a finite
    number. *)
Definition set_reflexRatio (value : Q) : method unit := fun a =>
  if Qlt_bool value 0 || Qle_bool 1 value
  then throw ERR_REFLEX_OUT_OF_RANGE a
  else modify (fun a => _calcLeds (_calcAux (with_props (set__reflexRatio value (props a)) a))) a.

(** [set minFreq( value )], [set maxFreq( value )] *)
Definition set_minFreq (value : Q) : method unit := fun a =>
  if Qlt_bool value 1
  then throw ERR_FREQUENCY_TOO_LOW a
  else modify (fun a => _calcBars (with_props (set__minFreq value (props a)) a)) a.

Definition set_maxFreq (value : Q) : method unit := fun a =>
  if Qlt_bool value 1
  then throw ERR_FREQUENCY_TOO_LOW a
  else modify (fun a => _calcBars (with_props (set__maxFreq value (props a)) a)) a.

(** [setFreqRange( min, max )] *)
Definition setFreqRange (min max : Q) : method unit := fun a =>
  if Qlt_bool min 1 || Qlt_bool max 1
  then throw ERR_FREQUENCY_TOO_LOW a
  else modify (fun a =>
         _calcBars (with_props (set__maxFreq (Qmax min max)
                                  (set__minFreq (Qmin min max) (props a))) a)) a.

(** ** [setLedParams( params )] *)

Record LedParams : Type := mk_ledparams {
  params_maxLeds : Q;
  params_spaceV : Q;
  params_spaceH : Q
}.

(** [x > 0] and [x >= 0] where [x] may be [undefined] ([None]). *)
Definition gt0 (x : option Q) : bool :=
  match x with Some q => Qlt_bool 0 q | None => false end.
Definition ge0 (x : option Q) : bool :=
  match x with Some q => Qle_bool 0 q | None => false end.

(** The method opens with [let maxLeds, spaceV, spaceH;] and, inside
    [if ( params ) { ... }], declares three more variables of the same
    names with [let]: those live in the block and end with it, so the
    test that follows reads the outer three, which were never
    assigned. *)
Definition setLedParams (params : option LedParams) : method unit := fun a =>
  let maxLeds : option Q := None in
  let spaceV : option Q := None in
  let spaceH : option Q := None in
  let _block :=
    match params with
    | Some prm =>
        let maxLeds := Some (params_maxLeds prm) in
        let spaceV := Some (params_spaceV prm) in
        let spaceH := Some (params_spaceH prm) in
        tt
    | None => tt
    end in
  let ledParams :=
    if gt0 maxLeds && gt0 spaceV && ge0 spaceH
    then match maxLeds, spaceV, spaceH with
         | Some m, Some v, Some h => Some (m, v, h)
         | _, _, _ => None
         end
    else None in
  modify (fun a => _calcLeds (with_props (set__ledParams ledParams (props a)) a)) a.

(** ** [registerGradient( name, options )] *)

(** [name.trim().length === 0]: the name is made of white space and
    line terminators only.  Strings are UTF-8 here, so the non-ASCII
    white space of ECMAScript is matched by its bytes. *)
Definition ascii_ws (c : Ascii.ascii) : bool :=
  let n := Ascii.nat_of_ascii c in
  ((9 <=? n) && (n <=? 13) || (n =? 32))%nat.

Fixpoint is_blank (s : string) : bool :=
  match s with
  | EmptyString => true
  | String c rest =>
      if ascii_ws c then is_blank rest
      else
        match Ascii.nat_of_ascii c, rest with
        | 194%nat, String c2 r2 =>                       (* U+00A0 *)
            (Ascii.nat_of_ascii c2 =? 160)%nat && is_blank r2
        | 225%nat, String c2 (String c3 r3) =>           (* U+1680 *)
            (Ascii.nat_of_ascii c2 =? 154)%nat && (Ascii.nat_of_ascii c3 =? 128)%nat
            && is_blank r3
        | 226%nat, String c2 (String c3 r3) =>
            let n2 := Ascii.nat_of_ascii c2 in
            let n3 := Ascii.nat_of_ascii c3 in
            ((n2 =? 128)%nat                              (* U+2000..200A, 2028, 2029, 202F *)
             && ((128 <=? n3)%nat && (n3 <=? 138)%nat
                 || (n3 =? 168)%nat || (n3 =? 169)%nat || (n3 =? 175)%nat)
             || (n2 =? 129)%nat && (n3 =? 159)%nat)       (* U+205F *)
            && is_blank r3
        | 227%nat, String c2 (String c3 r3) =>           (* U+3000 *)
            (Ascii.nat_of_ascii c2 =? 128)%nat && (Ascii.nat_of_ascii c3 =? 128)%nat
            && is_blank r3
        | 239%nat, String c2 (String c3 r3) =>           (* U+FEFF *)
            (Ascii.nat_of_ascii c2 =? 187)%nat && (Ascii.nat_of_ascii c3 =? 191)%nat
            && is_blank r3
        | _, _ => false
        end
  end.

(** The object stored under a name: [bgColor] defaults to ['#111'],
    [dir] is copied when given, [colorStops] is the caller's array. *)
Definition new_gradient (o : GradientOptions) (stops : list ColorStop) : Gradient :=
  mk_gradient (default "#111" (o_bgColor o)) (o_dir o) stops.

(** [this._gradients[ name ] = {}] on a plain object: the key
    ["__proto__"] reaches the prototype setter and creates no entry. *)
Definition store_gradient (name : string) (g : Gradient)
    (gs : gmap string Gradient) : gmap string Gradient :=
  if String.eqb name "__proto__" then gs else <[name := g]> gs.

Definition registerGradient (name : js_name) (options : js_options) : method unit :=
  fun a =>
  match name with
  | NameOther => throw ERR_GRADIENT_INVALID_NAME a
  | NameString s =>
      if is_blank s then throw ERR_GRADIENT_INVALID_NAME a
      else
        match options with
        | OptionsOther => throw ERR_GRADIENT_NOT_AN_OBJECT a
        | OptionsNull => throw TypeError a   (* [options.colorStops] on [null] *)
        | OptionsObject o =>
            match o_colorStops o with
            | None => throw ERR_GRADIENT_MISSING_COLOR a
            | Some stops =>
                if (length stops <? 2)%nat
                then throw ERR_GRADIENT_MISSING_COLOR a
                else modify (fun a =>
                       with_gradients
                         (store_gradient s (new_gradient o stops) (_gradients a)) a) a
            end
        end
  end.

(** ** [getEnergy( startFreq, endFreq )] *)

Inductive js_arg : Type :=
| ArgUndefined
| ArgNumber (q : Q)
| ArgString (s : string).

Inductive energy_result : Type :=
| EnergyNumber (v : jsnum)
| EnergyNull.

(** What [presets[ key ]] finds: one of the five ranges of the object
    literal, or, the literal being a plain object, a member inherited
    from [Object.prototype] (a function, or the prototype itself for
    ["__proto__"]): truthy, and not iterable. *)
Inductive preset_entry : Type :=
| PresetRange (startFreq endFreq : Q)
| InheritedMember.

Definition Object_prototype_names : list string :=
  ["constructor"; "__defineGetter__"; "__defineSetter__"; "hasOwnProperty";
   "__lookupGetter__"; "__lookupSetter__"; "isPrototypeOf";
   "propertyIsEnumerable"; "toString"; "valueOf"; "__proto__";
   "toLocaleString"].

Definition presets (key : string) : option preset_entry :=
  if String.eqb key "bass" then Some (PresetRange 20 250)
  else if String.eqb key "lowMid" then Some (PresetRange 250 500)
  else if String.eqb key "mid" then Some (PresetRange 500 2000)
  else if String.eqb key "highMid" then Some (PresetRange 2000 4000)
  else if String.eqb key "treble" then Some (PresetRange 4000 16000)
  else if existsb (String.eqb key) Object_prototype_names then Some InheritedMember
  else None.

(** [this._fftData[ channel ][ i ]]; [None] is [undefined]. *)
Definition fft_byte (fftData : list Z) (i : Z) : option Q :=
  if i <? 0 then None else inject_Z <$> fftData !! Z.to_nat i.

(** The tail of [getEnergy]: the mean over the bins and the channels,
    [NaN] as soon as one index falls outside the buffer. *)
Definition range_energy (a : Analyzer) (startFreq : Q) (endFreq : option Q) : jsnum :=
  let startBin := _freqToBin a startFreq round in
  let endBin :=
    match endFreq with
    | Some f => if Qeq_bool f 0 then startBin else _freqToBin a f round
    | None => startBin
    end in
  let chnCount := bool_to_Z (_stereo (props a)) + 1 in
  let energy : option Q :=
    fold_left
      (fun acc channel =>
         fold_left
           (fun acc' i =>
              match acc', fft_byte (default [] (_fftData a !! channel)) i with
              | Some e, Some v => Some (e + v)%Q
              | _, _ => None
              end)
           (seqZ startBin (endBin - startBin + 1)) acc)
      (channels (_stereo (props a))) (Some 0%Q) in
  match energy with
  | Some e =>
      js_scale (js_scale (js_div e (inject_Z (endBin - startBin + 1)))
                         (1 / inject_Z chnCount))
               (1 / 255)
  | None => NaN
  end.

Definition energy_number (v : option Q) : jsnum :=
  match v with Some q => Fin q | None => NaN end.

Definition getEnergy (startFreq : js_arg) (endFreq : option Q)
    : method energy_result := fun a =>
  match startFreq with
  | ArgUndefined => ret (EnergyNumber (energy_number (Energy.val (_energy a)))) a
  | ArgNumber q =>
      (* [startFreq !== ( startFreq | 0 )]: not a 32-bit integer; its
         decimal spelling names no member of [presets] *)
      if negb (Qeq_bool q (inject_Z (to_int32 q))) then ret EnergyNull a
      else ret (EnergyNumber (range_energy a q endFreq)) a
  | ArgString s =>
      if String.eqb s "peak" then ret (EnergyNumber (Fin (Energy.peak (_energy a)))) a
      else
        match presets s with
        | None => ret EnergyNull a
        | Some (PresetRange lo hi) =>
            ret (EnergyNumber (range_energy a lo (Some hi))) a
        | Some InheritedMember =>
            (* [[ startFreq, endFreq ] = presets[ startFreq ]] *)
            throw TypeError a
        end
  end.

(** ** [_draw]: the state written by one frame *)

Definition with_fftData (d : list (list Z)) (a : Analyzer) : Analyzer :=
  mk_analyzer (env a) (_ready a) (props a) (aux a) (_barWidth a) (_bars a) (_leds a)
              (_energy a) d (_gradients a).

(** The height in pixels of a bar of normalized value [v]; [None] is
    [NaN] (LED attributes missing, or a LED count of zero, whose
    [ledHeight] is not finite while [v * ledCount | 0] is 0). *)
Definition bar_height (a : Analyzer) (v : Q) : option Q :=
  if _isLedDisplay (aux a) then
    match _leds a with
    | Some l =>
        match ledHeight l with
        | Fin lh =>
            let h := (inject_Z (to_int32 (v * ledCount l)) * (lh + ledSpaceV l)
                      - ledSpaceV l)%Q in
            Some (if Qlt_bool h 0 then 0%Q else h)
        | _ => None
        end
    | None => None
    end
  else
    let centerY := js_shr (canvas_height (env a)) 1 in
    Some (inject_Z (to_int32 (v * inject_Z (if _radial (props a)
                                            then centerY - _radius (aux a)
                                            else _analyzerHeight (aux a))))).

Definition draw_bar (a : Analyzer) (channel : nat) (fftData : list Z)
    (bar : Bar.t) : Bar.t :=
  let h := bar_height a (bar_value fftData bar) in
  match channel with
  | O => Bar.mk (Bar.posX bar) (Bar.dataIdx bar) (Bar.endIdx bar) (Bar.factor bar)
                (BarState.frame h (Bar.chan0 bar)) (Bar.chan1 bar)
  | _ => Bar.mk (Bar.posX bar) (Bar.dataIdx bar) (Bar.endIdx bar) (Bar.factor bar)
                (Bar.chan0 bar) (BarState.frame h (Bar.chan1 bar))
  end.

(** One call of [_draw], [buffers] being what [getByteFrequencyData]
    delivers for each channel: the data buffers, the peaks of the bars
    and the energy.  The frame also writes [_spinAngle] and, for the
    frame rate and the next frame, [_frame], [_fps], [_time] and
    [_runId], none of which is a field of [Analyzer]; and it calls
    [onCanvasDraw( this )] when that callback is set, which is taken
    not to be set. *)
Definition _draw (buffers : list (list Z)) (a : Analyzer) : Analyzer :=
  let isStereo := _stereo (props a) in
  let fftData :=
    fold_left (fun d channel => <[channel := default [] (buffers !! channel)]> d)
              (channels isStereo) (_fftData a) in
  let bars :=
    fold_left (fun bs channel => map (draw_bar a channel (default [] (fftData !! channel))) bs)
              (channels isStereo) (_bars a) in
  with_energy (draw_energy isStereo (_bars a) fftData (_energy a))
              (with_bars bars (with_fftData fftData a)).

(** ** The object at the end of the constructor

    [_setCanvas('create')] runs [_calcAux()], [_makeGrad()] and
    [_calcBars()] on the properties left by [_setProps]. *)
Definition new_analyzer (e : Env) (p : Props) : Analyzer :=
  _calcBars
    (_calcAux
       (mk_analyzer e true p
                    (mk_aux 0 NaN false false false true 0 0 0)
                    NaN [] None Energy.initial
                    [repeat 0 (Z.to_nat (fftSize e / 2));
                     repeat 0 (Z.to_nat (fftSize e / 2))]
                    builtin_gradients)).

(** The defaults of [_setProps], on a 640 x 270 canvas at 44.1 kHz. *)
Definition default_env : Env := mk_env 640 270 1 1 1080 44100 8192.
Definition default_props : Props :=
  mk_props 0 20 22000 0 (1 # 10) false false false false None "classic".
Definition default_analyzer : Analyzer := new_analyzer default_env default_props.

(** [a < b] on JavaScript numbers, read off [js_gt]. *)
Definition js_lt (a b : jsnum) : Prop := js_gt b a = true.

(** What the loop of the discrete layout maintains, [m] being the next
    bin to look at and [lo] the first one. *)
Definition discrete_inv (posOf : Z -> jsnum) (lo m : Z)
    (st : list Bar.t * jsnum) : Prop :=
  StronglySorted js_lt (map Bar.posX (fst st)) /\
  StronglySorted Z.lt (map Bar.dataIdx (fst st)) /\
  Forall (fun b =>
            lo <= Bar.dataIdx b < m /\
            Bar.posX b = posOf (Bar.dataIdx b) /\
            (Bar.endIdx b = 0 \/ Bar.dataIdx b < Bar.endIdx b < m) /\
            forall p, js_gt p (snd st) = true -> js_gt p (Bar.posX b) = true)
         (fst st).

(** The scenario of the specification: FFT size 8192 at 44.1 kHz, the
    range 20 Hz .. 22 kHz in the discrete mode 0, on a canvas 1000
    pixels wide. *)
Definition scenario_env : Env := mk_env 1000 270 1 1 1080 44100 8192.
Definition scenario_analyzer : Analyzer := new_analyzer scenario_env default_props.

(** The test of the loop of the tempered scale on step [j]:
    [freq >= minFreq && i % notesPerBand === 0]. *)
Definition kept (minFreq : R) (npb : option Z) (j : Z) : bool :=
  if Rge_dec (note_freq j) minFreq then on_band j npb else false.

(** The equal-tempered semitone [k] above [C0], the frequency the
    specification counts in its octave-band property: twelve to the
    octave, that is every second step of the 24-tone scale. *)
Definition semitone_freq (k : Z) : R := (C0 * Rpower 2 (IZR k / 12))%R.

(** Mode 1 ([notesPerBand = 1]) on the range 20 Hz .. 20 kHz. *)
Definition octave_20k_props : Props :=
  mk_props 1 20 20000 0 (1 # 10) false false false false None "classic".

(** Objects and arguments used as examples. *)
Definition two_stops : GradientOptions :=
  mk_options None None (Some [Color "red"; Color "blue"]).
Definition octave_props : Props := set__mode 1 default_props.
Definition octave_analyzer : Analyzer := new_analyzer default_env octave_props.
Definition ten_leds : LedParams := mk_ledparams 10 1 (1 # 2).

(** Two numbers that are the same column, and a bin that lies in the
    range of a bar. *)
Definition js_same (a b : jsnum) : Prop := js_gt a b = false /\ js_gt b a = false.

Definition covers (b : Bar.t) (j : Z) : Prop :=
  Bar.dataIdx b <= j /\ (j = Bar.dataIdx b \/ j <= Bar.endIdx b).

(** The second half of what the discrete loop maintains: [lastPos] is
    the column of the last bar (or the initial -999), and every bin seen
    so far whose column is right of -999 lies in the range of a bar of
    its column. *)
Definition discrete_cover (posOf : Z -> jsnum) (lo m : Z)
    (st : list Bar.t * jsnum) : Prop :=
  (fst st = [] /\ snd st = Fin (-999) \/
   exists init b, fst st = init ++ [b] /\ snd st = Bar.posX b) /\
  forall j, lo <= j < m -> js_gt (posOf j) (Fin (-999)) = true ->
    exists b, In b (fst st) /\ covers b j /\ js_same (posOf j) (Bar.posX b).

(** ** Ranges of the values of a frame *)

(** A magnitude buffer as [getByteFrequencyData] fills it: a
    [Uint8Array]. *)
Definition byte_buffer (fftData : list Z) : Prop :=
  Forall (fun b => 0 <= b <= 255) fftData.

(** The interpolation factor of a bar is a proportion. *)
Definition unit_factor (bar : Bar.t) : Prop := (0 <= Bar.factor bar <= 1)%Q.

(** What the energy tracker keeps from frame to frame. *)
Definition energy_inv (e : Energy.t) : Prop :=
  (0 <= Energy.peak e <= 1)%Q /\ -31 <= Energy.hold e <= 30 /\
  (Energy.hold e = -31 -> (Energy.peak e == 0)%Q) /\
  match Energy.val e with Some v => (0 <= v <= 1)%Q | None => True end.

(** The product [(30 + 0) / 30 * (30 - 1) / 30 * ...] of the first [k]
    factors of the decay of the energy peak. *)
Fixpoint decay_product (k : nat) : Q :=
  match k with
  | O => 1
  | S k' => decay_product k' * (inject_Z (30 - Z.of_nat k') / 30)
  end.

(** The distance fallen by a peak after [k] falling frames:
    [1 + 2 + ... + k], the acceleration growing by one per frame. *)
Fixpoint fallen (k : nat) : Z :=
  match k with
  | O => 0
  | S k' => fallen k' + Z.of_nat (S k')
  end.

(** A bar height that cannot lift a peak above the threshold [1] below
    which peaks are neither drawn nor decayed. *)
Definition quiet (h : Q) : Prop := (0 <= h <= 1)%Q.

(** ** [_makeGrad]: the colour stops handed to the canvas gradient

    The gradient object belongs to the canvas; what [_makeGrad] decides
    is the list of calls [grad.addColorStop( offset, color )], in order.
    An offset is a JavaScript number: [index / maxIndex] is [0 / 0] on an
    array of one stop. *)

(** [a + r] and [r - a] for a finite [r]. *)
Definition js_plus (a : jsnum) (r : Q) : jsnum :=
  match a with
  | Fin x => Fin (x + r)
  | other => other
  end.

Definition js_rminus (r : Q) (a : jsnum) : jsnum :=
  match a with
  | NaN => NaN
  | NegInf => PosInf
  | Fin x => Fin (r - x)
  | PosInf => NegInf
  end.

(** [colorInfo.pos !== undefined ? colorInfo.pos : index / maxIndex] *)
Definition stop_offset (colorInfo : ColorStop) (index maxIndex : Z) : jsnum :=
  match colorInfo with
  | ColorAt pos _ => Fin pos
  | Color _ => js_div (inject_Z index) (inject_Z maxIndex)
  end.

(** [colorInfo.color || colorInfo], as the string the canvas receives:
    [Color c] is the string [c] itself; an object whose [color] is the
    empty string is falsy there and is passed whole. *)
Definition stop_color (colorInfo : ColorStop) : string :=
  match colorInfo with
  | Color c => c
  | ColorAt _ c => if String.eqb c "" then "[object Object]" else c
  end.

(** The callback of [colorStops.forEach( ( colorInfo, index ) => ... )]
    for one [channel]: the calls of [addColorStop] it makes.
    [colorStops[ revIndex ]] is an element of the array, [revIndex]
    being an index of it. *)
Definition grad_callback (stereo dual radial isLumiBars isHorizontal : bool)
    (reflexRatio : Q) (colorStops : list ColorStop) (channel : nat)
    (index : nat) (colorInfo : ColorStop) : list (jsnum * string) :=
  let maxIndex := Z.of_nat (length colorStops) - 1 in
  let analyzerRatio := (1 - reflexRatio)%Q in
  let offset := stop_offset colorInfo (Z.of_nat index) maxIndex in
  let offset := if dual then js_scale offset (1 # 2) else offset in
  let offset :=
    if stereo && negb isLumiBars && negb radial && negb isHorizontal then
      let offset := js_scale offset analyzerRatio in
      if negb dual && js_gt offset (Fin ((1 # 2) * analyzerRatio))
      then js_plus offset ((1 # 2) * reflexRatio)
      else offset
    else offset in
  let '(before, offset, colorInfo) :=
    if (channel =? 1)%nat then
      if radial || isLumiBars then
        let revIndex := maxIndex - Z.of_nat index in
        let colorInfo := default colorInfo (colorStops !! Z.to_nat revIndex) in
        ([],
         js_rminus 1 (js_scale (stop_offset colorInfo revIndex maxIndex) (1 # 2)),
         colorInfo)
      else
        ((if (index =? 0)%nat && js_gt offset (Fin 0)
          then [(Fin (1 # 2), stop_color colorInfo)] else []),
         js_plus offset (1 # 2),
         colorInfo)
    else ([], offset, colorInfo) in
  before ++ [(offset, stop_color colorInfo)]
         ++ (if stereo && (Z.of_nat index =? maxIndex) && js_gt (Fin (1 # 2)) offset
             then [(Fin (1 # 2), stop_color colorInfo)] else []).

(** [isHorizontal = currGradient.dir === 'h'] *)
Definition is_horizontal (g : Gradient) : bool :=
  match dir g with
  | Some d => String.eqb d "h"
  | None => false
  end.

(** [dual = this._stereo && ! this._splitGradient && ! isHorizontal] *)
Definition is_dual (stereo splitGradient : bool) (g : Gradient) : bool :=
  stereo && negb splitGradient && negb (is_horizontal g).

(** One round of [for ( let channel = 0; channel < 1 + dual; channel++ )]. *)
Definition channel_stops (stereo splitGradient radial isLumiBars : bool)
    (reflexRatio : Q) (g : Gradient) (channel : nat) : list (jsnum * string) :=
  concat (imap (grad_callback stereo (is_dual stereo splitGradient g) radial
                              isLumiBars (is_horizontal g) reflexRatio
                              (colorStops g) channel)
               (colorStops g)).

Definition makeGrad_stops (stereo splitGradient radial isLumiBars : bool)
    (reflexRatio : Q) (g : Gradient) : list (jsnum * string) :=
  flat_map (channel_stops stereo splitGradient radial isLumiBars reflexRatio g)
           (if is_dual stereo splitGradient g then [0; 1] else [0])%nat.

(** [_makeGrad()] on the object, [splitGradient] being
    [this._splitGradient]: nothing is done before the object is ready
    ([Some []]), and [None] is the [TypeError] of reading [colorStops]
    from a gradient that is not there. *)
Definition _makeGrad (splitGradient : bool) (a : Analyzer)
    : option (list (jsnum * string)) :=
  if negb (_ready a) then Some []
  else
    match _gradients a !! _gradient (props a) with
    | Some g =>
        Some (makeGrad_stops (_stereo (props a)) splitGradient (_radial (props a))
                             (_isLumiBars (aux a)) (_reflexRatio (props a)) g)
    | None => None
    end.

(** ** The canvas gradient

    What the canvas does with the calls that [_makeGrad] makes.
    [createRadialGradient] raises [IndexSizeError] on a negative
    radius; [addColorStop( offset, color )] raises a [TypeError] on an
    offset that is not a finite number, [IndexSizeError] on one outside
    [0, 1] and [SyntaxError] on a colour it cannot parse.  Which
    strings are colours is the canvas's matter: [css_color]. *)

(** [ctx.createRadialGradient( centerX, centerY, centerY, centerX,
    centerY, radius - ( centerY - radius ) * this._stereo )], or
    [ctx.createLinearGradient], whose arguments are finite. *)
Definition create_gradient (a : Analyzer) : option error :=
  if _radial (props a) then
    let centerY := js_shr (canvas_height (env a)) 1 in
    let radius := _radius (aux a) in
    if (centerY <? 0)
       || (radius - (centerY - radius) * bool_to_Z (_stereo (props a)) <? 0)
    then Some IndexSizeError
    else None
  else None.

Definition addColorStop (css_color : string -> bool) (stop : jsnum * string)
    : option error :=
  match fst stop with
  | Fin offset =>
      if Qlt_bool offset 0 || Qlt_bool 1 offset then Some IndexSizeError
      else if css_color (snd stop) then None
      else Some SyntaxError
  | _ => Some TypeError
  end.

(** The calls of [addColorStop] in their order, up to the first that
    raises. *)
Fixpoint addColorStops (css_color : string -> bool) (stops : list (jsnum * string))
    : option error :=
  match stops with
  | [] => None
  | stop :: rest =>
      match addColorStop css_color stop with
      | Some e => Some e
      | None => addColorStops css_color rest
      end
  end.

(** The call [this._makeGrad()]: it writes [_canvasGradient] only, which
    is not part of the state, and returns or raises. *)
Definition makeGrad_call (css_color : string -> bool) (splitGradient : bool)
    : method unit := fun a =>
  if negb (_ready a) then (a, Return tt)
  else
    match _makeGrad splitGradient a with
    | None => (a, Throw TypeError)
    | Some stops =>
        match create_gradient a with
        | Some e => (a, Throw e)
        | None =>
            match addColorStops css_color stops with
            | Some e => (a, Throw e)
            | None => (a, Return tt)
            end
        end
    end.

(** [set gradient( value )].  [this._gradients.hasOwnProperty] is looked
    up on the registry itself, a plain object: a gradient registered
    under the name ["hasOwnProperty"] is found in place of the method,
    and calling it is a [TypeError].  Otherwise the method looks at the
    registry's own entries. *)
Definition set_gradient (css_color : string -> bool) (splitGradient : bool)
    (value : string) : method unit := fun a =>
  match _gradients a !! "hasOwnProperty" with
  | Some _ => throw TypeError a
  | None =>
      match _gradients a !! value with
      | None => throw ERR_UNKNOWN_GRADIENT a
      | Some _ =>
          makeGrad_call css_color splitGradient
                        (with_props (set__gradient value (props a)) a)
      end
  end.

(** A colour stop whose position, when given, is an offset of a
    canvas gradient. *)
Definition valid_stop (c : ColorStop) : Prop :=
  match c with
  | ColorAt pos _ => (0 <= pos <= 1)%Q
  | Color _ => True
  end.

(** An offset that [addColorStop] accepts (it raises [IndexSizeError]
    outside [0, 1] and [TypeError] on a non-finite number), between two
    bounds. *)
Definition offset_between (lo hi : Q) (stop : jsnum * string) : Prop :=
  exists q, fst stop = Fin q /\ (lo <= q <= hi)%Q.

(** The buffers that [getEnergy] reads on the channels in use: filled
    with bytes, one per frequency bin. *)
Definition buffers_filled (a : Analyzer) : Prop :=
  forall channel, In channel (channels (_stereo (props a))) ->
    exists d, _fftData a !! channel = Some d /\ byte_buffer d /\
              Z.of_nat (length d) = fftSize (env a) / 2.

(** ** What the loop of the octave layout maintains *)

(** A bar as [_calcBars] leaves it: its bins lie in the buffer
    ([max = frequencyBinCount - 1]), its range is empty or proper, its
    interpolation factor is a proportion and its peaks are cleared. *)
Definition bar_well_formed (max : Z) (b : Bar.t) : Prop :=
  0 <= Bar.dataIdx b <= max /\
  (Bar.endIdx b = 0 \/ Bar.dataIdx b < Bar.endIdx b <= max) /\
  unit_factor b /\
  Bar.chan0 b = BarState.fresh /\ Bar.chan1 b = BarState.fresh.

(** [next] is the frequency the loop looks at next. *)
Definition octave_inv (binOf : R -> Z) (max : Z) (next : option R)
    (st : octave_state) : Prop :=
  Forall (bar_well_formed max) (o_bars st) /\
  StronglySorted Z.le (map Bar.dataIdx (o_bars st)) /\
  Forall (fun z => z <= prevIdx st) (map Bar.dataIdx (o_bars st)) /\
  prevIdx st <= prevBin st /\ 0 <= prevBin st <= max /\
  match next with Some f => prevBin st <= binOf f | None => True end.

(** The bins of a scale are in the buffer and in order. *)
Definition bins_ok (binOf : R -> Z) (max : Z) (scale : list R) : Prop :=
  Forall (fun f => 0 <= binOf f <= max) scale /\
  StronglySorted (fun f g => binOf f <= binOf g) scale.

(** An object in octave mode 1 on which [_calcBars] has not run yet. *)
Definition octave_unlaid : Analyzer :=
  mk_analyzer default_env true octave_props
              (aux_of default_env octave_props NaN) NaN [] None Energy.initial
              [repeat 0 4096; repeat 0 4096] builtin_gradients.

(** ** The remaining setters of the display flags *)











(** ** Sequences of calls

    A call with its arguments, each of the type the method works on: a
    number, which can be [NaN] or infinite, for the mode; a finite
    number for a frequency, the reflex ratio and the bar space; a truth
    value ([!! value]) for the flags; a name for the gradient; the
    arguments of [registerGradient], [setLedParams] and [getEnergy] as
    these take them.  A frequency that is no finite number, which
    [value < 1] does not refuse, is not among the calls. *)






(** ** The animation loop: [toggleAnalyzer]

    [_runId] is the identifier [requestAnimationFrame] returned, [None]
    when the analyzer is stopped ([undefined]); [_frame], [_fps] and
    [_time] are the frame counter, the frame rate and the time of the
    last measure, which [toggleAnalyzer] resets when it starts the
    analyzer.  Times are in milliseconds. *)

Record Loop : Type := mk_loop {
  _runId : option Z;
  _frame : Z;
  _fps : Q;
  _time : Q
}.

(** [get isOn()] *)
Definition isOn (l : Loop) : bool :=
  match _runId l with
  | Some _ => true
  | None => false
  end.

(** [toggleAnalyzer( value )]: [value] is [None] for [undefined] and the
    truth value of the argument otherwise; [now] is [performance.now()]
    and [requestId] what [requestAnimationFrame] returns. *)
Definition toggleAnalyzer (value : option bool) (now : Q) (requestId : Z)
    (l : Loop) : Loop * bool :=
  let started := isOn l in
  let value := match value with Some v => v | None => negb started end in
  let l' :=
    if started && negb value then mk_loop None (_frame l) (_fps l) (_time l)
    else if negb started && value then mk_loop (Some requestId) 0 0 now
    else l in
  (l', isOn l').

(** ** The audio graph: sources, outputs and the routing of the analyzers

    An audio node is known by its identity, a number.  The graph keeps
    the two lists of the object and the connections made from the input
    gain node and from the two analyzer nodes; [connect] adds a
    connection unless it is there already and [disconnect()] drops all
    the connections of a node.  The connections of the sources to the
    input are those of [_sources], and the connections of the output
    gain node those of [_outNodes]: they are not kept twice. *)

Inductive input_target : Type := ToSplitter | ToAnalyzer0.
Inductive analyzer_target : Type := ToOutput | ToMerger.

Record AudioGraph : Type := mk_graph {
  g_stereo : bool;                          (* [this._stereo] *)
  _sources : list nat;
  _outNodes : list nat;
  input_to : list input_target;
  analyzer0_to : list analyzer_target;
  analyzer1_to : list analyzer_target
}.

(** The graph when the constructor has created the nodes. *)
Definition new_graph : AudioGraph := mk_graph false [] [] [] [] [].

Definition includes (node : nat) (l : list nat) : bool := existsb (Nat.eqb node) l.

(** [l.splice( l.indexOf( node ), 1 )] when [node] is in [l]. *)
Fixpoint remove_first (node : nat) (l : list nat) : list nat :=
  match l with
  | [] => []
  | x :: rest => if (x =? node)%nat then rest else x :: remove_first node rest
  end.

Definition analyzer_target_eqb (x y : analyzer_target) : bool :=
  match x, y with
  | ToOutput, ToOutput | ToMerger, ToMerger => true
  | _, _ => false
  end.

(** [analyzer.connect( target )] *)
Definition connect_analyzer (target : analyzer_target) (l : list analyzer_target)
    : list analyzer_target :=
  if existsb (analyzer_target_eqb target) l then l else l ++ [target].

(** What [connectInput] is given: an HTML media element, for which
    [createMediaElementSource] makes the node [created]; an audio node;
    or something with no [connect]. *)
Inductive audio_source : Type :=
| MediaElement (created : nat)
| AudioNode (node : nat)
| NotAudio.

(** [connectInput( source )]: the graph and the node returned, [None]
    for [ERR_INVALID_AUDIO_SOURCE]. *)
Definition connectInput (source : audio_source) (g : AudioGraph)
    : AudioGraph * option nat :=
  match source with
  | NotAudio => (g, None)
  | MediaElement node | AudioNode node =>
      (if negb (includes node (_sources g))
       then mk_graph (g_stereo g) (_sources g ++ [node]) (_outNodes g)
                     (input_to g) (analyzer0_to g) (analyzer1_to g)
       else g,
       Some node)
  end.

(** [disconnectInput( sources )]: [None] is a falsy argument (all the
    sources, from a copy of the list), a single node is the list of that
    node. *)
Definition disconnectInput (sources : option (list nat)) (g : AudioGraph)
    : AudioGraph :=
  fold_left
    (fun g node =>
       if includes node (_sources g)
       then mk_graph (g_stereo g) (remove_first node (_sources g)) (_outNodes g)
                     (input_to g) (analyzer0_to g) (analyzer1_to g)
       else g)
    (match sources with Some l => l | None => _sources g end) g.

(** [connectOutput( node )], [node] being the destination of the audio
    context when the argument is left out. *)
Definition connectOutput (node : nat) (g : AudioGraph) : AudioGraph :=
  if includes node (_outNodes g) then g
  else
    let outNodes := _outNodes g ++ [node] in
    if (length outNodes =? 1)%nat
    then mk_graph (g_stereo g) (_sources g) outNodes (input_to g)
                  (connect_analyzer (if negb (g_stereo g) then ToOutput else ToMerger)
                                    (analyzer0_to g))
                  (connect_analyzer ToMerger (analyzer1_to g))
    else mk_graph (g_stereo g) (_sources g) outNodes (input_to g)
                  (analyzer0_to g) (analyzer1_to g).

(** [disconnectOutput( node )]; [None] is [undefined]. *)
Definition disconnectOutput (node : option nat) (g : AudioGraph) : AudioGraph :=
  match node with
  | Some n =>
      if negb (includes n (_outNodes g)) then g
      else
        let outNodes := List.filter (fun e => negb (e =? n)%nat) (_outNodes g) in
        if (length outNodes =? 0)%nat
        then mk_graph (g_stereo g) (_sources g) outNodes (input_to g) [] []
        else mk_graph (g_stereo g) (_sources g) outNodes (input_to g)
                      (analyzer0_to g) (analyzer1_to g)
  | None => mk_graph (g_stereo g) (_sources g) [] (input_to g) [] []
  end.

(** The part "update node connections" of [set stereo( value )]. *)
Definition stereo_routing (value : bool) (g : AudioGraph) : AudioGraph :=
  mk_graph value (_sources g) (_outNodes g)
           [if value then ToSplitter else ToAnalyzer0]
           (if negb (length (_outNodes g) =? 0)%nat
            then connect_analyzer (if value then ToMerger else ToOutput) []
            else [])
           (analyzer1_to g).

Inductive graph_call : Type :=
| ConnectInput (source : audio_source)
| DisconnectInput (sources : option (list nat))
| ConnectOutput (node : nat)
| DisconnectOutput (node : option nat)
| SetStereoRouting (value : bool).

Definition graph_perform (c : graph_call) (g : AudioGraph) : AudioGraph :=
  match c with
  | ConnectInput source => fst (connectInput source g)
  | DisconnectInput sources => disconnectInput sources g
  | ConnectOutput node => connectOutput node g
  | DisconnectOutput node => disconnectOutput node g
  | SetStereoRouting value => stereo_routing value g
  end.

(** The routing drawn in the comment of the constructor. *)
Definition routed (g : AudioGraph) : Prop :=
  NoDup (_sources g) /\ NoDup (_outNodes g) /\
  (input_to g = [] \/
   input_to g = [if g_stereo g then ToSplitter else ToAnalyzer0]) /\
  analyzer0_to g
  = (if (length (_outNodes g) =? 0)%nat then []
     else [if g_stereo g then ToMerger else ToOutput]) /\
  analyzer1_to g = (if (length (_outNodes g) =? 0)%nat then [] else [ToMerger]).

(** ** The radial display: coordinates and the angle of the spin *)

(** [TAU = 2 * Math.PI], [HALF_PI = Math.PI / 2] *)
Definition TAU : R := (2 * PI)%R.
Definition HALF_PI : R := (PI / 2)%R.

(** [radialXY( x, y )] of [_draw]: planar to radial coordinates, for a
    canvas whose width is not 0. *)
Definition radialXY (e : Env) (radius : Z) (spinAngle : R) (x y : R) : R * R :=
  let centerX := js_shr (canvas_width e) 1 in
  let centerY := js_shr (canvas_height e) 1 in
  let height := (IZR radius + y)%R in
  let angle := (TAU * (x / IZR (canvas_width e)) + spinAngle)%R in
  (IZR centerX + height * cos angle, IZR centerY + height * sin angle)%R.

(** [set spinSpeed( value )] on the pair of [_spinSpeed] ([None] is
    [undefined]) and [_spinAngle]. *)
Definition set_spinSpeed (value : Q) (s : option Q * R) : option Q * R :=
  (Some value,
   match fst s with
   | None => (- HALF_PI)%R
   | Some _ => if Qeq_bool value 0 then (- HALF_PI)%R else snd s
   end).

(* ================================================================== *)
(** * Part II: properties                                              *)
(* ================================================================== *)

Ltac qlra := Lqa.lra.
Ltac rlra := Lra.lra.

Lemma Qlt_bool_iff (a b : Q) : Qlt_bool a b = true <-> (a < b)%Q.
Proof.
  unfold Qlt_bool. rewrite negb_true_iff.
  split; intro H.
  - apply Qnot_le_lt. intro Hle. apply Qle_bool_iff in Hle. congruence.
  - destruct (Qle_bool b a) eqn:E; [|reflexivity].
    apply Qle_bool_iff in E. qlra.
Qed.

Lemma Qlt_bool_false (a b : Q) : Qlt_bool a b = false <-> (b <= a)%Q.
Proof.
  unfold Qlt_bool. rewrite negb_false_iff. apply Qle_bool_iff.
Qed.

Lemma Qle_bool_false (a b : Q) : Qle_bool a b = false <-> (b < a)%Q.
Proof.
  split; intro H.
  - apply Qnot_le_lt. intro Hle. apply Qle_bool_iff in Hle. congruence.
  - destruct (Qle_bool a b) eqn:E; [|reflexivity].
    apply Qle_bool_iff in E. qlra.
Qed.

Example frame_100 :
  BarState.frame (Some 100%Q) BarState.fresh
  = {| BarState.peak := 100; BarState.hold := 29; BarState.accel := 0 |}.
Proof. reflexivity. Qed.

(** ** BarState *)

Section BarStateFacts.
Import BarState.

Lemma reset_ge (h : Q) (s : t) :
  (peak s <= h)%Q -> reset (Some h) s = mk h 30 0.
Proof.
  intro H. unfold reset. apply Qle_bool_iff in H. now rewrite H.
Qed.

Lemma reset_lt (h : Q) (s : t) :
  (h < peak s)%Q -> reset (Some h) s = s.
Proof.
  intro H. unfold reset. apply Qle_bool_false in H. now rewrite H.
Qed.

Lemma decay_low (s : t) : (peak s <= 1)%Q -> decay s = s.
Proof.
  intro H. unfold decay. apply Qlt_bool_false in H. now rewrite H.
Qed.

Lemma decay_hold (s : t) :
  (1 < peak s)%Q -> hold s <> 0 ->
  decay s = mk (peak s) (hold s - 1) (accel s).
Proof.
  intros H Hh. unfold decay. apply Qlt_bool_iff in H. rewrite H.
  apply Z.eqb_neq in Hh. now rewrite Hh.
Qed.

Lemma decay_fall (s : t) :
  (1 < peak s)%Q -> hold s = 0 ->
  decay s = mk (peak s - inject_Z (accel s + 1)) 0 (accel s + 1).
Proof.
  intros H Hh. unfold decay. apply Qlt_bool_iff in H. rewrite H.
  rewrite Hh. reflexivity.
Qed.

(** The first frame of a bar overwrites whatever [hold] and [accel]
    held: the absent array entries of a new bar are never read. *)
Lemma frame_fresh (h : Q) (hold0 accel0 : Z) :
  (0 <= h)%Q ->
  frame (Some h) (mk 0 hold0 accel0) = frame (Some h) fresh.
Proof.
  intro H. unfold frame. rewrite !reset_ge by exact H. reflexivity.
Qed.

Lemma inject_Z_succ (z : Z) : (inject_Z (z + 1) == inject_Z z + 1)%Q.
Proof. rewrite inject_Z_plus. reflexivity. Qed.

Lemma decay_inv (s : t) : inv s -> inv (decay s).
Proof.
  intros (Hh & Ha & Hp).
  destruct (Qlt_le_dec 1 (peak s)) as [H1|H1].
  - destruct (Z.eq_dec (hold s) 0) as [E|E].
    + rewrite decay_fall by assumption. unfold inv; simpl.
      repeat split; try lia.
      rewrite inject_Z_succ. qlra.
    + rewrite decay_hold by assumption. unfold inv; simpl.
      repeat split; try lia. exact Hp.
  - rewrite decay_low by assumption. repeat split; try lia; tauto.
Qed.

Lemma reset_inv (h : Q) (s : t) :
  (0 <= h)%Q -> inv s -> inv (reset (Some h) s).
Proof.
  intros H0 Hs.
  destruct (Qlt_le_dec h (peak s)) as [H|H].
  - now rewrite reset_lt.
  - rewrite reset_ge by assumption. unfold inv; simpl.
    repeat split; try lia. unfold inject_Z. qlra.
Qed.

Lemma frame_inv (h : Q) (s : t) :
  (0 <= h)%Q -> inv s -> inv (frame (Some h) s).
Proof. intros. unfold frame. now apply decay_inv, reset_inv. Qed.

Lemma fresh_inv : inv fresh.
Proof. unfold inv, fresh; simpl. repeat split; try lia. unfold inject_Z. qlra. Qed.

Lemma run_inv (hs : list Q) (s : t) :
  Forall (fun h => (0 <= h)%Q) hs -> inv s -> inv (run hs s).
Proof.
  revert s. induction hs as [|h hs IH]; intros s Hhs Hs; simpl.
  - exact Hs.
  - inversion Hhs; subst. apply IH; [assumption|]. now apply frame_inv.
Qed.

Lemma decay_peak_le (s : t) : 0 <= accel s -> (peak (decay s) <= peak s)%Q.
Proof.
  intro Ha.
  destruct (Qlt_le_dec 1 (peak s)) as [H1|H1].
  - destruct (Z.eq_dec (hold s) 0) as [E|E].
    + rewrite decay_fall by assumption. simpl.
      assert (0 <= inject_Z (accel s + 1))%Q.
      { change 0%Q with (inject_Z 0). rewrite <- Zle_Qle. lia. }
      qlra.
    + rewrite decay_hold by assumption. simpl. qlra.
  - rewrite decay_low by assumption. qlra.
Qed.

(** C1 (as amended).  One frame of the peak state of a bar, for a
    height [h >= 0] and a state reached from a new bar:
    - if [h >= peak], the state is set to [(h, 30, 0)], and the same
      frame already counts the hold down to 29 when [h > 1];
    - otherwise, a peak above 1 with a running hold keeps its value and
      the hold loses one; with the hold at 0 the fall speed [accel]
      grows by one and is subtracted from the peak;
    - a peak of at most 1 that is not beaten is left as it is.
    The peak never rises above [max h peak] (monotone decay), the peak
    shown in the frame (after the reset) is at least [h >= 0], and the
    stored peak is not floored at 0: it is only bounded below by
    [- accel]. *)
Theorem BarState_frame_law (h : Q) (s : t) :
  (0 <= h)%Q -> inv s ->
  ((peak s <= h)%Q ->
     frame (Some h) s = if Qlt_bool 1 h then mk h 29 0 else mk h 30 0) /\
  ((h < peak s)%Q -> (1 < peak s)%Q -> hold s <> 0 ->
     frame (Some h) s = mk (peak s) (hold s - 1) (accel s)) /\
  ((h < peak s)%Q -> (1 < peak s)%Q -> hold s = 0 ->
     frame (Some h) s = mk (peak s - inject_Z (accel s + 1)) 0 (accel s + 1)) /\
  ((h < peak s)%Q -> (peak s <= 1)%Q -> frame (Some h) s = s) /\
  (peak (frame (Some h) s) <= Qmax h (peak s))%Q /\
  (h <= peak (reset (Some h) s))%Q /\
  (- inject_Z (accel (frame (Some h) s)) <= peak (frame (Some h) s))%Q /\
  inv (frame (Some h) s).
Proof.
  intros H0 Hs. unfold frame.
  repeat split.
  - intro H. rewrite reset_ge by assumption.
    destruct (Qlt_bool 1 h) eqn:E.
    + apply Qlt_bool_iff in E. rewrite decay_hold; simpl; auto; lia.
    + apply Qlt_bool_false in E. now rewrite decay_low.
  - intros H H1 Hh. rewrite reset_lt by assumption. now apply decay_hold.
  - intros H H1 Hh. rewrite reset_lt by assumption. now apply decay_fall.
  - intros H H1. rewrite reset_lt by assumption. now apply decay_low.
  - pose proof (reset_inv h s H0 Hs) as (_ & Ha & _).
    eapply Qle_trans; [apply decay_peak_le; exact Ha|].
    destruct (Qlt_le_dec h (peak s)) as [H|H].
    + rewrite reset_lt by assumption. apply Q.le_max_r.
    + rewrite reset_ge by assumption. simpl. apply Q.le_max_l.
  - destruct (Qlt_le_dec h (peak s)) as [H|H].
    + rewrite reset_lt by assumption. qlra.
    + rewrite reset_ge by assumption. simpl. qlra.
  - pose proof (frame_inv h s H0 Hs) as (_ & _ & Hp).
    unfold frame in Hp. qlra.
  - pose proof (frame_inv h s H0 Hs) as (Hh & _ & _). unfold frame in Hh. lia.
  - pose proof (frame_inv h s H0 Hs) as (Hh & _ & _). unfold frame in Hh. lia.
  - pose proof (frame_inv h s H0 Hs) as (_ & Ha & _). exact Ha.
  - pose proof (frame_inv h s H0 Hs) as (_ & _ & Hp). exact Hp.
Qed.

Lemma BarState_frame_law_witness :
  (0 <= 0)%Q /\ inv (run (100%Q :: repeat 0%Q 42) fresh) /\
  frame (Some 0%Q) (run (100%Q :: repeat 0%Q 42) fresh) = mk (-5) 0 14.
Proof.
  assert (H0 : (0 <= 0)%Q) by (unfold Qle; simpl; lia).
  assert (Hi : inv (run (100%Q :: repeat 0%Q 42) fresh)).
  { vm_compute. repeat split; intro; discriminate. }
  split; [exact H0|]. split; [exact Hi|].
  destruct (BarState_frame_law 0 (run (100%Q :: repeat 0%Q 42) fresh) H0 Hi)
    as (_ & _ & Hfall & _).
  rewrite Hfall; [reflexivity | reflexivity | reflexivity | reflexivity].
Defined.

(** C1, the claim as worded fails: with a peak of 100 and silence
    afterwards, the 44th frame stores a negative peak (9 - 14 = -5),
    where the worded update would store 0; and the frame that sets the
    peak of 100 already leaves the hold at 29, not 30. *)
Lemma BarState_peak_negative :
  let s := run (100%Q :: repeat 0%Q 42) fresh in
  s = mk 9 0 13 /\
  (peak (frame (Some 0%Q) s) < 0)%Q /\
  frame (Some 0%Q) s <> spec_frame 0 s /\
  hold (frame (Some 100%Q) fresh) = 29.
Proof.
  cbv zeta. split; [reflexivity|]. split; [reflexivity|].
  split; [|reflexivity].
  vm_compute. intro H. discriminate H.
Qed.

End BarStateFacts.

(** ** EnergyTracker *)

Section EnergyFacts.
Import Energy.

Lemma wrap32_small (z : Z) : - 2 ^ 31 <= z < 2 ^ 31 -> wrap32 z = z.
Proof.
  intro H. unfold wrap32. rewrite Z.mod_small; lia.
Qed.

(** [nBars << isStereo] is the number of bars times the number of
    channels. *)
Lemma shl_channels (n : Z) (isStereo : bool) :
  0 <= n < 2 ^ 30 ->
  js_shl n (bool_to_Z isStereo) = n * Z.of_nat (length (channels isStereo)).
Proof.
  intro H. unfold js_shl. rewrite (wrap32_small n) by lia.
  destruct isStereo; simpl bool_to_Z; simpl channels; simpl length.
  - change (1 mod 32) with 1. rewrite Z.shiftl_mul_pow2 by lia.
    rewrite wrap32_small; lia.
  - change (0 mod 32) with 0. rewrite Z.shiftl_0_r.
    rewrite wrap32_small; lia.
Qed.

Lemma fold_left_Qplus {A} (f : A -> Q) (l : list A) (acc : Q) :
  (fold_left (fun e x => e + f x) l acc == acc + Qsum (map f l))%Q.
Proof.
  revert acc. induction l as [|x l IH]; intro acc; simpl.
  - qlra.
  - rewrite IH. qlra.
Qed.

Lemma Qsum_app (l1 l2 : list Q) : (Qsum (l1 ++ l2) == Qsum l1 + Qsum l2)%Q.
Proof.
  induction l1 as [|x l1 IH]; simpl.
  - qlra.
  - rewrite IH. qlra.
Qed.

Lemma currentEnergy_sum (isStereo : bool) (bars : list Bar.t)
    (fftData : list (list Z)) :
  (currentEnergy isStereo bars fftData
   == Qsum (all_bar_values isStereo bars fftData))%Q.
Proof.
  unfold currentEnergy, all_bar_values.
  destruct isStereo; simpl.
  - rewrite !fold_left_Qplus, app_nil_r, Qsum_app. qlra.
  - rewrite !fold_left_Qplus, app_nil_r. qlra.
Qed.

Lemma val_update (v : option Q) (e : t) : val (update v e) = v.
Proof.
  unfold update, settle.
  destruct v as [x|]; repeat (match goal with |- context [if ?c then _ else _] => destruct c end);
    reflexivity.
Qed.

Lemma update_ge (x : Q) (e : t) :
  (peak e <= x)%Q -> update (Some x) e = mk (Some x) x 30.
Proof.
  intro H. unfold update. apply Qle_bool_iff in H. now rewrite H.
Qed.

Lemma feed_shift (x : Q) (n : nat) (e : t) :
  feed x (S n) e = feed x n (update (Some x) e).
Proof. unfold feed. apply Nat.iter_succ_r. Qed.

Lemma step_low (e : t) :
  (peak e <= 1 # 2)%Q -> update (Some (1 # 2)) e = mk (Some (1 # 2)) (1 # 2) 30.
Proof. intro H. now apply update_ge. Qed.

Lemma step_high (e : t) :
  (1 # 2 < peak e)%Q ->
  update (Some (1 # 2)) e = settle (Some (1 # 2)) e.
Proof.
  intro H. unfold update.
  destruct (Qle_bool (peak e) (1 # 2)) eqn:E; [|reflexivity].
  apply Qle_bool_iff in E. exfalso. qlra.
Qed.

Lemma Qlt_bool_true (x y : Q) : (x < y)%Q -> Qlt_bool x y = true.
Proof.
  intro H. unfold Qlt_bool. destruct (Qle_bool y x) eqn:E; [|reflexivity].
  apply Qle_bool_iff in E. exfalso. qlra.
Qed.

Lemma feed_at_rest (n : nat) : feed (1 # 2) n (mk (Some (1 # 2)) (1 # 2) 30) = mk (Some (1 # 2)) (1 # 2) 30.
Proof.
  induction n as [|n IH]; [reflexivity|].
  rewrite feed_shift. rewrite step_low; [exact IH | apply Qle_refl].
Qed.

Lemma settles_later (n m : nat) (e : t) :
  feed (1 # 2) n e = mk (Some (1 # 2)) (1 # 2) 30 -> (n <= m)%nat -> feed (1 # 2) m e = mk (Some (1 # 2)) (1 # 2) 30.
Proof.
  intros H Hnm. replace m with ((m - n) + n)%nat by lia.
  unfold feed in *. rewrite Nat.iter_add. rewrite H. apply feed_at_rest.
Qed.

(** The decay: [j] frames into it the peak is at most the product of
    the first [j] factors, which is below 0.5 for [j = 7]. *)
Lemma settles_in_decay (m j : nat) (e : t) :
  (j + m = 7)%nat -> hold e <= - Z.of_nat j -> (peak e <= decay_product j)%Q ->
  feed (1 # 2) (S m) e = mk (Some (1 # 2)) (1 # 2) 30.
Proof.
  revert j e. induction m as [|m IH]; intros j e Hj Hh Hp.
  - assert (j = 7%nat) by lia. subst j.
    apply step_low. eapply Qle_trans; [exact Hp|]. vm_compute. discriminate.
  - destruct (Qlt_le_dec (1 # 2) (peak e)) as [Hhi|Hlo].
    + rewrite feed_shift, (step_high e Hhi). unfold settle.
      destruct (Z.ltb_spec 0 (hold e)) as [H0|H0]; [lia|].
      rewrite Qlt_bool_true by qlra.
      apply (IH (S j)); [lia | cbn [hold]; lia |].
      cbn [peak decay_product].
      assert (Hf : (inject_Z (30 + hold e) / 30 <= inject_Z (30 - Z.of_nat j) / 30)%Q).
      { unfold Qdiv. apply Qmult_le_compat_r; [|vm_compute; discriminate].
        rewrite <- Zle_Qle. lia. }
      assert (Hj0 : (0 <= inject_Z (30 - Z.of_nat j) / 30)%Q).
      { unfold Qdiv. apply Qmult_le_0_compat; [|vm_compute; discriminate].
        rewrite <- (Zle_Qle 0). lia. }
      set (fh := (inject_Z (30 + hold e) / 30)%Q) in *.
      set (fj := (inject_Z (30 - Z.of_nat j) / 30)%Q) in *.
      set (D := decay_product j) in *.
      assert (H1 : (0 <= peak e * (fj - fh))%Q) by (apply Qmult_le_0_compat; qlra).
      assert (H2 : (0 <= (D - peak e) * fj)%Q) by (apply Qmult_le_0_compat; qlra).
      qlra.
    + apply (settles_later 1); [now apply step_low | lia].
Qed.

(** The hold: at most [h] frames of it, then the decay. *)
Lemma settles_in_hold (h : nat) (e : t) :
  hold e <= Z.of_nat h -> (peak e <= 1)%Q ->
  feed (1 # 2) (h + 8) e = mk (Some (1 # 2)) (1 # 2) 30.
Proof.
  revert e. induction h as [|h IH]; intros e Hh Hp.
  - apply (settles_in_decay 7 0); [reflexivity | simpl; lia | exact Hp].
  - destruct (Qlt_le_dec (1 # 2) (peak e)) as [Hhi|Hlo].
    + destruct (Z.ltb_spec 0 (hold e)) as [H0|H0].
      * change (S h + 8)%nat with (S (h + 8)).
        rewrite feed_shift, (step_high e Hhi). unfold settle.
        destruct (Z.ltb_spec 0 (hold e)) as [_|H1]; [|lia].
        apply IH; [cbn [hold]; lia | exact Hp].
      * apply (settles_later 8); [|lia].
        apply (settles_in_decay 7 0); [reflexivity | simpl; lia | exact Hp].
    + apply (settles_later 1); [now apply step_low | lia].
Qed.

(** No frame raises the peak above the larger of the old peak and the
    energy of the frame. *)
Lemma update_no_overshoot (e : t) :
  hold e <= 30 ->
  (peak (update (Some (1 # 2)) e) <= Qmax (peak e) (1 # 2))%Q /\
  hold (update (Some (1 # 2)) e) <= 30.
Proof.
  intro Hh. destruct (Qlt_le_dec (1 # 2) (peak e)) as [Hhi|Hlo].
  - rewrite (step_high e Hhi). unfold settle.
    destruct (Z.ltb_spec 0 (hold e)) as [H0|H0].
    + cbn [peak hold]. split; [apply Q.le_max_l | lia].
    + rewrite Qlt_bool_true by qlra. cbn [peak hold]. split; [|lia].
      eapply Qle_trans; [|apply Q.le_max_l].
      assert (Hf : (inject_Z (30 + hold e) / 30 <= 1)%Q).
      { apply Qle_shift_div_r; [reflexivity|]. rewrite Qmult_1_l.
        rewrite <- (Zle_Qle _ 30). lia. }
      set (fh := (inject_Z (30 + hold e) / 30)%Q) in *.
      assert (H1 : (0 <= peak e * (1 - fh))%Q) by (apply Qmult_le_0_compat; qlra).
      qlra.
  - rewrite (step_low e Hlo). cbn [peak hold].
    split; [apply Q.le_max_r | lia].
Qed.

Lemma feed_no_overshoot (k : nat) (e : t) :
  hold e <= 30 ->
  (peak (feed (1 # 2) k e) <= Qmax (peak e) (1 # 2))%Q /\
  hold (feed (1 # 2) k e) <= 30.
Proof.
  intro Hh. induction k as [|k [IHp IHh]].
  - split; [apply Q.le_max_l | exact Hh].
  - change (feed (1 # 2) (S k) e) with (update (Some (1 # 2)) (feed (1 # 2) k e)).
    destruct (update_no_overshoot (feed (1 # 2) k e) IHh) as [Hp Hh'].
    split; [|exact Hh'].
    eapply Qle_trans; [exact Hp|].
    apply Q.max_lub; [exact IHp | apply Q.le_max_r].
Qed.

(** C2 (as amended).  In a frame with bars (fewer than 2^30),
    [energy.val] is the sum of the normalized heights of all bars of
    all channels divided by (number of bars x number of channels).
    A tracker fed the constant 0.5 does not converge within 30 frames
    in every run: a peak above 0.5 is first held, up to 30 frames, and
    then decays.  From any state with [peak <= 1] and [hold <= 30]
    (every state the tracker reaches on byte data) the peak is 0.5,
    with the hold back at 30, after 38 frames and on every later
    frame; no frame of the run raises the peak above the larger of 0.5
    and the peak the run started with; and a tracker whose peak is not
    above 0.5 at the start, a new one in particular, has peak 0.5 from
    the first frame on. *)
Theorem EnergyTracker_constant_feed_settles
    (isStereo : bool) (bars : list Bar.t) (fftData : list (list Z)) (e : t) :
  (0 < length bars)%nat -> Z.of_nat (length bars) < 2 ^ 30 ->
  (peak e <= 1)%Q -> hold e <= 30 ->
  (exists v,
      val (draw_energy isStereo bars fftData e) = Some v /\
      (v == Qsum (all_bar_values isStereo bars fftData)
            / inject_Z (Z.of_nat (length bars)
                        * Z.of_nat (length (channels isStereo))))%Q) /\
  (forall n, (38 <= n)%nat ->
     feed (1 # 2) n e = (mk (Some (1 # 2)) (1 # 2) 30)) /\
  (forall k, (peak (feed (1 # 2) k e) <= Qmax (peak e) (1 # 2))%Q) /\
  ((peak e <= 1 # 2)%Q ->
   forall n, (1 <= n)%nat -> feed (1 # 2) n e = mk (Some (1 # 2)) (1 # 2) 30).
Proof.
  intros Hpos Hlt Hp Hh. split; [|split; [|split]].
  - unfold draw_energy. rewrite val_update. unfold energy_val.
    rewrite shl_channels by lia.
    destruct (Z.eqb_spec (Z.of_nat (length bars)
                          * Z.of_nat (length (channels isStereo))) 0) as [E|E].
    + exfalso. destruct isStereo; simpl in E; lia.
    + eexists. split; [reflexivity|].
      rewrite currentEnergy_sum. reflexivity.
  - intros n Hn. apply (settles_later 38); [|exact Hn].
    destruct (Z.le_ge_cases (hold e) 0) as [H0|H0].
    + apply (settles_later 8); [|lia]. apply (settles_in_hold 0); [simpl; lia | exact Hp].
    + replace 38%nat with ((Z.to_nat (hold e) + 8) + (30 - Z.to_nat (hold e)))%nat by lia.
      apply (settles_later (Z.to_nat (hold e) + 8)); [|lia].
      apply settles_in_hold; [lia | exact Hp].
  - intro k. exact (proj1 (feed_no_overshoot k e Hh)).
  - intros Hlo n Hn. apply (settles_later 1); [now apply step_low | exact Hn].
Qed.

Lemma EnergyTracker_constant_feed_settles_witness :
  feed (1 # 2) 38 (mk (Some 1%Q) 1 30) = mk (Some (1 # 2)) (1 # 2) 30.
Proof.
  assert (H1 : (0 < length [Bar.new (Fin 0) 1 0; Bar.new (Fin 1) 2 3])%nat)
    by (simpl; lia).
  assert (H2 : Z.of_nat (length [Bar.new (Fin 0) 1 0; Bar.new (Fin 1) 2 3]) < 2 ^ 30)
    by (simpl; lia).
  assert (H3 : (peak (mk (Some 1%Q) 1 30) <= 1)%Q) by (unfold Qle; simpl; lia).
  assert (H4 : hold (mk (Some 1%Q) 1 30) <= 30) by (simpl; lia).
  destruct (EnergyTracker_constant_feed_settles true
              [Bar.new (Fin 0) 1 0; Bar.new (Fin 1) 2 3]
              [[0; 255; 51; 102]; [0; 0; 255; 0]] (mk (Some 1%Q) 1 30)
              H1 H2 H3 H4)
    as (_ & Hfeed & _).
  exact (Hfeed 38%nat (Nat.le_refl 38)).
Defined.

(** C2, the claim as worded fails.  One frame of full energy on a new
    object leaves [peak = 1, hold = 30].  Fed the constant 0.5 from
    there, the peak is still 1 after 31 frames (above 0.5, and not
    converged after more than 30 frames), has decayed to
    1 * 30/30 * 29/30 * ... * 24/30 = 0.469..., below 0.5, after 37
    frames, and is 0.5 only from frame 38 on. *)
Lemma EnergyTracker_peak_held_above :
  update (Some 1%Q) initial = mk (Some 1%Q) 1 30 /\
  (peak (feed (1 # 2) 31 (mk (Some 1%Q) 1 30)) == 1)%Q /\
  ~ (peak (feed (1 # 2) 31 (mk (Some 1%Q) 1 30)) <= 1 # 2)%Q /\
  (peak (feed (1 # 2) 37 (mk (Some 1%Q) 1 30)) == 2639 # 5625)%Q /\
  (peak (feed (1 # 2) 37 (mk (Some 1%Q) 1 30)) < 1 # 2)%Q /\
  feed (1 # 2) 38 (mk (Some 1%Q) 1 30) = mk (Some (1 # 2)) (1 # 2) 30.
Proof.
  split; [reflexivity|]. split; [vm_compute; reflexivity|].
  split; [vm_compute; intro H; apply H; reflexivity|].
  split; [vm_compute; reflexivity|].
  split; [vm_compute; reflexivity|].
  vm_compute. reflexivity.
Qed.


End EnergyFacts.

(** ** What the private methods leave alone *)

Section Frame.


Lemma calcLeds_fields (a : Analyzer) :
  env (_calcLeds a) = env a /\ _ready (_calcLeds a) = _ready a /\
  props (_calcLeds a) = props a /\ aux (_calcLeds a) = aux a /\
  _barWidth (_calcLeds a) = _barWidth a /\ _bars (_calcLeds a) = _bars a /\
  _energy (_calcLeds a) = _energy a /\ _fftData (_calcLeds a) = _fftData a /\
  _gradients (_calcLeds a) = _gradients a.
Proof.
  unfold _calcLeds.
  destruct (negb (_isOctaveBands (aux a)) || negb (_ready a)); [repeat split|].
  destruct (compute_leds _ _ _ _ _ _); repeat split.
Qed.

(** The shape of a rebuilt object: only the layout, the auxiliary
    values and the LED attributes differ. *)
Lemma calcBars_shape (a : Analyzer) :
  exists w bars x l,
    _calcBars a
    = mk_analyzer (env a) (_ready a) (props a) x w bars l
                  (_energy a) (_fftData a) (_gradients a).
Proof.
  unfold _calcBars. simpl _ready.
  destruct (negb (_ready a)).
  - destruct a; simpl; eauto.
  - set (a1 := if negb (_isOctaveBands (aux (with_bars [] a))) then _ else _).
    assert (H1 : env a1 = env a /\ _ready a1 = _ready a /\ props a1 = props a /\
                 _energy a1 = _energy a /\ _fftData a1 = _fftData a /\
                 _gradients a1 = _gradients a).
    { subst a1. destruct (negb (_isOctaveBands (aux (with_bars [] a)))).
      - destruct (layout_discrete (with_bars [] a)); repeat split.
      - destruct (layout_octave (with_bars [] a)) as [[w bars]|]; repeat split. }
    destruct H1 as (He & Hr & Hp & Hen & Hf & Hg).
    pose proof (calcLeds_fields (_calcAux a1)) as (Le & Lr & Lp & _ & _ & _ & Len & Lf & Lg).
    destruct (_calcLeds (_calcAux a1)) eqn:E. simpl in *.
    subst. rewrite He, Hr, Hp, Hen, Hf, Hg. eauto 10.
Qed.

Lemma calcBars_fields (a : Analyzer) :
  env (_calcBars a) = env a /\ _ready (_calcBars a) = _ready a /\
  props (_calcBars a) = props a /\ _energy (_calcBars a) = _energy a /\
  _fftData (_calcBars a) = _fftData a /\ _gradients (_calcBars a) = _gradients a.
Proof.
  destruct (calcBars_shape a) as (w & bars & x & l & ->). repeat split.
Qed.

Lemma new_analyzer_fields (e : Env) (p : Props) :
  env (new_analyzer e p) = e /\ _ready (new_analyzer e p) = true /\
  props (new_analyzer e p) = p /\ _energy (new_analyzer e p) = Energy.initial /\
  _gradients (new_analyzer e p) = builtin_gradients.
Proof.
  unfold new_analyzer.
  match goal with |- context [_calcBars ?x] =>
    pose proof (calcBars_fields x) as (He & Hr & Hp & Hen & _ & Hg) end.
  rewrite He, Hr, Hp, Hen, Hg. repeat split.
Qed.

Lemma default_analyzer_fields :
  env default_analyzer = default_env /\ _ready default_analyzer = true /\
  props default_analyzer = default_props /\
  _energy default_analyzer = Energy.initial /\
  _gradients default_analyzer = builtin_gradients.
Proof. exact (new_analyzer_fields default_env default_props). Qed.

End Frame.

(** ** Frequency range, mode and reflex setters *)

Section Setters.

(** C9.  For [min >= 1] and [max >= 1], whatever their order,
    [setFreqRange( min, max )] returns normally and leaves [_minFreq]
    at the smaller and [_maxFreq] at the larger of the two, so that
    [_minFreq <= _maxFreq] afterwards. *)
Theorem setFreqRange_orders (min max : Q) (a : Analyzer) :
  (1 <= min)%Q -> (1 <= max)%Q ->
  outcome (setFreqRange min max a) = Return tt /\
  _minFreq (props (state_after (setFreqRange min max a))) = Qmin min max /\
  _maxFreq (props (state_after (setFreqRange min max a))) = Qmax min max /\
  (_minFreq (props (state_after (setFreqRange min max a)))
   <= _maxFreq (props (state_after (setFreqRange min max a))))%Q.
Proof.
  intros Hmin Hmax. unfold setFreqRange.
  apply Qlt_bool_false in Hmin. apply Qlt_bool_false in Hmax.
  rewrite Hmin, Hmax. simpl orb. cbv iota. unfold modify, state_after, outcome.
  simpl fst. simpl snd.
  match goal with |- context [_calcBars ?x] =>
    pose proof (calcBars_fields x) as (_ & _ & Hp & _) end.
  rewrite Hp. simpl.
  repeat split.
  eapply Qle_trans; [apply Q.le_min_l | apply Q.le_max_l].
Qed.

Lemma setFreqRange_orders_witness :
  outcome (setFreqRange 22000 20 default_analyzer) = Return tt /\
  _minFreq (props (state_after (setFreqRange 22000 20 default_analyzer))) = 20%Q /\
  _maxFreq (props (state_after (setFreqRange 22000 20 default_analyzer))) = 22000%Q.
Proof.
  assert (H1 : (1 <= 22000)%Q) by (unfold Qle; simpl; lia).
  assert (H2 : (1 <= 20)%Q) by (unfold Qle; simpl; lia).
  destruct (setFreqRange_orders 22000 20 default_analyzer H1 H2)
    as (Ho & Hmin & Hmax & _).
  split; [exact Ho|]. split; [rewrite Hmin; reflexivity | rewrite Hmax; reflexivity].
Defined.

(** C6 (as amended).  Each setter tests its argument before it writes
    anything: [set mode] throws when [value | 0] (the argument
    truncated to a 32-bit integer) is below 0, above 10 or equal to 9;
    [set minFreq], [set maxFreq] and [setFreqRange] throw on a
    frequency below 1; [set reflexRatio] throws on a ratio below 0 or
    at least 1.  In each case the object is left exactly as it was, so
    every later call behaves as if the rejected one had not been made. *)
Theorem setters_reject_invalid (a : Analyzer) :
  (forall value,
      js_to_int32 value < 0 \/ 10 < js_to_int32 value \/ js_to_int32 value = 9 ->
      set_mode value a = (a, Throw ERR_INVALID_MODE)) /\
  (forall value, (value < 1)%Q ->
      set_minFreq value a = (a, Throw ERR_FREQUENCY_TOO_LOW) /\
      set_maxFreq value a = (a, Throw ERR_FREQUENCY_TOO_LOW)) /\
  (forall min max, (min < 1)%Q \/ (max < 1)%Q ->
      setFreqRange min max a = (a, Throw ERR_FREQUENCY_TOO_LOW)) /\
  (forall value, (value < 0)%Q \/ (1 <= value)%Q ->
      set_reflexRatio value a = (a, Throw ERR_REFLEX_OUT_OF_RANGE)).
Proof.
  repeat split.
  - intros value H. unfold set_mode.
    destruct ((0 <=? js_to_int32 value) && (js_to_int32 value <=? 10)
              && negb (js_to_int32 value =? 9)) eqn:E; [|reflexivity].
    apply andb_prop in E as [E E9]. apply andb_prop in E as [E0 E10].
    apply Z.leb_le in E0. apply Z.leb_le in E10.
    apply negb_true_iff, Z.eqb_neq in E9. lia.
  - unfold set_minFreq. apply Qlt_bool_iff in H. now rewrite H.
  - unfold set_maxFreq. apply Qlt_bool_iff in H. now rewrite H.
  - intros min max H. unfold setFreqRange.
    destruct H as [H|H]; apply Qlt_bool_iff in H; rewrite H;
      [reflexivity | now rewrite orb_true_r].
  - intros value H. unfold set_reflexRatio.
    destruct H as [H|H].
    + apply Qlt_bool_iff in H. now rewrite H.
    + apply Qle_bool_iff in H. rewrite H. now rewrite orb_true_r.
Qed.

Lemma setters_reject_invalid_witness :
  set_mode (Fin 9) default_analyzer = (default_analyzer, Throw ERR_INVALID_MODE) /\
  set_mode (Fin (19 # 2)) default_analyzer = (default_analyzer, Throw ERR_INVALID_MODE) /\
  set_mode (Fin 11) default_analyzer = (default_analyzer, Throw ERR_INVALID_MODE) /\
  set_minFreq (1 # 2) default_analyzer
    = (default_analyzer, Throw ERR_FREQUENCY_TOO_LOW) /\
  setFreqRange 20 0 default_analyzer
    = (default_analyzer, Throw ERR_FREQUENCY_TOO_LOW) /\
  set_reflexRatio 1 default_analyzer
    = (default_analyzer, Throw ERR_REFLEX_OUT_OF_RANGE).
Proof.
  destruct (setters_reject_invalid default_analyzer) as (Hmode & Hfreq & Hrange & Hreflex).
  split; [exact (Hmode (Fin 9) (or_intror (or_intror eq_refl)))|].
  split; [exact (Hmode (Fin (19 # 2)) (or_intror (or_intror eq_refl)))|].
  split; [exact (Hmode (Fin 11) (or_intror (or_introl eq_refl)))|].
  split; [exact (proj1 (Hfreq (1 # 2) eq_refl))|].
  split; [exact (Hrange 20%Q 0%Q (or_intror eq_refl))|].
  refine (Hreflex 1%Q (or_intror _)). unfold Qle; simpl; lia.
Defined.

(** C6, the claim as worded fails for [set mode]: 10.5 lies outside
    [0, 10], yet [10.5 | 0] is 10 and the setter accepts it, moving the
    mode of a default object from 0 to 10. *)
Lemma set_mode_accepts_fraction :
  ~ (21 # 2 <= 10)%Q /\
  outcome (set_mode (Fin (21 # 2)) default_analyzer) = Return tt /\
  _mode (props (state_after (set_mode (Fin (21 # 2)) default_analyzer))) = 10 /\
  _mode (props default_analyzer) = 0.
Proof.
  split; [unfold Qle; simpl; lia|].
  split; [reflexivity|].
  split.
  - unfold set_mode. change (js_to_int32 (Fin (21 # 2))) with 10.
    cbv beta iota zeta. simpl andb. cbv iota.
    unfold modify, state_after. simpl fst.
    match goal with |- context [_calcBars ?x] =>
      pose proof (calcBars_fields x) as (_ & _ & Hp & _) end.
    rewrite Hp. reflexivity.
  - pose proof default_analyzer_fields as (_ & _ & Hp & _).
    rewrite Hp. reflexivity.
Qed.

End Setters.

(** ** registerGradient *)

Section Gradients.

Lemma store_gradient_lookup (name : string) (g : Gradient)
    (gs : gmap string Gradient) :
  name <> "__proto__" ->
  store_gradient name g gs !! name = Some g /\
  (forall other, other <> name -> store_gradient name g gs !! other = gs !! other).
Proof.
  intro Hn. unfold store_gradient.
  destruct (String.eqb_spec name "__proto__") as [E|E]; [contradiction|].
  split.
  - apply lookup_insert_eq.
  - intros other Ho. apply lookup_insert_ne. congruence.
Qed.

(** C5 (as amended).  [registerGradient( name, options )] throws
    [ERR_GRADIENT_INVALID_NAME] when [name] is not a string or is
    blank, whatever [options] is; for any other name it throws
    [ERR_GRADIENT_NOT_AN_OBJECT] when [options] is not an object, a
    [TypeError] when [options] is [null], and
    [ERR_GRADIENT_MISSING_COLOR] when [colorStops] is undefined or an
    array of fewer than two entries; each time the object is left
    untouched.  Otherwise ([colorStops] an array of two entries or
    more) it returns normally and the gradient is stored under [name]
    (for any name but ["__proto__"]), replacing whatever was registered
    under that name, built-in gradients included; the other entries and
    the rest of the object stay as they were.  No duplicate-name error
    exists. *)
Theorem registerGradient_law (a : Analyzer) (s : string) (o : GradientOptions)
    (options : js_options) :
  registerGradient NameOther options a
    = (a, Throw ERR_GRADIENT_INVALID_NAME) /\
  (is_blank s = true ->
     registerGradient (NameString s) options a
       = (a, Throw ERR_GRADIENT_INVALID_NAME)) /\
  (is_blank s = false ->
     registerGradient (NameString s) OptionsOther a
       = (a, Throw ERR_GRADIENT_NOT_AN_OBJECT) /\
     registerGradient (NameString s) OptionsNull a
       = (a, Throw TypeError) /\
     (o_colorStops o = None ->
        registerGradient (NameString s) (OptionsObject o) a
          = (a, Throw ERR_GRADIENT_MISSING_COLOR)) /\
     (forall stops, o_colorStops o = Some stops -> (length stops < 2)%nat ->
        registerGradient (NameString s) (OptionsObject o) a
          = (a, Throw ERR_GRADIENT_MISSING_COLOR)) /\
     (forall stops, o_colorStops o = Some stops -> (2 <= length stops)%nat ->
        s <> "__proto__" ->
        let r := registerGradient (NameString s) (OptionsObject o) a in
        outcome r = Return tt /\
        _gradients (state_after r) !! s = Some (new_gradient o stops) /\
        (forall other, other <> s ->
           _gradients (state_after r) !! other = _gradients a !! other) /\
        state_after r = with_gradients (_gradients (state_after r)) a)).
Proof.
  split; [reflexivity|].
  split; [intro Hb; unfold registerGradient; now rewrite Hb|].
  intro Hb. unfold registerGradient. rewrite Hb.
  split; [reflexivity|]. split; [reflexivity|].
  split; [intros ->; reflexivity|].
  split.
  - intros stops -> Hlen. apply Nat.ltb_lt in Hlen. now rewrite Hlen.
  - intros stops -> Hlen Hn. apply Nat.ltb_ge in Hlen. rewrite Hlen.
    cbv zeta. unfold modify, outcome, state_after. simpl fst. simpl snd.
    simpl _gradients.
    destruct (store_gradient_lookup s (new_gradient o stops) (_gradients a) Hn)
      as [H1 H2].
    split; [reflexivity|]. split; [exact H1|]. split; [exact H2|].
    reflexivity.
Qed.

Lemma registerGradient_law_witness :
  registerGradient (NameString "  ") (OptionsObject two_stops) default_analyzer
    = (default_analyzer, Throw ERR_GRADIENT_INVALID_NAME) /\
  registerGradient (NameString "classic") OptionsNull default_analyzer
    = (default_analyzer, Throw TypeError) /\
  outcome (registerGradient (NameString "classic") (OptionsObject two_stops)
                            default_analyzer)
    = Return tt /\
  _gradients (state_after (registerGradient (NameString "classic")
                                            (OptionsObject two_stops)
                                            default_analyzer)) !! "classic"
    = Some (mk_gradient "#111" None [Color "red"; Color "blue"]).
Proof.
  destruct (registerGradient_law default_analyzer "  " two_stops
              (OptionsObject two_stops)) as (_ & Hblank & _).
  destruct (registerGradient_law default_analyzer "classic" two_stops
              OptionsOther) as (_ & _ & Hrest).
  destruct (Hrest eq_refl) as (_ & Hnull & _ & _ & Hok).
  assert (Hn : "classic" <> "__proto__") by discriminate.
  assert (Hlen : (2 <= length [Color "red"; Color "blue"])%nat) by (simpl; lia).
  destruct (Hok [Color "red"; Color "blue"] eq_refl Hlen Hn) as (Ho & Hl & _).
  split; [exact (Hblank eq_refl)|]. split; [exact Hnull|].
  split; [exact Ho | exact Hl].
Defined.


(** C5, the claim as worded fails: "classic" is a gradient the
    constructor registered, no replace intent can even be expressed,
    and registering two colours under that name returns normally and
    replaces the built-in definition. *)
Lemma registerGradient_overwrites_builtin :
  is_Some (_gradients default_analyzer !! "classic") /\
  outcome (registerGradient (NameString "classic") (OptionsObject two_stops)
                            default_analyzer)
    = Return tt /\
  _gradients (state_after (registerGradient (NameString "classic")
                                            (OptionsObject two_stops)
                                            default_analyzer)) !! "classic"
    <> _gradients default_analyzer !! "classic".
Proof.
  pose proof default_analyzer_fields as (_ & _ & _ & _ & Hg).
  split; [rewrite Hg; vm_compute; eauto|].
  split; [reflexivity|].
  assert (Hr : _gradients (state_after (registerGradient (NameString "classic")
                                          (OptionsObject two_stops)
                                          default_analyzer))
               = store_gradient "classic"
                   (new_gradient two_stops [Color "red"; Color "blue"])
                   (_gradients default_analyzer)) by reflexivity.
  rewrite Hr, Hg. vm_compute. intro H. discriminate H.
Qed.

End Gradients.

(** ** getEnergy *)

Section GetEnergy.

(** [getEnergy] only reads. *)
Lemma getEnergy_state (startFreq : js_arg) (endFreq : option Q) (a : Analyzer) :
  state_after (getEnergy startFreq endFreq a) = a.
Proof.
  unfold getEnergy, ret, throw, state_after.
  destruct startFreq as [|q|s].
  - reflexivity.
  - destruct (negb _); reflexivity.
  - destruct (String.eqb s "peak"); [reflexivity|].
    destruct (presets s) as [[lo hi|]|]; reflexivity.
Qed.

(** A string that is not "peak" and that names neither a preset nor a
    member of [Object.prototype] gives [null]. *)
Lemma getEnergy_unknown (s : string) (endFreq : option Q) (a : Analyzer) :
  s <> "peak" -> presets s = None ->
  getEnergy (ArgString s) endFreq a = (a, Return EnergyNull).
Proof.
  intros Hp Hs. unfold getEnergy.
  destruct (String.eqb_spec s "peak") as [E|E]; [contradiction|].
  rewrite Hs. reflexivity.
Qed.

Lemma presets_None (s : string) :
  presets s = None <->
  ~ In s ["bass"; "lowMid"; "mid"; "highMid"; "treble"] /\
  ~ In s Object_prototype_names.
Proof.
  unfold presets.
  do 5 (match goal with
        | |- context [String.eqb s ?x] =>
            destruct (String.eqb_spec s x) as [->|?];
            [split; [intro H; discriminate H
                    | intros [H _]; exfalso; apply H; simpl; tauto]|]
        end).
  destruct (existsb (String.eqb s) Object_prototype_names) eqn:E.
  - split; [intro H; discriminate H|]. intros [_ H]. exfalso. apply H.
    apply existsb_exists in E as (x & Hx & Hxs).
    apply String.eqb_eq in Hxs. now subst.
  - split; [|reflexivity]. intros _. split.
    + simpl. intuition congruence.
    + intro Hin. assert (existsb (String.eqb s) Object_prototype_names = true).
      { apply existsb_exists. exists s. split; [exact Hin | apply String.eqb_refl]. }
      congruence.
Qed.

(** C10, at the failing input: "toString" is not "peak" and is none
    of the five presets, yet [presets[ 'toString' ]] is the function
    inherited from [Object.prototype], the [null] test is passed and
    the destructuring assignment throws a [TypeError]. *)
Theorem getEnergy_toString_throws :
  "toString" <> "peak" /\
  ~ In "toString" ["bass"; "lowMid"; "mid"; "highMid"; "treble"] /\
  getEnergy (ArgString "toString") None default_analyzer
    = (default_analyzer, Throw TypeError).
Proof.
  split; [discriminate|]. split.
  - simpl. intuition discriminate.
  - reflexivity.
Qed.

End GetEnergy.

(** ** The LED loop of [_calcLeds] *)

Section LedLoop.

Variables (analyzerHeight spaceVRatio minHeight : Q).

(** The loop never runs out of the fuel [compute_leds] gives it. *)
Lemma led_loop_enough (fuel : nat) :
  forall count : Q,
    (1 <= fuel)%nat -> (count - 1 <= inject_Z (Z.of_nat fuel))%Q ->
    exists res, led_loop fuel analyzerHeight spaceVRatio minHeight count = Some res.
Proof.
  induction fuel as [|fuel IH]; intros count Hf Hc; [lia|].
  cbn [led_loop].
  destruct (_ && Qlt_bool 1 (count - 1)) eqn:E; [|eauto].
  apply andb_prop in E as [_ E]. apply Qlt_bool_iff in E.
  rewrite Nat2Z.inj_succ, <- Z.add_1_r, inject_Z_plus in Hc.
  change (inject_Z 1) with 1%Q in Hc.
  apply IH.
  - destruct fuel; [|lia]. exfalso. change (inject_Z (Z.of_nat 0)) with 0%Q in Hc. qlra.
  - qlra.
Qed.

Lemma led_loop_total (maxLeds : Q) :
  exists res,
    led_loop (led_fuel maxLeds) analyzerHeight spaceVRatio minHeight (maxLeds + 1)
    = Some res.
Proof.
  apply led_loop_enough; [unfold led_fuel; lia|].
  unfold led_fuel. rewrite Nat2Z.inj_succ, <- Z.add_1_r, inject_Z_plus.
  change (inject_Z 1) with 1%Q.
  pose proof (Qle_ceiling maxLeds) as Hc.
  assert (Hz : (inject_Z (Qceiling maxLeds)
                <= inject_Z (Z.of_nat (Z.to_nat (Qceiling maxLeds))))%Q).
  { rewrite <- Zle_Qle. lia. }
  qlra.
Qed.

(** Started from a whole number [n >= 1] of LEDs, the loop stops on a
    whole count between 1 and [n], with the block height and spacing of
    that count, and there both reach [minHeight] unless the count is 1. *)
Lemma led_loop_whole (fuel : nat) :
  forall (n : Z) (count : Q),
    (count == inject_Z n + 1)%Q -> 1 <= n -> (Z.to_nat n <= fuel)%nat ->
    exists c bh sv,
      led_loop fuel analyzerHeight spaceVRatio minHeight count = Some (c, bh, sv) /\
      (exists m, 1 <= m <= n /\ (c == inject_Z m)%Q) /\
      bh = (analyzerHeight / c / (1 + spaceVRatio))%Q /\
      sv = (bh * spaceVRatio)%Q /\
      ((minHeight <= bh /\ minHeight <= sv)%Q \/ (c == 1)%Q).
Proof.
  induction fuel as [|fuel IH]; intros n count Hc Hn Hf; [lia|].
  cbn [led_loop].
  assert (Hc' : (count - 1 == inject_Z n)%Q) by (rewrite Hc; ring).
  destruct (_ && Qlt_bool 1 (count - 1)) eqn:E.
  - apply andb_prop in E as [_ E]. apply Qlt_bool_iff in E.
    assert (Hn1 : 1 < n).
    { rewrite Hc' in E. change 1%Q with (inject_Z 1) in E.
      now rewrite <- Zlt_Qlt in E. }
    destruct (IH (n - 1) (count - 1)%Q) as (c & bh & sv & Hl & (m & Hm & Hcm) & Hrest).
    + rewrite Hc', <- inject_Z_succ. replace (n - 1 + 1) with n by lia. reflexivity.
    + lia.
    + lia.
    + exists c, bh, sv. split; [exact Hl|]. split; [|exact Hrest].
      exists m. split; [lia | exact Hcm].
  - do 3 eexists. split; [reflexivity|].
    split; [exists n; split; [lia | exact Hc']|].
    split; [reflexivity|]. split; [reflexivity|].
    apply andb_false_iff in E as [E|E].
    + left. apply orb_false_iff in E as [E1 E2].
      apply Qlt_bool_false in E1. apply Qlt_bool_false in E2. split; assumption.
    + right. apply Qlt_bool_false in E. rewrite Hc' in E |- *.
      change 1%Q with (inject_Z 1) in E |- *. rewrite <- Zle_Qle in E.
      rewrite inject_Z_injective. lia.
Qed.

End LedLoop.


(** What [_calcLeds] computes from a stored override with a whole
    [maxLeds >= 1], a positive spacing ratio and a non-negative height:
    a whole LED count between 1 and [maxLeds] and finite attributes, the
    LED height and the vertical spacing both at least [2 * dPR] unless
    the count is 1.  This is the guarantee of the override path; no call
    of [setLedParams] reaches it (see [setLedParams_keeps_nothing]). *)
Lemma custom_leds_invariant (n : Z) (spaceVRatio spaceHRatio dPR : Q)
    (mode analyzerHeight : Z) (maximizeLeds : bool) (barWidth : jsnum) :
  1 <= n -> (0 < spaceVRatio)%Q -> 0 <= analyzerHeight ->
  exists l lh,
    compute_leds (Some (inject_Z n, spaceVRatio, spaceHRatio)) mode dPR
                 analyzerHeight maximizeLeds barWidth = Some l /\
    (exists m, 1 <= m <= n /\ (ledCount l == inject_Z m)%Q) /\
    ledHeight l = Fin lh /\
    ((2 * dPR <= lh /\ 2 * dPR <= ledSpaceV l)%Q \/ (ledCount l == 1)%Q).
Proof.
  intros Hn Hr Hh. unfold compute_leds.
  destruct (led_loop_whole (inject_Z analyzerHeight) spaceVRatio (2 * dPR)
              (led_fuel (inject_Z n)) n (inject_Z n + 1)%Q)
    as (c & bh & sv & Hl & (m & Hm & Hcm) & Hbh & Hsv & Hex).
  - reflexivity.
  - exact Hn.
  - unfold led_fuel. rewrite Qceiling_Z. lia.
  - rewrite Hl.
    assert (Hc0 : (0 < c)%Q).
    { rewrite Hcm. change 0%Q with (inject_Z 0). rewrite <- Zlt_Qlt. lia. }
    assert (Hc1 : (1 <= c)%Q).
    { rewrite Hcm. change 1%Q with (inject_Z 1). rewrite <- Zle_Qle. lia. }
    assert (HH : (0 <= inject_Z analyzerHeight)%Q).
    { change 0%Q with (inject_Z 0). rewrite <- Zle_Qle. lia. }
    assert (Hbh0 : (0 <= bh)%Q).
    { rewrite Hbh. apply Qle_shift_div_l; [qlra|].
      rewrite Qmult_0_l. apply Qle_shift_div_l; [exact Hc0|]. qlra. }
    assert (Hsv0 : (0 <= sv)%Q).
    { rewrite Hsv. apply Qmult_le_0_compat; [exact Hbh0 | qlra]. }
    assert (Hdiv : (inject_Z analyzerHeight / c == bh + sv)%Q).
    { rewrite Hsv, Hbh. field. split; qlra. }
    assert (Hne : Qeq_bool c 0 = false).
    { destruct (Qeq_bool c 0) eqn:E; [|reflexivity].
    apply Qeq_bool_iff in E. qlra. }
    set (height := if maximizeLeds then (inject_Z analyzerHeight + sv)%Q
                   else inject_Z analyzerHeight).
    exists (mk_leds c (if Qle_bool 1 spaceHRatio then Fin spaceHRatio
                       else js_scale barWidth spaceHRatio)
                    sv (js_minus (js_div height c) sv)).
    exists (height / c - sv)%Q.
    split; [reflexivity|]. split; [exists m; split; [lia | exact Hcm]|].
    split; [unfold js_div; rewrite Hne; reflexivity|].
    simpl ledSpaceV. simpl ledCount.
    destruct Hex as [[H1 H2]|H1]; [left | right; exact H1].
    split; [|exact H2].
    assert (Hge : (bh <= height / c - sv)%Q).
    { subst height. destruct maximizeLeds.
      - assert (Hq : ((inject_Z analyzerHeight + sv) / c - sv == bh + sv / c)%Q).
        { rewrite Hsv, Hbh. field. split; qlra. }
        rewrite Hq.
        assert (0 <= sv / c)%Q by (apply Qle_shift_div_l; [exact Hc0 | qlra]).
        qlra.
      - rewrite Hdiv. qlra. }
    qlra.
Qed.

(** ** setLedParams and the LED attributes *)

Section Leds.

(** Whatever is passed, no override is kept. *)
Lemma setLedParams_keeps_nothing (params : option LedParams) (a : Analyzer) :
  outcome (setLedParams params a) = Return tt /\
  _ledParams (props (state_after (setLedParams params a))) = None.
Proof.
  unfold setLedParams, modify, outcome, state_after. simpl fst. simpl snd.
  split; [reflexivity|].
  match goal with |- context [_calcLeds ?x] =>
    pose proof (calcLeds_fields x) as (_ & _ & Hp & _) end.
  rewrite Hp. reflexivity.
Qed.

Lemma calcBars_ready_aux (a : Analyzer) :
  _ready a = true ->
  aux (_calcBars a) = aux_of (env a) (props a) (_barWidth (_calcBars a)).
Proof.
  intro Hr. unfold _calcBars. simpl _ready. rewrite Hr. simpl negb. cbv iota.
  match goal with |- context [_calcAux ?x] => set (a1 := x) end.
  assert (H1 : env a1 = env a /\ props a1 = props a).
  { subst a1. destruct (negb (_isOctaveBands (aux a))).
    - destruct (layout_discrete (with_bars [] a)); split; reflexivity.
    - destruct (layout_octave (with_bars [] a)) as [[w bars]|]; split; reflexivity. }
  destruct H1 as [He Hp].
  pose proof (calcLeds_fields (_calcAux a1)) as (_ & _ & _ & Ha & Hw & _).
  rewrite Ha, Hw. unfold _calcAux. simpl. now rewrite He, Hp.
Qed.


Lemma octave_analyzer_aux :
  aux octave_analyzer
  = aux_of default_env octave_props (_barWidth octave_analyzer).
Proof.
  unfold octave_analyzer, new_analyzer.
  match goal with |- context [_calcBars ?x] =>
    pose proof (calcBars_ready_aux x eq_refl) as H end.
  rewrite H. reflexivity.
Qed.

(** C3, at the failing input.  On a 270 pixel high analyzer in mode 1
    the override [{ maxLeds: 10, spaceV: 1, spaceH: 0.5 }] is valid, and
    the loop of [_calcLeds] started from it stops at once with 10 LEDs
    of 13.5 pixels; but [setLedParams] stores no override, and the LED
    count that results is the 68 of the built-in row of mode 1. *)
Theorem setLedParams_override_dropped :
  (0 < params_maxLeds ten_leds)%Q /\ (0 < params_spaceV ten_leds)%Q /\
  (0 <= params_spaceH ten_leds)%Q /\
  led_loop (led_fuel 10) 270 1 2 11 = Some (10, 270 # 20, 270 # 20)%Q /\
  _ledParams (props (state_after (setLedParams (Some ten_leds) octave_analyzer)))
    = None /\
  ledCount <$> _leds (state_after (setLedParams (Some ten_leds) octave_analyzer))
    = Some 68%Q.
Proof.
  split; [reflexivity|]. split; [reflexivity|].
  split; [unfold Qle; simpl; lia|].
  split; [vm_compute; reflexivity|].
  split; [apply setLedParams_keeps_nothing|].
  unfold setLedParams, modify, state_after. simpl fst.
  assert (Hf : env octave_analyzer = default_env /\ _ready octave_analyzer = true /\
               props octave_analyzer = octave_props).
  { pose proof (new_analyzer_fields default_env octave_props) as (He & Hr & Hp & _).
    split; [exact He|]. split; [exact Hr | exact Hp]. }
  destruct Hf as (He & Hr & Hp).
  unfold _calcLeds. simpl aux. simpl _ready. simpl env. simpl props. simpl _barWidth.
  rewrite octave_analyzer_aux, Hr, He, Hp.
  generalize (_barWidth octave_analyzer). intro w.
  vm_compute. reflexivity.
Qed.

End Leds.

(** ** BarLayoutBuilder, discrete modes *)

Section DiscreteLayout.

Lemma js_gt_trans (a b c : jsnum) :
  js_gt a b = true -> js_gt b c = true -> js_gt a c = true.
Proof.
  destruct a as [| |x|], b as [| |y|], c as [| |z|]; simpl; try congruence.
  rewrite !Qlt_bool_iff. intros. qlra.
Qed.

Lemma StronglySorted_snoc {A} (R : A -> A -> Prop) (l : list A) (x : A) :
  StronglySorted R l -> Forall (fun y => R y x) l ->
  StronglySorted R (l ++ [x]).
Proof.
  induction 1 as [|y l Hs IH Hy]; intro Hx; simpl.
  - repeat constructor.
  - inversion Hx; subst. constructor.
    + apply IH. assumption.
    + apply Forall_app. split; [assumption|]. repeat constructor. assumption.
Qed.

Lemma map_alter_keep {A B} (f : A -> B) (g : A -> A) (l : list A) (k : nat) :
  (forall x, f (g x) = f x) -> map f (alter g k l) = map f l.
Proof.
  intro H. revert k. induction l as [|x l IH]; intros [|k]; simpl; try reflexivity.
  - now rewrite H.
  - f_equal. apply IH.
Qed.

Lemma Forall_alter_impl {A} (P Q : A -> Prop) (g : A -> A) (l : list A) (k : nat) :
  Forall P l -> (forall x, P x -> Q x) -> (forall x, P x -> Q (g x)) ->
  Forall Q (alter g k l).
Proof.
  intros Hl HPQ Hg. revert k.
  induction Hl as [|x l Hx Hl IH]; intros [|k]; simpl; try constructor; auto.
  - eapply List.Forall_impl; [exact HPQ | exact Hl].
  - apply IH.
Qed.

Variable posOf : Z -> jsnum.

Lemma discrete_step_inv (lo m : Z) (st : list Bar.t * jsnum) :
  lo <= m ->
  discrete_inv posOf lo m st ->
  discrete_inv posOf lo (m + 1) (discrete_step posOf st m).
Proof.
  intros Hlo (Hpos & Hidx & Hall). destruct st as [bars lastPos].
  simpl in Hpos, Hidx, Hall. unfold discrete_step.
  destruct (js_gt (posOf m) lastPos) eqn:Egt.
  - (* a new column: one more bar *)
    unfold discrete_inv; simpl fst; simpl snd.
    rewrite !map_app. simpl map.
    split; [|split].
    + apply StronglySorted_snoc; [assumption|].
      apply Forall_map. eapply List.Forall_impl; [|exact Hall].
      intros b (_ & _ & _ & Hb). apply Hb. exact Egt.
    + apply StronglySorted_snoc; [assumption|].
      apply Forall_map. eapply List.Forall_impl; [|exact Hall].
      intros b (Hb & _). simpl. lia.
    + apply Forall_app. split.
      * eapply List.Forall_impl; [|exact Hall].
        intros b (Hb & Hp & He & Hgt).
        split; [lia|]. split; [assumption|]. split; [lia|].
        intros p Hp'. apply Hgt. eapply js_gt_trans; eassumption.
      * repeat constructor; simpl; try lia. tauto.
  - destruct (negb (length bars =? 0)%nat) eqn:Elen.
    + (* same column: the last bar grows *)
      unfold discrete_inv; simpl fst; simpl snd.
      rewrite !map_alter_keep by reflexivity.
      split; [assumption|]. split; [assumption|].
      eapply Forall_alter_impl; [exact Hall| |].
      * intros b (Hb & Hp & He & Hgt). repeat split; try lia; assumption.
      * intros b (Hb & Hp & He & Hgt). simpl.
        repeat split; try lia; assumption.
    + unfold discrete_inv; simpl fst; simpl snd.
      split; [assumption|]. split; [assumption|].
      eapply List.Forall_impl; [|exact Hall].
      intros b (Hb & Hp & He & Hgt). repeat split; try lia; assumption.
Qed.

Lemma discrete_fold_inv (lo : Z) (n : nat) :
  discrete_inv posOf lo (lo + Z.of_nat n)
    (fold_left (discrete_step posOf) (seqZ lo (Z.of_nat n)) ([], Fin (-999))).
Proof.
  induction n as [|n IH].
  - simpl. unfold discrete_inv; simpl. repeat constructor.
  - rewrite seqZ_S, fold_left_app. simpl fold_left.
    replace (lo + Z.of_nat (S n)) with (lo + Z.of_nat n + 1) by lia.
    apply discrete_step_inv; [lia | exact IH].
Qed.

(** The bars of the discrete layout, for any column function: columns
    and first bins both strictly increase, every bar stands on the
    column of its first bin, and its range of bins stays within
    [minIndex .. maxIndex]. *)
Lemma discrete_bars_ordered (minIndex maxIndex : Z) :
  StronglySorted js_lt (map Bar.posX (discrete_bars posOf minIndex maxIndex)) /\
  StronglySorted Z.lt (map Bar.dataIdx (discrete_bars posOf minIndex maxIndex)) /\
  Forall (fun b =>
            minIndex <= Bar.dataIdx b <= maxIndex /\
            Bar.posX b = posOf (Bar.dataIdx b) /\
            (Bar.endIdx b = 0 \/ Bar.dataIdx b < Bar.endIdx b <= maxIndex))
         (discrete_bars posOf minIndex maxIndex).
Proof.
  unfold discrete_bars.
  destruct (Z.le_gt_cases (maxIndex - minIndex + 1) 0) as [Hle|Hgt].
  - rewrite seqZ_nil by assumption. simpl. repeat constructor.
  - pose proof (discrete_fold_inv minIndex (Z.to_nat (maxIndex - minIndex + 1)))
      as (Hpos & Hidx & Hall).
    rewrite Z2Nat.id in Hpos, Hidx, Hall by lia.
    split; [assumption|]. split; [assumption|].
    eapply List.Forall_impl; [|exact Hall].
    intros b (Hb & Hp & He & _). repeat split; try lia; assumption.
Qed.

End DiscreteLayout.

Example discrete_bars_merge :
  map (fun b => (Bar.posX b, Bar.dataIdx b, Bar.endIdx b))
      (discrete_bars (fun i => Fin (inject_Z (i / 3))) 2 9)
  = [(Fin 0, 2, 0); (Fin 1, 3, 5); (Fin 2, 6, 8); (Fin 3, 9, 0)].
Proof. reflexivity. Qed.

(** ** Every column gets its bar *)

Section DiscreteCover.

Lemma js_gt_irrefl (a : jsnum) : js_gt a a = false.
Proof.
  destruct a as [| |x|]; simpl; try reflexivity.
  apply Qlt_bool_false. qlra.
Qed.

Variable posOf : Z -> jsnum.
Variable lo : Z.

(** The columns do not decrease with the bin. *)
Hypothesis posOf_mono :
  forall i j, lo <= i -> i <= j -> js_gt (posOf i) (posOf j) = false.

Lemma discrete_step_cover (m : Z) (st : list Bar.t * jsnum) :
  lo <= m ->
  discrete_inv posOf lo m st ->
  discrete_cover posOf lo m st ->
  discrete_cover posOf lo (m + 1) (discrete_step posOf st m).
Proof.
  intros Hlo (_ & _ & Hall) (Hlast & Hcov). destruct st as [bars lastPos].
  simpl in Hall, Hlast, Hcov. unfold discrete_step.
  destruct (js_gt (posOf m) lastPos) eqn:Egt.
  - (* a new bar, which covers bin [m] *)
    split; simpl fst; simpl snd.
    + right. exists bars, (Bar.new (posOf m) m 0). split; reflexivity.
    + intros j Hj Hpos. destruct (Z.eq_dec j m) as [->|Hne].
      * exists (Bar.new (posOf m) m 0). split; [apply in_or_app; right; now left|].
        split; [split; simpl; [lia | now left]|].
        split; simpl; apply js_gt_irrefl.
      * destruct (Hcov j ltac:(lia) Hpos) as (b & Hb & Hc & Hs).
        exists b. split; [apply in_or_app; now left|]. split; assumption.
  - destruct Hlast as [[Hnil Hlp]|(init & b & Hbars & Hlp)].
    + (* no bar yet, and bin [m] is not right of -999 *)
      subst bars lastPos. simpl. split; [now left|].
      intros j Hj Hpos. destruct (Z.eq_dec j m) as [->|Hne]; [congruence|].
      apply Hcov; [lia | assumption].
    + (* the last bar grows to bin [m] *)
      subst bars lastPos.
      assert (Hlen : negb (length (init ++ [b]) =? 0)%nat = true).
      { rewrite length_app. simpl. destruct (length init + 1)%nat eqn:E; [lia|reflexivity]. }
      rewrite Hlen.
      assert (Halt : alter (Bar.set_endIdx m) (length (init ++ [b]) - 1)%nat (init ++ [b])
                     = init ++ [Bar.set_endIdx m b]).
      { rewrite length_app. simpl length.
        replace (length init + 1 - 1)%nat with (length init + 0)%nat by lia.
        now rewrite alter_app_r. }
      rewrite Halt.
      apply Forall_app in Hall as [_ Hb]. inversion Hb as [|? ? (Hidx & Hp & _) _]; subst.
      split; simpl fst; simpl snd.
      * right. exists init, (Bar.set_endIdx m b). split; reflexivity.
      * intros j Hj Hpos. destruct (Z.eq_dec j m) as [->|Hne].
        -- exists (Bar.set_endIdx m b).
           split; [apply in_or_app; right; now left|].
           split; [split; simpl; [lia | right; lia]|].
           split; simpl; [exact Egt|].
           rewrite Hp. apply posOf_mono; lia.
        -- destruct (Hcov j ltac:(lia) Hpos) as (b' & Hb' & (Hc1 & Hc2) & Hs).
           apply in_app_or in Hb' as [Hin|[<-|[]]].
           ++ exists b'. split; [apply in_or_app; now left|].
              split; [split; assumption | assumption].
           ++ exists (Bar.set_endIdx m b).
              split; [apply in_or_app; right; now left|].
              split; [split; simpl; [assumption | right; lia] | exact Hs].
Qed.

Lemma discrete_fold_cover (n : nat) :
  discrete_inv posOf lo (lo + Z.of_nat n)
    (fold_left (discrete_step posOf) (seqZ lo (Z.of_nat n)) ([], Fin (-999))) /\
  discrete_cover posOf lo (lo + Z.of_nat n)
    (fold_left (discrete_step posOf) (seqZ lo (Z.of_nat n)) ([], Fin (-999))).
Proof.
  induction n as [|n [IHi IHc]].
  - split; [apply (discrete_fold_inv posOf lo 0)|].
    simpl. split; [now left|]. intros j Hj. lia.
  - split; [apply (discrete_fold_inv posOf lo (S n))|].
    rewrite seqZ_S, fold_left_app. cbn [fold_left].
    replace (lo + Z.of_nat (S n)) with (lo + Z.of_nat n + 1) by lia.
    apply discrete_step_cover; [lia | exact IHi | exact IHc].
Qed.

(** Every bin between [lo] and [maxIndex] whose column is right of
    -999 lies in the range of a bar standing on that column. *)
Lemma discrete_bars_cover (maxIndex j : Z) :
  lo <= j <= maxIndex ->
  js_gt (posOf j) (Fin (-999)) = true ->
  exists b, In b (discrete_bars posOf lo maxIndex) /\ covers b j /\
            js_same (posOf j) (Bar.posX b).
Proof.
  intros Hj Hpos. unfold discrete_bars.
  destruct (discrete_fold_cover (Z.to_nat (maxIndex - lo + 1))) as [_ [_ Hcov]].
  rewrite Z2Nat.id in Hcov by lia.
  apply Hcov; [lia | exact Hpos].
Qed.

End DiscreteCover.

Section DiscreteOnAnalyzer.

(** In a discrete mode the bars of a ready object are those of
    [discrete_bars] on the logarithmic columns of its range. *)
Lemma calcBars_discrete (a : Analyzer) :
  _ready a = true -> _isOctaveBands (aux a) = false ->
  _bars (_calcBars a)
  = discrete_bars
      (fun i => logPos (canvas_width (env a)) (_minFreq (props a))
                       (_maxFreq (props a))
                       (binToFreq (fftSize (env a)) (sampleRate (env a)) i))
      (_freqToBin a (_minFreq (props a)) floor)
      (_freqToBin a (_maxFreq (props a)) round).
Proof.
  intros Hr Ho. unfold _calcBars. simpl _ready. rewrite Hr. simpl negb. cbv iota.
  simpl aux. rewrite Ho. simpl negb. cbv iota.
  match goal with |- context [_calcLeds ?x] =>
    pose proof (calcLeds_fields x) as (_ & _ & _ & _ & _ & Hb & _) end.
  rewrite Hb. reflexivity.
Qed.

Lemma StronglySorted_lt_le (l : list Z) :
  StronglySorted Z.lt l -> StronglySorted Z.le l.
Proof.
  induction 1 as [|x l Hs IH Hx]; constructor; [assumption|].
  eapply List.Forall_impl; [|exact Hx]. intros y Hy. simpl in Hy. lia.
Qed.

End DiscreteOnAnalyzer.

(** ** The logarithmic columns and the first bar of the scenario *)

Section LogPos.

Lemma Rsign_pos (r : R) : (0 < r)%R -> Rsign r = Gt.
Proof.
  intro H. unfold Rsign.
  destruct (total_order_T r 0) as [[Hlt|Heq]|Hgt]; [rlra | rlra | reflexivity].
Qed.

Lemma ln10_pos : (0 < ln 10)%R.
Proof. rewrite <- ln_1. apply ln_increasing; rlra. Qed.

Lemma Rlog10_increasing (x y : R) :
  (0 < x)%R -> (x < y)%R -> (Rlog 10 x < Rlog 10 y)%R.
Proof.
  intros Hx Hxy. unfold Rlog.
  apply Rmult_lt_compat_r.
  - apply Rinv_0_lt_compat, ln10_pos.
  - now apply ln_increasing.
Qed.

(** With [0 < minFreq < maxFreq] and a bin above 0 the column is a
    finite integer. *)
Lemma logPos_finite (width : Z) (minFreq maxFreq freq : Q) :
  (0 < minFreq)%Q -> (minFreq < maxFreq)%Q -> (0 < freq)%Q ->
  logPos width minFreq maxFreq freq
  = Fin (inject_Z (Rround (IZR width
                           / (Rlog 10 (Q2R maxFreq) - Rlog 10 (Q2R minFreq))
                           * (Rlog 10 (Q2R freq) - Rlog 10 (Q2R minFreq))))).
Proof.
  intros Hmin Hlt Hf.
  assert (Hmin' : (0 < Q2R minFreq)%R).
  { replace 0%R with (Q2R 0) by (unfold Q2R; simpl; rlra). now apply Qlt_Rlt. }
  assert (Hlt' : (Q2R minFreq < Q2R maxFreq)%R) by now apply Qlt_Rlt.
  assert (Hf' : (0 < Q2R freq)%R).
  { replace 0%R with (Q2R 0) by (unfold Q2R; simpl; rlra). now apply Qlt_Rlt. }
  unfold logPos, xlog10.
  rewrite !Rsign_pos by rlra. simpl xsub. unfold xdiv.
  rewrite Rsign_pos.
  - reflexivity.
  - pose proof (Rlog10_increasing _ _ Hmin' Hlt'). rlra.
Qed.

Lemma Rround_lower (r : R) (z : Z) :
  (IZR z - / 2 <= r)%R -> z <= Rround r.
Proof.
  intro H. unfold Rround.
  destruct (base_Int_part (r + / 2)) as [_ Hb].
  assert (Hlt : (IZR (z - 1) < IZR (Int_part (r + / 2)))%R).
  { rewrite minus_IZR. rlra. }
  apply lt_IZR in Hlt. lia.
Qed.

(** Bin 3 (16.15 Hz) lies left of 20 Hz, but by less than half the
    log-width of the range: its column is at least -500. *)
Lemma scenario_first_column :
  js_gt (logPos 1000 20 22000 (binToFreq 8192 44100 3)) (Fin (-999)) = true.
Proof.
  rewrite logPos_finite by reflexivity.
  simpl js_gt. apply Qlt_bool_iff.
  change (-999)%Q with (inject_Z (-999)). rewrite <- Zlt_Qlt.
  apply Z.lt_le_trans with (-500); [lia|].
  apply Rround_lower.
  set (f := Q2R (binToFreq 8192 44100 3)).
  assert (Hfv : f = (132300 / 8192)%R).
  { subst f.
    replace (binToFreq 8192 44100 3) with (132300 # 8192)%Q by reflexivity.
    reflexivity. }
  assert (Hf : (0 < f)%R) by (rewrite Hfv; rlra).
  replace (Q2R 22000) with 22000%R by (unfold Q2R; simpl; field).
  replace (Q2R 20) with 20%R by (unfold Q2R; simpl; field).
  unfold Rlog.
  pose proof ln10_pos as H10.
  assert (Hd : (ln 20 < ln 22000)%R) by (apply ln_increasing; rlra).
  assert (Hn : (3 * ln 20 < 2 * ln f + ln 22000)%R).
  { replace (3 * ln 20)%R with (ln (20 * 20 * 20)).
    - replace (2 * ln f + ln 22000)%R with (ln (f * f * 22000)).
      + apply ln_increasing; [rlra|]. rewrite Hfv. rlra.
      + rewrite !ln_mult; try rlra. apply Rmult_lt_0_compat; assumption.
    - rewrite !ln_mult; rlra. }
  replace (1000 / (ln 22000 / ln 10 - ln 20 / ln 10)
           * (ln f / ln 10 - ln 20 / ln 10))%R
    with (1000 * ((ln f - ln 20) / (ln 22000 - ln 20)))%R by (field; rlra).
  assert (Hq : (- / 2 <= (ln f - ln 20) / (ln 22000 - ln 20))%R).
  { apply Rmult_le_reg_r with (ln 22000 - ln 20)%R; [rlra|].
    unfold Rdiv. rewrite Rmult_assoc, Rinv_l by rlra. rlra. }
  rlra.
Qed.

End LogPos.

Section LogPosMonotone.

Lemma Rsign_zero : Rsign 0 = Eq.
Proof.
  unfold Rsign.
  destruct (total_order_T 0 0) as [[H|H]|H]; [rlra | reflexivity | rlra].
Qed.

Lemma Rround_mono (x y : R) : (x <= y)%R -> Rround x <= Rround y.
Proof.
  intro H. unfold Rround.
  destruct (base_Int_part (x + / 2)) as [Hx _].
  destruct (base_Int_part (y + / 2)) as [_ Hy].
  assert (Hlt : (IZR (Int_part (x + / 2)) < IZR (Int_part (y + / 2) + 1))%R).
  { rewrite plus_IZR. rlra. }
  apply lt_IZR in Hlt. lia.
Qed.

Lemma Q2R_0 : Q2R 0 = 0%R.
Proof. unfold Q2R. simpl. rlra. Qed.

(** With [0 < minFreq < maxFreq] on a canvas of non-negative width, a
    higher frequency never gets a smaller column. *)
Lemma logPos_mono (width : Z) (minFreq maxFreq f1 f2 : Q) :
  (0 < minFreq)%Q -> (minFreq < maxFreq)%Q -> 0 <= width ->
  (0 <= f1)%Q -> (f1 <= f2)%Q ->
  js_gt (logPos width minFreq maxFreq f1) (logPos width minFreq maxFreq f2) = false.
Proof.
  intros Hmin Hlt Hw H1 H12.
  assert (Hmin' : (0 < Q2R minFreq)%R) by (rewrite <- Q2R_0; now apply Qlt_Rlt).
  assert (Hlt' : (Q2R minFreq < Q2R maxFreq)%R) by now apply Qlt_Rlt.
  pose proof (Rlog10_increasing _ _ Hmin' Hlt') as Hd.
  assert (Hw' : (0 <= IZR width)%R) by now apply IZR_le.
  destruct (Qlt_le_dec 0 f1) as [Hpos|Hzero].
  - (* both columns are finite integers *)
    rewrite !logPos_finite by (try assumption; qlra).
    simpl js_gt. apply Qlt_bool_false. rewrite <- Zle_Qle.
    apply Rround_mono.
    assert (Hf1 : (0 < Q2R f1)%R) by (rewrite <- Q2R_0; now apply Qlt_Rlt).
    assert (Hf12 : (Q2R f1 <= Q2R f2)%R) by now apply Qle_Rle.
    assert (Hl : (Rlog 10 (Q2R f1) <= Rlog 10 (Q2R f2))%R).
    { destruct Hf12 as [Hs|He]; [left; now apply Rlog10_increasing | rewrite He; rlra]. }
    apply Rmult_le_compat_l; [|rlra].
    apply Rmult_le_pos; [assumption|]. left. apply Rinv_0_lt_compat. rlra.
  - (* frequency 0: the column is -Infinity, or NaN on an empty canvas *)
    assert (Hf1 : Q2R f1 = 0%R).
    { rewrite <- Q2R_0. apply Qeq_eqR. qlra. }
    unfold logPos at 1, xlog10. rewrite Hf1, Rsign_zero.
    rewrite !Rsign_pos by rlra. simpl xsub. unfold xdiv.
    rewrite Rsign_pos by rlra. simpl xmul.
    destruct (Rsign (IZR width / _)) eqn:E; simpl;
    try (destruct (logPos width minFreq maxFreq f2); reflexivity).
    exfalso. unfold Rsign in E.
    destruct (total_order_T _ 0) as [[Hneg|?]|?]; try discriminate.
    assert (0 <= IZR width / (Rlog 10 (Q2R maxFreq) - Rlog 10 (Q2R minFreq)))%R.
    { apply Rmult_le_pos; [assumption|]. left. apply Rinv_0_lt_compat. rlra. }
    rlra.
Qed.

Lemma binToFreq_mono (fftSize : Z) (sampleRate : Q) (i j : Z) :
  0 < fftSize -> (0 < sampleRate)%Q -> i <= j ->
  (binToFreq fftSize sampleRate i <= binToFreq fftSize sampleRate j)%Q.
Proof.
  intros Hf Hs Hij. unfold binToFreq.
  assert (Hf' : (0 < inject_Z fftSize)%Q).
  { change 0%Q with (inject_Z 0). now rewrite <- Zlt_Qlt. }
  apply Qle_shift_div_l; [assumption|].
  unfold Qdiv. rewrite <- Qmult_assoc, (Qmult_comm (/ _)), Qmult_inv_r by qlra.
  rewrite Qmult_1_r. apply Qmult_le_compat_r; [|qlra].
  now rewrite <- Zle_Qle.
Qed.

Lemma binToFreq_nonneg (fftSize : Z) (sampleRate : Q) (i : Z) :
  0 < fftSize -> (0 < sampleRate)%Q -> 0 <= i ->
  (0 <= binToFreq fftSize sampleRate i)%Q.
Proof.
  intros Hf Hs Hi.
  assert (H0 : (binToFreq fftSize sampleRate 0 == 0)%Q).
  { unfold binToFreq. change (inject_Z 0) with 0%Q.
    unfold Qdiv. rewrite !Qmult_0_l. reflexivity. }
  rewrite <- H0. now apply binToFreq_mono.
Qed.

(** The bin found for a positive frequency is not negative. *)
Lemma freqToBin_nonneg (fftSize : Z) (sampleRate freq : Q) (mode : rounding) :
  2 <= fftSize -> (0 < sampleRate)%Q -> (0 <= freq)%Q ->
  0 <= freqToBin fftSize sampleRate freq mode.
Proof.
  intros Hf Hs Hq. unfold freqToBin.
  assert (Hmax : 0 <= fftSize / 2 - 1).
  { assert (1 <= fftSize / 2) by (apply Z.div_le_lower_bound; lia). lia. }
  assert (Hx : (0 <= freq * inject_Z fftSize / sampleRate)%Q).
  { apply Qle_shift_div_l; [assumption|]. rewrite Qmult_0_l.
    apply Qmult_le_0_compat; [assumption|].
    change 0%Q with (inject_Z 0). rewrite <- Zle_Qle. lia. }
  set (x := (freq * inject_Z fftSize / sampleRate)%Q) in *.
  assert (Hbin : 0 <= match mode with round => Math_round x | floor => Math_floor x end).
  { destruct mode; unfold Math_round, Math_floor.
    - change 0 with (Qfloor 0). apply Qfloor_resp_le. qlra.
    - change 0 with (Qfloor 0). apply Qfloor_resp_le. exact Hx. }
  destruct (_ <? _); lia.
Qed.

End LogPosMonotone.

(** ** The discrete layout of the object *)

Section DiscreteClaim.

(** C4.  In a discrete mode (the stored [_isOctaveBands] is false) and
    for a range with [0 < minFreq < maxFreq], on a canvas of
    non-negative width with a positive sample rate and an FFT of at
    least 2 points, the bar list rebuilt by [_calcBars] has strictly
    increasing columns [posX] and strictly increasing, hence
    non-decreasing, first bins [dataIdx].  Every bar stands on the column
    of its first bin and its bins lie between the floor-rounded bin of
    [minFreq] and the rounded bin of [maxFreq]; and every bin of that
    interval whose column is right of the initial -999 lies in the range
    of a bar standing on that same column: each such column has exactly
    one bar. *)
Theorem calcBars_discrete_ordered (a : Analyzer) :
  _ready a = true -> _isOctaveBands (aux a) = false ->
  (0 < _minFreq (props a))%Q -> (_minFreq (props a) < _maxFreq (props a))%Q ->
  0 <= canvas_width (env a) -> (0 < sampleRate (env a))%Q -> 2 <= fftSize (env a) ->
  let column := fun i =>
    logPos (canvas_width (env a)) (_minFreq (props a)) (_maxFreq (props a))
           (binToFreq (fftSize (env a)) (sampleRate (env a)) i) in
  let minIndex := _freqToBin a (_minFreq (props a)) floor in
  let maxIndex := _freqToBin a (_maxFreq (props a)) round in
  StronglySorted js_lt (map Bar.posX (_bars (_calcBars a))) /\
  StronglySorted Z.lt (map Bar.dataIdx (_bars (_calcBars a))) /\
  StronglySorted Z.le (map Bar.dataIdx (_bars (_calcBars a))) /\
  Forall (fun b =>
            Bar.posX b = column (Bar.dataIdx b) /\
            minIndex <= Bar.dataIdx b <= maxIndex /\
            (Bar.endIdx b = 0 \/ Bar.dataIdx b < Bar.endIdx b <= maxIndex))
         (_bars (_calcBars a)) /\
  (forall j, minIndex <= j <= maxIndex ->
     js_gt (column j) (Fin (-999)) = true ->
     exists b, In b (_bars (_calcBars a)) /\ covers b j /\
               js_same (column j) (Bar.posX b)).
Proof.
  intros Hr Ho Hmin Hlt Hw Hs Hf column minIndex maxIndex.
  rewrite (calcBars_discrete a Hr Ho). fold column minIndex maxIndex.
  pose proof (discrete_bars_ordered column minIndex maxIndex) as (Hpos & Hidx & Hall).
  split; [exact Hpos|]. split; [exact Hidx|].
  split; [apply StronglySorted_lt_le; exact Hidx|].
  split.
  - eapply List.Forall_impl; [|exact Hall].
    intros b (Hb & Hp & He). split; [exact Hp|]. split; [exact Hb | exact He].
  - intros j Hj Hpos'. apply discrete_bars_cover; [|exact Hj | exact Hpos'].
    intros i k Hi Hik. subst column. cbv beta.
    assert (H0 : 0 <= minIndex).
    { apply freqToBin_nonneg; [assumption | assumption | qlra]. }
    apply logPos_mono; try assumption.
    + apply binToFreq_nonneg; [lia | assumption | lia].
    + apply binToFreq_mono; [lia | assumption | assumption].
Qed.

Lemma calcBars_discrete_ordered_witness :
  StronglySorted js_lt (map Bar.posX (_bars (_calcBars default_analyzer))) /\
  StronglySorted Z.le (map Bar.dataIdx (_bars (_calcBars default_analyzer))).
Proof.
  assert (Hr : _ready default_analyzer = true) by reflexivity.
  assert (Ho : _isOctaveBands (aux default_analyzer) = false) by reflexivity.
  assert (Hmin : (0 < _minFreq (props default_analyzer))%Q) by reflexivity.
  assert (Hlt : (_minFreq (props default_analyzer)
                 < _maxFreq (props default_analyzer))%Q) by reflexivity.
  assert (Hw : 0 <= canvas_width (env default_analyzer)) by (vm_compute; discriminate).
  assert (Hs : (0 < sampleRate (env default_analyzer))%Q) by reflexivity.
  assert (Hf : 2 <= fftSize (env default_analyzer)) by (vm_compute; discriminate).
  destruct (calcBars_discrete_ordered default_analyzer Hr Ho Hmin Hlt Hw Hs Hf)
    as (Hpos & _ & Hle & _).
  split; [exact Hpos | exact Hle].
Defined.

End DiscreteClaim.

Section FirstBar.

Variable posOf : Z -> jsnum.

Lemma discrete_fold_head (l : list Z) (bars : list Bar.t) (lastPos : jsnum)
    (d : Z) (r : list Z) :
  map Bar.dataIdx bars = d :: r ->
  exists r', map Bar.dataIdx (fst (fold_left (discrete_step posOf) l (bars, lastPos)))
             = d :: r'.
Proof.
  revert bars lastPos r. induction l as [|i l IH]; intros bars lastPos r Hb.
  - simpl. eauto.
  - cbn [fold_left].
    assert (Hs : exists r'', map Bar.dataIdx (fst (discrete_step posOf (bars, lastPos) i))
                             = d :: r'').
    { unfold discrete_step.
      destruct (js_gt (posOf i) lastPos).
      - simpl fst. rewrite map_app, Hb. simpl. eauto.
      - destruct (negb (length bars =? 0)%nat); simpl fst.
        + rewrite map_alter_keep by reflexivity. eauto.
        + eauto. }
    destruct Hs as [r'' Hs].
    destruct (discrete_step posOf (bars, lastPos) i) as [bars' lastPos'].
    eapply IH. exact Hs.
Qed.

(** When the first bin has a column right of -999, it opens the first
    bar. *)
Lemma discrete_bars_first (minIndex maxIndex : Z) :
  minIndex <= maxIndex ->
  js_gt (posOf minIndex) (Fin (-999)) = true ->
  Bar.dataIdx <$> head (discrete_bars posOf minIndex maxIndex) = Some minIndex.
Proof.
  intros Hle Hgt. unfold discrete_bars.
  rewrite seqZ_cons by lia. cbn [fold_left].
  assert (Hs : discrete_step posOf ([], Fin (-999)) minIndex
               = ([Bar.new (posOf minIndex) minIndex 0], posOf minIndex)).
  { unfold discrete_step. now rewrite Hgt. }
  rewrite Hs.
  destruct (discrete_fold_head (seqZ (Z.succ minIndex) (Z.pred (maxIndex - minIndex + 1)))
              [Bar.new (posOf minIndex) minIndex 0] (posOf minIndex)
              minIndex [] eq_refl) as [r' Hr'].
  destruct (fst (fold_left _ _ _)) as [|b bs]; [discriminate|].
  simpl in Hr'. injection Hr' as Hd _. simpl. now rewrite Hd.
Qed.

End FirstBar.

(** C8.  With an FFT of 8192 points at 44100 Hz, the range 20 Hz ..
    22000 Hz, the discrete mode and a canvas 1000 pixels wide, the first
    bar of the layout starts at bin [floor( 20 * 8192 / 44100 ) = 3]. *)
Theorem scenario_first_bin :
  Math_floor (20 * 8192 / 44100) = 3 /\
  Bar.dataIdx <$> head (_bars scenario_analyzer) = Some 3.
Proof.
  split; [reflexivity|].
  unfold scenario_analyzer, new_analyzer.
  rewrite calcBars_discrete by reflexivity.
  match goal with |- context [discrete_bars ?f ?lo ?hi] =>
    change lo with 3; change hi with 4087 end.
  apply discrete_bars_first; [lia|].
  exact scenario_first_column.
Qed.

(** ** The tempered scale *)

Section TemperedScale.

Lemma Rpower_pos (x y : R) : (0 < Rpower x y)%R.
Proof. unfold Rpower. apply exp_pos. Qed.

Lemma ROOT24_gt_1 : (1 < ROOT24)%R.
Proof.
  unfold ROOT24. rewrite <- (Rpower_O 2) by rlra.
  apply Rpower_lt; rlra.
Qed.

Lemma C0_pos : (0 < C0)%R.
Proof. unfold C0. apply Rmult_lt_0_compat; [rlra | apply Rpower_pos]. Qed.

Lemma note_freq_pos (i : Z) : (0 < note_freq i)%R.
Proof. unfold note_freq. apply Rmult_lt_0_compat; [apply C0_pos | apply Rpower_pos]. Qed.

Lemma note_freq_lt (i j : Z) : i < j -> (note_freq i < note_freq j)%R.
Proof.
  intro H. unfold note_freq. apply Rmult_lt_compat_l; [apply C0_pos|].
  apply Rpower_lt; [apply ROOT24_gt_1 | now apply IZR_lt].
Qed.

Lemma note_freq_le (i j : Z) : i <= j -> (note_freq i <= note_freq j)%R.
Proof.
  intro H. destruct (Z.eq_dec i j) as [->|Hne]; [rlra|].
  left. apply note_freq_lt. lia.
Qed.

(** [C0 * ROOT24 ** i = 440 * 2 ** ( ( i - 114 ) / 24 )] *)
Lemma note_freq_alt (i : Z) :
  note_freq i = (440 * Rpower 2 (IZR (i - 114) / 24))%R.
Proof.
  unfold note_freq, C0, ROOT24.
  rewrite Rmult_assoc, <- Rpower_plus, Rpower_mult.
  f_equal. f_equal. rewrite minus_IZR. field.
Qed.

(** The 24th power of a note is rational: [440^24 * 2^(i - 114)]. *)
Lemma note_freq_pow24 (i : Z) :
  (note_freq i ^ 24 = 440 ^ 24 * powerRZ 2 (i - 114))%R.
Proof.
  rewrite note_freq_alt, Rpow_mult_distr. f_equal.
  rewrite <- (Rpower_pow 24) by apply Rpower_pos.
  rewrite Rpower_mult, powerRZ_Rpower by rlra.
  f_equal. simpl INR. field.
Qed.

Lemma pow_lt_strict (x y : R) (n : nat) :
  (0 <= x)%R -> (x < y)%R -> (x ^ S n < y ^ S n)%R.
Proof.
  intros Hx Hxy. induction n as [|n IH].
  - simpl. rlra.
  - change (x ^ S (S n))%R with (x * x ^ S n)%R.
    change (y ^ S (S n))%R with (y * y ^ S n)%R.
    assert (0 <= x ^ S n)%R by (apply pow_le; assumption).
    apply Rle_lt_trans with (x * y ^ S n)%R.
    + apply Rmult_le_compat_l; rlra.
    + apply Rmult_lt_compat_r; rlra.
Qed.

(** Comparing a note with a positive number through 24th powers. *)
Lemma note_freq_le_iff (i : Z) (m : R) :
  (0 < m)%R ->
  (note_freq i <= m)%R <-> (440 ^ 24 * powerRZ 2 (i - 114) <= m ^ 24)%R.
Proof.
  intro Hm. rewrite <- note_freq_pow24. pose proof (note_freq_pos i) as Hp.
  split; intro H.
  - apply pow_incr. rlra.
  - destruct (Rle_lt_dec (note_freq i) m) as [Hle|Hlt]; [assumption|].
    pose proof (pow_lt_strict m (note_freq i) 23 (Rlt_le _ _ Hm) Hlt). rlra.
Qed.

Lemma note_freq_246 : (note_freq 246 <= 20000)%R.
Proof.
  apply note_freq_le_iff; [rlra|].
  change (246 - 114) with (Z.of_nat 132). rewrite <- pow_powerRZ.
  replace 440%R with (IZR 440) by reflexivity.
  replace 2%R with (IZR 2) by reflexivity.
  replace 20000%R with (IZR 20000) by reflexivity.
  rewrite !pow_IZR, <- mult_IZR. apply IZR_le. vm_compute. discriminate.
Qed.

Lemma note_freq_247 : (20000 < note_freq 247)%R.
Proof.
  apply Rnot_le_lt. intro H. apply note_freq_le_iff in H; [|rlra].
  change (247 - 114) with (Z.of_nat 133) in H. rewrite <- pow_powerRZ in H.
  replace 440%R with (IZR 440) in H by reflexivity.
  replace 2%R with (IZR 2) in H by reflexivity.
  replace 20000%R with (IZR 20000) in H by reflexivity.
  rewrite !pow_IZR, <- mult_IZR in H. apply le_IZR in H.
  vm_compute in H. apply H. reflexivity.
Qed.

Lemma note_freq_6 : (note_freq 6 < 20)%R.
Proof.
  assert (H : (note_freq 6 <= 1999 / 100)%R).
  { apply note_freq_le_iff; [rlra|].
    change (6 - 114) with (- Z.of_nat 108). rewrite powerRZ_neg', <- pow_powerRZ.
    apply Rmult_le_reg_r with (2 ^ 108 * 100 ^ 24)%R.
    - apply Rmult_lt_0_compat; apply pow_lt; rlra.
    - replace (440 ^ 24 * / 2 ^ 108 * (2 ^ 108 * 100 ^ 24))%R
        with (440 ^ 24 * 100 ^ 24)%R
        by (field; apply pow_nonzero; rlra).
      replace ((1999 / 100) ^ 24 * (2 ^ 108 * 100 ^ 24))%R
        with (1999 ^ 24 * 2 ^ 108)%R
        by (unfold Rdiv; rewrite Rpow_mult_distr, pow_inv; field;
            apply pow_nonzero; rlra).
      replace 440%R with (IZR 440) by reflexivity.
      replace 100%R with (IZR 100) by reflexivity.
      replace 1999%R with (IZR 1999) by reflexivity.
      replace 2%R with (IZR 2) by reflexivity.
      rewrite !pow_IZR, <- !mult_IZR. apply IZR_le. vm_compute. discriminate. }
  rlra.
Qed.

Lemma note_freq_7 : (20 <= note_freq 7)%R.
Proof.
  apply Rnot_lt_le. intro Hlt.
  assert (H : (note_freq 7 <= 20)%R) by rlra.
  assert (Hne : note_freq 7 <> 20%R) by rlra.
  apply note_freq_le_iff in H; [|rlra].
  pose proof (pow_lt_strict (note_freq 7) 20 23
                (Rlt_le _ _ (note_freq_pos 7)) Hlt) as Hs.
  rewrite note_freq_pow24 in Hs.
  change (7 - 114) with (- Z.of_nat 107) in Hs.
  rewrite powerRZ_neg', <- pow_powerRZ in Hs.
  assert (Hc : (20 ^ 24 * 2 ^ 107 <= 440 ^ 24)%R).
  { replace 440%R with (IZR 440) by reflexivity.
    replace 20%R with (IZR 20) by reflexivity.
    replace 2%R with (IZR 2) by reflexivity.
    rewrite !pow_IZR, <- !mult_IZR. apply IZR_le. vm_compute. discriminate. }
  assert (Hp : (0 < 2 ^ 107)%R) by (apply pow_lt; rlra).
  apply (Rmult_lt_compat_r (2 ^ 107)) in Hs; [|assumption].
  rewrite Rmult_assoc, Rinv_l in Hs by rlra. rlra.
Qed.

(** The steps of the scale within 20 Hz .. 20 kHz are 7 .. 246. *)
Lemma note_in_range (i : Z) :
  (20 <= note_freq i <= 20000)%R <-> 7 <= i <= 246.
Proof.
  split.
  - intros [Hlo Hhi]. split.
    + destruct (Z.le_gt_cases 7 i) as [|Hi]; [assumption|].
      pose proof (note_freq_le i 6 ltac:(lia)). pose proof note_freq_6. rlra.
    + destruct (Z.le_gt_cases i 246) as [|Hi]; [assumption|].
      pose proof (note_freq_le 247 i ltac:(lia)). pose proof note_freq_247. rlra.
  - intros [Hlo Hhi]. split.
    + pose proof (note_freq_le 7 i Hlo). pose proof note_freq_7. rlra.
    + pose proof (note_freq_le i 246 Hhi). pose proof note_freq_246. rlra.
Qed.

End TemperedScale.

Section ScaleLoop.

Lemma filter_all {A} (f : A -> bool) (l : list A) :
  (forall x, In x l -> f x = true) -> List.filter f l = l.
Proof.
  induction l as [|x l IH]; intro H; simpl; [reflexivity|].
  rewrite (H x) by (left; reflexivity). f_equal. apply IH.
  intros y Hy. apply H. now right.
Qed.

Lemma filter_none {A} (f : A -> bool) (l : list A) :
  (forall x, In x l -> f x = false) -> List.filter f l = [].
Proof.
  induction l as [|x l IH]; intro H; simpl; [reflexivity|].
  rewrite (H x) by (left; reflexivity). apply IH.
  intros y Hy. apply H. now right.
Qed.

Variables (minFreq maxFreq : R) (npb : option Z).

(** If the notes [i .. i + n - 1] are within [maxFreq] and note
    [i + n] is not, the loop started at [i] with more than [n] units
    of fuel ends, having pushed the kept notes in order. *)
Lemma scale_loop_run (n : nat) :
  forall (i : Z) (acc : list R) (fuel : nat),
    (forall j, i <= j < i + Z.of_nat n -> (note_freq j <= maxFreq)%R) ->
    ~ (note_freq (i + Z.of_nat n) <= maxFreq)%R ->
    (n < fuel)%nat ->
    scale_loop fuel minFreq maxFreq npb i acc
    = Some (acc ++ map note_freq
                       (List.filter (kept minFreq npb) (seqZ i (Z.of_nat n)))).
Proof.
  induction n as [|n IH]; intros i acc fuel Hin Hout Hfuel;
    (destruct fuel as [|fuel]; [lia|]); cbn [scale_loop].
  - replace (i + Z.of_nat 0) with i in Hout by lia.
    destruct (Rle_dec (note_freq i) maxFreq) as [H|H]; [contradiction|].
    simpl. now rewrite app_nil_r.
  - destruct (Rle_dec (note_freq i) maxFreq) as [H|H];
      [|exfalso; apply H, Hin; lia].
    rewrite (IH (i + 1)).
    + rewrite (seqZ_cons i) by lia.
      replace (Z.pred (Z.of_nat (S n))) with (Z.of_nat n) by lia.
      replace (Z.succ i) with (i + 1) by lia.
      cbn [List.filter]. unfold kept at 2.
      destruct (Rge_dec (note_freq i) minFreq) as [Hge|Hge];
        [destruct (on_band i npb)|]; cbn [map];
        rewrite <- ?app_assoc; reflexivity.
    + intros j Hj. apply Hin. lia.
    + replace (i + 1 + Z.of_nat n) with (i + Z.of_nat (S n)) by lia. exact Hout.
    + lia.
Qed.

(** The loop ends within its fuel as soon as the last note within
    reach exceeds [maxFreq]. *)
Lemma scale_loop_ends (fuel : nat) :
  forall (i : Z) (acc : list R),
    (maxFreq < note_freq (i + Z.of_nat fuel))%R ->
    exists r, scale_loop (S fuel) minFreq maxFreq npb i acc = Some r.
Proof.
  induction fuel as [|fuel IH]; intros i acc Hgt; cbn [scale_loop].
  - replace (i + Z.of_nat 0) with i in Hgt by lia.
    destruct (Rle_dec (note_freq i) maxFreq) as [H|H]; [rlra | eauto].
  - destruct (Rle_dec (note_freq i) maxFreq) as [H|H]; [|eauto].
    apply IH. replace (i + 1 + Z.of_nat fuel) with (i + Z.of_nat (S fuel)) by lia.
    exact Hgt.
Qed.

End ScaleLoop.

Section ScaleTotal.

Lemma note_freq_octaves (k : Z) :
  0 <= k -> note_freq (24 * k) = (C0 * IZR (2 ^ k))%R.
Proof.
  intro Hk. unfold note_freq. f_equal. unfold ROOT24.
  rewrite Rpower_mult.
  replace (/ 24 * IZR (24 * k))%R with (IZR k) by (rewrite mult_IZR; field).
  rewrite <- powerRZ_Rpower by rlra.
  rewrite <- (Z2Nat.id k) by assumption.
  rewrite <- pow_powerRZ. replace 2%R with (IZR 2) by reflexivity.
  now rewrite pow_IZR.
Qed.

Lemma C0_gt_1 : (1 < C0)%R.
Proof.
  assert (H0 : note_freq 0 = C0).
  { unfold note_freq. rewrite Rpower_O by (pose proof ROOT24_gt_1; rlra). rlra. }
  rewrite <- H0. apply Rnot_le_lt. intro H.
  apply note_freq_le_iff in H; [|rlra].
  change (0 - 114) with (- Z.of_nat 114) in H.
  rewrite powerRZ_neg', <- pow_powerRZ in H.
  assert (Hp : (0 < 2 ^ 114)%R) by (apply pow_lt; rlra).
  apply (Rmult_le_compat_r (2 ^ 114)) in H; [|rlra].
  rewrite Rmult_assoc, Rinv_l, pow1 in H by rlra.
  assert (Hc : (2 ^ 114 < 440 ^ 24)%R).
  { replace 440%R with (IZR 440) by reflexivity.
    replace 2%R with (IZR 2) by reflexivity.
    rewrite !pow_IZR. apply IZR_lt. vm_compute. reflexivity. }
  rlra.
Qed.

(** The scale is always built: the fuel of [temperedScale] is enough
    for every mode and every range. *)
Lemma temperedScale_total (mode : Z) (minFreq maxFreq : Q) :
  exists scale, temperedScale mode minFreq maxFreq = Some scale.
Proof.
  unfold temperedScale, scale_fuel.
  set (k := Z.log2_up (Z.max 1 (Qceiling maxFreq))).
  assert (Hk : 0 <= k) by apply Z.log2_up_nonneg.
  apply scale_loop_ends.
  rewrite Z2Nat.id by lia. rewrite Z.add_0_l, note_freq_octaves by assumption.
  assert (Hc : Z.max 1 (Qceiling maxFreq) <= 2 ^ k).
  { destruct (Z.le_gt_cases (Z.max 1 (Qceiling maxFreq)) 1) as [H1|H1].
    - pose proof (Z.pow_pos_nonneg 2 k ltac:(lia) Hk). lia.
    - apply Z.log2_up_spec. lia. }
  assert (Hq : (Q2R maxFreq <= IZR (Qceiling maxFreq))%R).
  { pose proof (Qle_Rle _ _ (Qle_ceiling maxFreq)) as H.
    unfold Q2R at 2 in H. simpl in H. rlra. }
  assert (Hz : (IZR (Qceiling maxFreq) <= IZR (2 ^ k))%R) by (apply IZR_le; lia).
  assert (H1 : (1 <= IZR (2 ^ k))%R) by (apply IZR_le; lia).
  pose proof C0_gt_1 as HC.
  apply Rle_lt_trans with (1 * IZR (2 ^ k))%R; [rlra|].
  apply Rmult_lt_compat_r; rlra.
Qed.

End ScaleTotal.

(** ** BarLayoutBuilder, octave bands modes *)

Section OctaveLayout.

Lemma set_factors_length (n : nat) (bars : list Bar.t) :
  length (set_factors n bars) = length bars.
Proof.
  unfold set_factors. generalize (seq 0 n). intro l. revert bars.
  induction l as [|i l IH]; intro bars; simpl; [reflexivity|].
  rewrite IH. apply length_alter.
Qed.

Variables (binOf : R -> Z) (barWidth : jsnum).

Lemma octave_step_length (st : octave_state) (index : nat) (freq : R)
    (next : option R) :
  length (o_bars (octave_step binOf barWidth st index freq next))
  = S (length (o_bars st)).
Proof.
  unfold octave_step.
  destruct (_ =? prevIdx st); simpl.
  - rewrite length_app. simpl. lia.
  - rewrite length_app. simpl.
    destruct (1 <? nBars st)%nat; rewrite ?set_factors_length; lia.
Qed.

Lemma octave_loop_length (scale : list R) :
  forall (index : nat) (st : octave_state),
    length (o_bars (octave_loop binOf barWidth scale index st))
    = (length (o_bars st) + length scale)%nat.
Proof.
  induction scale as [|freq rest IH]; intros index st; simpl.
  - lia.
  - rewrite IH, octave_step_length. lia.
Qed.

End OctaveLayout.

(** One bar per note of the scale. *)
Lemma octave_bars_length (binOf : R -> Z) (width : Z) (scale : list R) :
  length (octave_bars binOf width scale) = length scale.
Proof. unfold octave_bars. now rewrite octave_loop_length. Qed.

Section OctaveOnAnalyzer.

(** In an octave bands mode the bars of a ready object are those of
    [octave_bars] on the tempered scale of its mode and range. *)
Lemma calcBars_octave (a : Analyzer) (scale : list R) :
  _ready a = true -> _isOctaveBands (aux a) = true ->
  temperedScale (_mode (props a)) (_minFreq (props a)) (_maxFreq (props a))
    = Some scale ->
  _bars (_calcBars a)
  = octave_bars (fun freq => freqToBinR (fftSize (env a)) (sampleRate (env a))
                                        freq round)
                (canvas_width (env a)) scale.
Proof.
  intros Hr Ho Hs. unfold _calcBars. simpl _ready. rewrite Hr. simpl negb. cbv iota.
  simpl aux. rewrite Ho. simpl negb. cbv iota.
  unfold layout_octave. simpl props. rewrite Hs.
  match goal with |- context [_calcLeds ?x] =>
    pose proof (calcLeds_fields x) as (_ & _ & _ & _ & _ & Hb & _) end.
  rewrite Hb. reflexivity.
Qed.

(** The scale of mode 1 on 20 Hz .. 20 kHz: the steps 7 .. 246. *)
Lemma temperedScale_20_20000 :
  temperedScale 1 20 20000 = Some (map note_freq (seqZ 7 240)).
Proof.
  unfold temperedScale.
  replace (Q2R 20) with 20%R by (unfold Q2R; simpl; field).
  replace (Q2R 20000) with 20000%R by (unfold Q2R; simpl; field).
  rewrite (scale_loop_run 20 20000 (notesPerBand 1) 247).
  - rewrite app_nil_l. f_equal. f_equal.
    change (Z.of_nat 247) with (7 + 240).
    rewrite seqZ_app by lia. rewrite filter_app.
    rewrite filter_none, filter_all; [reflexivity| |].
    + intros j Hj. apply list_elem_of_In, elem_of_seqZ in Hj.
      unfold kept. destruct (Rge_dec (note_freq j) 20) as [H|H].
      * unfold on_band, notesPerBand. simpl. now rewrite Z.rem_1_r.
      * exfalso. apply H. apply Rle_ge. apply note_in_range. lia.
    + intros j Hj. apply list_elem_of_In, elem_of_seqZ in Hj.
      unfold kept. destruct (Rge_dec (note_freq j) 20) as [H|H]; [|reflexivity].
      exfalso. apply Rge_le in H.
      pose proof (note_freq_le j 6 ltac:(lia)). pose proof note_freq_6. rlra.
  - intros j Hj.
    pose proof (note_freq_le j 246 ltac:(lia)). pose proof note_freq_246. rlra.
  - pose proof note_freq_247. change (0 + Z.of_nat 247) with 247. rlra.
  - vm_compute. lia.
Qed.

End OctaveOnAnalyzer.

Section OctaveCount.

Lemma octave_20k_bar_count (e : Env) (p : Props) :
  _mode p = 1 -> _minFreq p = 20%Q -> _maxFreq p = 20000%Q ->
  length (_bars (new_analyzer e p)) = 240%nat.
Proof.
  intros Hmode Hmin Hmax. unfold new_analyzer.
  rewrite (calcBars_octave _ (map note_freq (seqZ 7 240))).
  - rewrite octave_bars_length, length_map, length_seqZ. reflexivity.
  - reflexivity.
  - unfold _calcAux. simpl aux. unfold aux_of. simpl _isOctaveBands.
    rewrite Hmode. reflexivity.
  - simpl props. rewrite Hmode, Hmin, Hmax. exact temperedScale_20_20000.
Qed.

(** C7 (as amended).  In octave-band mode 1 ([notesPerBand = 1]) on
    the range 20 Hz .. 20 kHz, whatever the canvas, the FFT size and the
    sample rate, the scale holds the steps [C0 * 2^(i/24)] of the
    24-tone tempered scale (quarter tones, [C0 = 440 * 2^(-114/24)])
    that lie in the range, namely [i = 7 .. 246], and the layout has one
    bar per step: 240 bars. *)
Theorem octave_mode1_bar_count (e : Env) (p : Props) :
  _mode p = 1 -> _minFreq p = 20%Q -> _maxFreq p = 20000%Q ->
  temperedScale (_mode p) (_minFreq p) (_maxFreq p)
    = Some (map note_freq (seqZ 7 240)) /\
  (forall i : Z, (20 <= note_freq i <= 20000)%R <-> i ∈ seqZ 7 240) /\
  length (_bars (new_analyzer e p)) = length (seqZ 7 240) /\
  length (_bars (new_analyzer e p)) = 240%nat.
Proof.
  intros Hmode Hmin Hmax.
  split; [rewrite Hmode, Hmin, Hmax; exact temperedScale_20_20000|].
  split.
  - intro i. rewrite elem_of_seqZ, note_in_range. lia.
  - rewrite length_seqZ. split; now apply octave_20k_bar_count.
Qed.

Lemma octave_mode1_bar_count_witness :
  length (_bars (new_analyzer default_env octave_20k_props)) = 240%nat.
Proof.
  destruct (octave_mode1_bar_count default_env octave_20k_props
              eq_refl eq_refl eq_refl) as (_ & _ & _ & H).
  exact H.
Defined.

Lemma semitone_is_second_step (k : Z) : semitone_freq k = note_freq (2 * k).
Proof.
  unfold semitone_freq, note_freq, ROOT24. f_equal.
  rewrite Rpower_mult. f_equal. rewrite mult_IZR. field.
Qed.

(** C7, the claim as worded fails: the semitones [C0 * 2^(k/12)]
    within 20 Hz .. 20 kHz are those of [k = 4 .. 123], 120 of them,
    while mode 1 lays out 240 bars. *)
Lemma semitone_count_is_half :
  (forall k : Z, (20 <= semitone_freq k <= 20000)%R <-> k ∈ seqZ 4 120) /\
  length (seqZ 4 120) = 120%nat /\
  length (_bars (new_analyzer default_env octave_20k_props)) = 240%nat /\
  length (_bars (new_analyzer default_env octave_20k_props))
    <> length (seqZ 4 120).
Proof.
  assert (Hb : length (_bars (new_analyzer default_env octave_20k_props)) = 240%nat)
    by (apply octave_20k_bar_count; reflexivity).
  split.
  - intro k. rewrite semitone_is_second_step, note_in_range, elem_of_seqZ. lia.
  - split; [reflexivity|]. split; [exact Hb|].
    rewrite Hb. rewrite length_seqZ. discriminate.
Qed.

End OctaveCount.

(* ================================================================== *)
(** * Part III: further properties of the code                         *)
(* ================================================================== *)

(** ** [_freqToBin] and [binToFreq] *)

Section FreqToBin.

Lemma Qfloor_unique (x : Q) (z : Z) :
  (inject_Z z <= x)%Q -> (x < inject_Z (z + 1))%Q -> Qfloor x = z.
Proof.
  intros Hlo Hhi.
  pose proof (Qfloor_le x) as H1. pose proof (Qlt_floor x) as H2.
  assert (Ha : (inject_Z z < inject_Z (Qfloor x + 1))%Q) by qlra.
  assert (Hb : (inject_Z (Qfloor x) < inject_Z (z + 1))%Q) by qlra.
  rewrite <- Zlt_Qlt in Ha, Hb. lia.
Qed.

Lemma Math_round_inject (z : Z) : Math_round (inject_Z z) = z.
Proof.
  unfold Math_round. apply Qfloor_unique.
  - qlra.
  - rewrite inject_Z_succ. qlra.
Qed.

Lemma freqToBin_min (fftSize : Z) (sampleRate freq : Q) (mode : rounding) :
  freqToBin fftSize sampleRate freq mode
  = Z.min (match mode with
           | round => Math_round (freq * inject_Z fftSize / sampleRate)
           | floor => Math_floor (freq * inject_Z fftSize / sampleRate)
           end)
          (fftSize / 2 - 1).
Proof.
  unfold freqToBin. cbv zeta.
  destruct (Z.ltb_spec
              (match mode with
               | round => Math_round (freq * inject_Z fftSize / sampleRate)
               | floor => Math_floor (freq * inject_Z fftSize / sampleRate)
               end) (fftSize / 2 - 1)); lia.
Qed.

Lemma bin_scale_mono (fftSize : Z) (sampleRate f1 f2 : Q) :
  0 < fftSize -> (0 < sampleRate)%Q -> (f1 <= f2)%Q ->
  (f1 * inject_Z fftSize / sampleRate <= f2 * inject_Z fftSize / sampleRate)%Q.
Proof.
  intros Hf Hs H12.
  assert (Hi : (0 < inject_Z fftSize)%Q) by (rewrite <- (Zlt_Qlt 0); exact Hf).
  unfold Qdiv. apply Qmult_le_compat_r.
  - apply Qmult_le_compat_r; [exact H12 | qlra].
  - apply Qlt_le_weak, Qinv_lt_0_compat. exact Hs.
Qed.

(** X1.  [_freqToBin] never leaves the magnitude buffer and keeps the
    order of frequencies: for an FFT of at least two points, a positive
    sample rate and frequencies [0 <= f1 <= f2], the bins satisfy
    [0 <= bin f1 <= bin f2 <= frequencyBinCount - 1], with either
    rounding. *)
Theorem freqToBin_in_buffer_monotone
    (fftSize : Z) (sampleRate f1 f2 : Q) (mode : rounding) :
  2 <= fftSize -> (0 < sampleRate)%Q -> (0 <= f1)%Q -> (f1 <= f2)%Q ->
  0 <= freqToBin fftSize sampleRate f1 mode /\
  freqToBin fftSize sampleRate f1 mode <= freqToBin fftSize sampleRate f2 mode /\
  freqToBin fftSize sampleRate f2 mode <= fftSize / 2 - 1.
Proof.
  intros Hf Hs H1 H12.
  split; [apply freqToBin_nonneg; assumption|].
  rewrite !freqToBin_min. split; [|lia].
  apply Z.min_le_compat_r.
  pose proof (bin_scale_mono fftSize sampleRate f1 f2 ltac:(lia) Hs H12) as Hx.
  destruct mode; unfold Math_round, Math_floor; apply Qfloor_resp_le; qlra.
Qed.

Lemma freqToBin_in_buffer_monotone_witness :
  0 <= freqToBin 8192 44100 20 floor /\
  freqToBin 8192 44100 20 floor <= freqToBin 8192 44100 22000 floor /\
  freqToBin 8192 44100 22000 floor <= 8192 / 2 - 1.
Proof.
  apply (freqToBin_in_buffer_monotone 8192 44100 20 22000 floor).
  - lia.
  - reflexivity.
  - vm_compute; discriminate.
  - vm_compute; discriminate.
Defined.

(** X2.  Round trip: for an FFT size that is a power of two (2^5 to
    2^15, the sizes an analyser node takes) and a sample rate that is
    a whole number of hertz, the centre frequency [binToFreq i] of a
    bin [i >= 0] is mapped back to [i] by [_freqToBin], with either
    rounding, as long as [i] is a bin of the buffer; a bin past the end
    is clamped to the last one.  Under these conditions the product
    [i * sampleRate] is a whole number below 2^53 and both the division
    and the multiplication by the FFT size are exact, so the quotient
    taken by [_freqToBin] is the whole number [i] itself. *)
Theorem freqToBin_binToFreq (k rate i : Z) (mode : rounding) :
  5 <= k <= 15 -> 0 < rate < 2 ^ 31 -> 0 <= i < 2 ^ 21 ->
  freqToBin (2 ^ k) (inject_Z rate) (binToFreq (2 ^ k) (inject_Z rate) i) mode
  = Z.min i (2 ^ k / 2 - 1).
Proof.
  intros Hk Hrate _. rewrite freqToBin_min. f_equal.
  assert (Hf : 0 < 2 ^ k) by (apply Z.pow_pos_nonneg; lia).
  assert (Hi : (0 < inject_Z (2 ^ k))%Q) by (rewrite <- (Zlt_Qlt 0); exact Hf).
  assert (Hs : (0 < inject_Z rate)%Q) by (rewrite <- (Zlt_Qlt 0); lia).
  assert (Hx : (binToFreq (2 ^ k) (inject_Z rate) i * inject_Z (2 ^ k) / inject_Z rate
                == inject_Z i)%Q).
  { unfold binToFreq. field. split; qlra. }
  destruct mode.
  - unfold Math_round. rewrite (Qfloor_comp _ (inject_Z i + (1 # 2))%Q) by (rewrite Hx; reflexivity).
    apply Math_round_inject.
  - unfold Math_floor. rewrite (Qfloor_comp _ _ Hx). apply Qfloor_Z.
Qed.

Lemma freqToBin_binToFreq_witness :
  freqToBin (2 ^ 13) (inject_Z 44100) (binToFreq (2 ^ 13) (inject_Z 44100) 3) round
  = Z.min 3 (2 ^ 13 / 2 - 1) /\
  freqToBin (2 ^ 13) (inject_Z 44100) (binToFreq (2 ^ 13) (inject_Z 44100) 5000) floor
  = Z.min 5000 (2 ^ 13 / 2 - 1).
Proof.
  split.
  - apply (freqToBin_binToFreq 13 44100 3 round); lia.
  - apply (freqToBin_binToFreq 13 44100 5000 floor); lia.
Defined.

End FreqToBin.

(** ** The values of a frame stay in their ranges *)

Section FrameRanges.

Lemma fft_at_bounds (fftData : list Z) (i : Z) :
  byte_buffer fftData -> (0 <= fft_at fftData i <= 255)%Q.
Proof.
  intro Hb. unfold fft_at.
  assert (H : 0 <= default 0 (fftData !! Z.to_nat i) <= 255).
  { destruct (fftData !! Z.to_nat i) as [b|] eqn:E; simpl; [|lia].
    unfold byte_buffer in Hb. rewrite Forall_lookup in Hb. exact (Hb _ _ E). }
  split.
  - rewrite <- (Zle_Qle 0). lia.
  - rewrite <- (Zle_Qle _ 255). lia.
Qed.

Lemma fold_Qmax_bounds (fftData : list Z) (l : list Z) :
  byte_buffer fftData ->
  forall acc : Q, (0 <= acc <= 255)%Q ->
  (0 <= fold_left (fun h j => Qmax h (fft_at fftData j)) l acc <= 255)%Q.
Proof.
  intro Hb. induction l as [|j l IH]; intros acc Hacc; simpl; [exact Hacc|].
  apply IH. pose proof (fft_at_bounds fftData j Hb) as Hj.
  destruct (Q.max_spec acc (fft_at fftData j)) as [[_ ->]|[_ ->]]; assumption.
Qed.

(* On a byte buffer the value of a bar lies in [0, 1] after
   [barHeight /= 255], for an interpolation factor in [0, 1]. *)
Lemma bar_value_bounds (fftData : list Z) (bar : Bar.t) :
  byte_buffer fftData -> unit_factor bar ->
  (0 <= bar_value fftData bar <= 1)%Q.
Proof.
  intros Hb [Hf0 Hf1]. unfold bar_value.
  assert (Hx : forall x : Q, (0 <= x <= 255)%Q -> (0 <= x / 255 <= 1)%Q).
  { intros x [Hx0 Hx1]. split.
    - apply Qle_shift_div_l; qlra.
    - apply Qle_shift_div_r; qlra. }
  apply Hx.
  destruct (Bar.endIdx bar =? 0).
  - pose proof (fft_at_bounds fftData (Bar.dataIdx bar) Hb) as Hv.
    destruct (negb (Qeq_bool (Bar.factor bar) 0)); [|exact Hv].
    cbv zeta.
    assert (Hp : (0 <= (if negb (Bar.dataIdx bar =? 0)
                        then fft_at fftData (Bar.dataIdx bar - 1)
                        else fft_at fftData (Bar.dataIdx bar)) <= 255)%Q).
    { destruct (negb (Bar.dataIdx bar =? 0)); [apply fft_at_bounds; exact Hb | exact Hv]. }
    set (p := if negb (Bar.dataIdx bar =? 0)
              then fft_at fftData (Bar.dataIdx bar - 1)
              else fft_at fftData (Bar.dataIdx bar)) in *.
    set (v := fft_at fftData (Bar.dataIdx bar)) in *.
    set (f := Bar.factor bar) in *.
    assert (H1 : (0 <= p * (1 - f))%Q) by (apply Qmult_le_0_compat; qlra).
    assert (H2 : (0 <= v * f)%Q) by (apply Qmult_le_0_compat; qlra).
    assert (H3 : (0 <= (255 - p) * (1 - f))%Q) by (apply Qmult_le_0_compat; qlra).
    assert (H4 : (0 <= (255 - v) * f)%Q) by (apply Qmult_le_0_compat; qlra).
    split.
    + qlra.
    + qlra.
  - apply fold_Qmax_bounds; [exact Hb | qlra].
Qed.

Lemma fft_at_mono (d d' : list Z) :
  Forall2 Z.le d d' -> forall i : Z, (fft_at d i <= fft_at d' i)%Q.
Proof.
  intros H i. unfold fft_at. rewrite <- Zle_Qle.
  generalize (Z.to_nat i). clear i.
  induction H as [|x y d d' Hxy _ IH]; intro n.
  - destruct n; simpl; lia.
  - destruct n as [|n]; simpl; [exact Hxy | apply IH].
Qed.

Lemma fold_Qmax_mono (d d' : list Z) (l : list Z) :
  Forall2 Z.le d d' ->
  forall acc acc' : Q, (acc <= acc')%Q ->
  (fold_left (fun h j => Qmax h (fft_at d j)) l acc
   <= fold_left (fun h j => Qmax h (fft_at d' j)) l acc')%Q.
Proof.
  intro H. induction l as [|j l IH]; intros acc acc' Hacc; [exact Hacc|].
  cbn [fold_left]. apply IH.
  pose proof (fft_at_mono d d' H j) as Hj.
  apply Q.max_le_compat; assumption.
Qed.

(** X3.  The value of a bar is a proportion that grows with the data.
    On byte buffers, the value of a bar (a single bin, a bin
    interpolated with its left neighbour by a factor in [0, 1], or the
    highest bin of a range) lies in [0, 1] after [barHeight /= 255];
    and raising bins of the buffer never lowers it. *)
Theorem bar_value_proportion_monotone (d d' : list Z) (bar : Bar.t) :
  byte_buffer d -> byte_buffer d' -> Forall2 Z.le d d' -> unit_factor bar ->
  (0 <= bar_value d bar)%Q /\
  (bar_value d bar <= bar_value d' bar)%Q /\
  (bar_value d' bar <= 1)%Q.
Proof.
  intros Hb Hb' Hle Hf.
  split; [exact (proj1 (bar_value_bounds d bar Hb Hf))|].
  split; [|exact (proj2 (bar_value_bounds d' bar Hb' Hf))].
  destruct Hf as [Hf0 Hf1]. unfold bar_value.
  assert (Hx : forall x y : Q, (x <= y)%Q -> (x / 255 <= y / 255)%Q).
  { intros x y Hxy. unfold Qdiv. apply Qmult_le_compat_r; [exact Hxy|].
    vm_compute; discriminate. }
  apply Hx.
  destruct (Bar.endIdx bar =? 0).
  - pose proof (fft_at_mono d d' Hle (Bar.dataIdx bar)) as Hv.
    destruct (negb (Qeq_bool (Bar.factor bar) 0)); [|exact Hv].
    cbv zeta.
    assert (Hp : ((if negb (Bar.dataIdx bar =? 0)
                   then fft_at d (Bar.dataIdx bar - 1)
                   else fft_at d (Bar.dataIdx bar))
                  <= (if negb (Bar.dataIdx bar =? 0)
                      then fft_at d' (Bar.dataIdx bar - 1)
                      else fft_at d' (Bar.dataIdx bar)))%Q).
    { destruct (negb (Bar.dataIdx bar =? 0)); [apply fft_at_mono; exact Hle | exact Hv]. }
    set (p := if negb (Bar.dataIdx bar =? 0)
              then fft_at d (Bar.dataIdx bar - 1)
              else fft_at d (Bar.dataIdx bar)) in *.
    set (p' := if negb (Bar.dataIdx bar =? 0)
               then fft_at d' (Bar.dataIdx bar - 1)
               else fft_at d' (Bar.dataIdx bar)) in *.
    set (v := fft_at d (Bar.dataIdx bar)) in *.
    set (v' := fft_at d' (Bar.dataIdx bar)) in *.
    set (f := Bar.factor bar) in *.
    assert (H1 : (0 <= (p' - p) * (1 - f))%Q) by (apply Qmult_le_0_compat; qlra).
    assert (H2 : (0 <= (v' - v) * f)%Q) by (apply Qmult_le_0_compat; qlra).
    qlra.
  - apply fold_Qmax_mono; [exact Hle | apply Qle_refl].
Qed.

Lemma bar_value_proportion_monotone_witness :
  (bar_value [0; 100; 51; 102]%Z (Bar.set_factor (1 # 2) (Bar.new (Fin 0) 2 0))
   <= bar_value [0; 255; 51; 102]%Z (Bar.set_factor (1 # 2) (Bar.new (Fin 0) 2 0)))%Q.
Proof.
  refine (proj1 (proj2 (bar_value_proportion_monotone
                          [0; 100; 51; 102] [0; 255; 51; 102]
                          (Bar.set_factor (1 # 2) (Bar.new (Fin 0) 2 0)) _ _ _ _))).
  - unfold byte_buffer. repeat constructor; lia.
  - unfold byte_buffer. repeat constructor; lia.
  - repeat constructor; lia.
  - unfold unit_factor. simpl. split; vm_compute; discriminate.
Defined.

Lemma Qsum_bounds (l : list Q) :
  Forall (fun v => (0 <= v <= 1)%Q) l ->
  (0 <= Qsum l <= inject_Z (Z.of_nat (length l)))%Q.
Proof.
  induction 1 as [|v l Hv _ IH].
  - split; apply Qle_refl.
  - cbn [Qsum fold_right length]. fold (Qsum l).
    rewrite Nat2Z.inj_succ. unfold Z.succ. rewrite inject_Z_succ.
    set (n := inject_Z (Z.of_nat (length l))) in *. qlra.
Qed.

Lemma all_bar_values_bounds (isStereo : bool) (bars : list Bar.t)
    (fftData : list (list Z)) :
  Forall unit_factor bars -> Forall byte_buffer fftData ->
  Forall (fun v => (0 <= v <= 1)%Q) (all_bar_values isStereo bars fftData).
Proof.
  intros Hbars Hfft. unfold all_bar_values.
  assert (Hc : forall channel : nat,
             Forall (fun v => (0 <= v <= 1)%Q)
                    (map (bar_value (default [] (fftData !! channel))) bars)).
  { intro channel. apply List.Forall_map.
    eapply List.Forall_impl; [|exact Hbars].
    intros b Hb. apply bar_value_bounds; [|exact Hb].
    destruct (fftData !! channel) as [d|] eqn:E; simpl.
    - rewrite Forall_lookup in Hfft. exact (Hfft _ _ E).
    - constructor. }
  destruct isStereo; simpl.
  - rewrite app_nil_r. apply Forall_app. split; apply Hc.
  - rewrite app_nil_r. apply Hc.
Qed.

Lemma all_bar_values_length (isStereo : bool) (bars : list Bar.t)
    (fftData : list (list Z)) :
  length (all_bar_values isStereo bars fftData)
  = (length bars * length (channels isStereo))%nat.
Proof.
  unfold all_bar_values. destruct isStereo; simpl;
    rewrite ?app_nil_r, ?length_app, ?length_map; lia.
Qed.

Lemma energy_val_unit (isStereo : bool) (bars : list Bar.t)
    (fftData : list (list Z)) :
  Forall unit_factor bars -> Forall byte_buffer fftData ->
  Z.of_nat (length bars) < 2 ^ 30 ->
  match energy_val isStereo bars fftData with
  | Some v => (0 <= v <= 1)%Q
  | None => bars = []
  end.
Proof.
  intros Hbars Hfft Hlen. unfold energy_val. cbv zeta.
  rewrite shl_channels by lia.
  set (n := Z.of_nat (length bars) * Z.of_nat (length (channels isStereo))).
  assert (Hc : 1 <= Z.of_nat (length (channels isStereo))) by (destruct isStereo; simpl; lia).
  destruct (Z.eqb_spec n 0) as [E|E].
  - destruct bars; [reflexivity|]. simpl length in *. subst n. nia.
  - assert (Hn : 0 < n) by (subst n; nia).
    assert (Hq : (0 < inject_Z n)%Q) by (rewrite <- (Zlt_Qlt 0); exact Hn).
    pose proof (Qsum_bounds _ (all_bar_values_bounds isStereo bars fftData Hbars Hfft))
      as [H0 H1].
    rewrite all_bar_values_length in H1.
    rewrite Nat2Z.inj_mul in H1. fold n in H1.
    rewrite (currentEnergy_sum isStereo bars fftData).
    split.
    + apply Qle_shift_div_l; [exact Hq | qlra].
    + apply Qle_shift_div_r; [exact Hq | qlra].
Qed.

Lemma update_energy_inv (v : option Q) (e : Energy.t) :
  match v with Some x => (0 <= x <= 1)%Q | None => True end ->
  energy_inv e -> energy_inv (Energy.update v e).
Proof.
  intros Hv (Hp & Hh & Hz & _).
  assert (Hsettle : energy_inv (Energy.settle v e)).
  { unfold Energy.settle.
    destruct (Z.ltb_spec 0 (Energy.hold e)) as [Hpos|Hneg].
    - unfold energy_inv. simpl. repeat split; try tauto; try lia.
    - destruct (Qlt_bool 0 (Energy.peak e)) eqn:Epk.
      + apply Qlt_bool_iff in Epk.
        assert (Hh30 : -30 <= Energy.hold e).
        { destruct (Z.eq_dec (Energy.hold e) (-31)) as [E|E]; [|lia].
          specialize (Hz E). qlra. }
        assert (Hf0 : (0 <= inject_Z (30 + Energy.hold e) / 30)%Q).
        { apply Qle_shift_div_l; [qlra|]. rewrite Qmult_0_l.
          rewrite <- (Zle_Qle 0). lia. }
        assert (Hf1 : (inject_Z (30 + Energy.hold e) / 30 <= 1)%Q).
        { apply Qle_shift_div_r; [qlra|]. rewrite Qmult_1_l.
          rewrite <- (Zle_Qle _ 30). lia. }
        unfold energy_inv. simpl.
        set (f := (inject_Z (30 + Energy.hold e) / 30)%Q) in *.
        assert (H1 : (0 <= Energy.peak e * f)%Q) by (apply Qmult_le_0_compat; qlra).
        assert (H2 : (0 <= Energy.peak e * (1 - f))%Q) by (apply Qmult_le_0_compat; qlra).
        repeat split; try tauto; try lia.
        * qlra.
        * intro E. assert (E' : Energy.hold e = -30) by lia.
          subst f. rewrite E'.
          change (inject_Z (30 + -30) / 30)%Q with (0 # 30)%Q. ring.
      + unfold energy_inv. simpl. repeat split; try tauto; try lia. }
  destruct v as [x|]; [|exact Hsettle]. simpl.
  destruct (Qle_bool (Energy.peak e) x) eqn:E; [|exact Hsettle].
  unfold energy_inv. simpl. repeat split; try tauto; lia.
Qed.

Lemma draw_fftData_bytes (isStereo : bool) (buffers d : list (list Z)) :
  Forall byte_buffer buffers -> Forall byte_buffer d ->
  Forall byte_buffer
    (fold_left (fun d channel => <[channel := default [] (buffers !! channel)]> d)
               (channels isStereo) d).
Proof.
  intros Hb Hd.
  assert (Hc : forall channel : nat, byte_buffer (default [] (buffers !! channel))).
  { intro channel. destruct (buffers !! channel) as [x|] eqn:E; simpl.
    - rewrite Forall_lookup in Hb. exact (Hb _ _ E).
    - constructor. }
  destruct isStereo; simpl; repeat apply Forall_insert; auto.
Qed.

(** X4.  The energy of a frame is a proportion.  When the bars have
    interpolation factors in [0, 1] (as [_calcBars] builds them) and the
    analyser nodes deliver bytes, one call of [_draw] leaves
    [energy.val] in [0, 1] (or [NaN] when there is no bar at all),
    [energy.peak] in [0, 1] and [energy.hold] between -31 and 30,
    provided the tracker was in these ranges before; the tracker of a
    new object is. *)
Theorem draw_energy_in_range (buffers : list (list Z)) (a : Analyzer) :
  Forall unit_factor (_bars a) -> Z.of_nat (length (_bars a)) < 2 ^ 30 ->
  Forall byte_buffer buffers -> Forall byte_buffer (_fftData a) ->
  energy_inv (_energy a) ->
  energy_inv (_energy (_draw buffers a)) /\
  (Energy.val (_energy (_draw buffers a)) = None -> _bars a = []) /\
  energy_inv Energy.initial.
Proof.
  intros Hbars Hlen Hbuf Hfft Hinv.
  change (_energy (_draw buffers a))
    with (draw_energy (_stereo (props a)) (_bars a)
            (fold_left (fun d channel => <[channel := default [] (buffers !! channel)]> d)
                       (channels (_stereo (props a))) (_fftData a))
            (_energy a)).
  unfold draw_energy.
  pose proof (energy_val_unit (_stereo (props a)) (_bars a) _ Hbars
                (draw_fftData_bytes (_stereo (props a)) buffers (_fftData a) Hbuf Hfft)
                Hlen) as Hv.
  split; [|split].
  - apply update_energy_inv; [|exact Hinv].
    destruct (energy_val _ _ _); [exact Hv | exact I].
  - rewrite val_update. intro E. rewrite E in Hv. exact Hv.
  - unfold energy_inv, Energy.initial. simpl. repeat split; try lia; try qlra.
Qed.

Lemma draw_energy_in_range_witness :
  energy_inv
    (_energy (_draw [[0; 255; 51; 102]; [0; 0; 255; 0]]
                (with_bars [Bar.new (Fin 0) 1 0; Bar.new (Fin 1) 2 3]
                   (mk_analyzer default_env true default_props
                      (mk_aux 0 NaN false false false true 0 0 0) NaN [] None
                      Energy.initial [[0; 0; 0; 0]; [0; 0; 0; 0]] builtin_gradients)))).
Proof.
  refine (proj1 (draw_energy_in_range _ _ _ _ _ _ _)).
  - simpl. repeat constructor; vm_compute; discriminate.
  - simpl. lia.
  - unfold byte_buffer. repeat constructor; lia.
  - simpl. unfold byte_buffer. repeat constructor; lia.
  - simpl. unfold energy_inv, Energy.initial. simpl. repeat split; try lia; try qlra.
Defined.

End FrameRanges.

(** ** Decay of the energy peak and of the bar peaks *)

Section Decay.

Lemma feed_S (x : Q) (n : nat) (e : Energy.t) :
  Energy.feed x (S n) e = Energy.update (Some x) (Energy.feed x n e).
Proof. reflexivity. Qed.

Lemma feed_add (x : Q) (n m : nat) (e : Energy.t) :
  Energy.feed x (n + m) e = Energy.feed x n (Energy.feed x m e).
Proof.
  induction n as [|n IH]; [reflexivity|].
  change (S n + m)%nat with (S (n + m)). rewrite !feed_S, IH. reflexivity.
Qed.

Lemma decay_product_pos (k : nat) : (k <= 30)%nat -> (0 < decay_product k)%Q.
Proof.
  induction k as [|k IH]; intro Hk; [reflexivity|].
  cbn [decay_product]. apply Qmult_lt_0_compat; [apply IH; lia|].
  apply Qlt_shift_div_l; [reflexivity|]. rewrite Qmult_0_l.
  rewrite <- (Zlt_Qlt 0). lia.
Qed.

Lemma decay_product_31 : (decay_product 31 == 0)%Q.
Proof.
  change (decay_product 31) with (decay_product 30 * (0 # 30))%Q. ring.
Qed.

Lemma feed_hold_phase (e : Energy.t) (n : nat) :
  (0 < Energy.peak e)%Q -> Energy.hold e = 30 -> (n <= 30)%nat ->
  Energy.peak (Energy.feed 0 n e) = Energy.peak e /\
  Energy.hold (Energy.feed 0 n e) = 30 - Z.of_nat n.
Proof.
  intros Hp Hh. induction n as [|n IH]; intro Hn.
  - split; [reflexivity | exact Hh].
  - destruct (IH ltac:(lia)) as [IHp IHh]. rewrite feed_S.
    set (s := Energy.feed 0 n e) in *.
    unfold Energy.update.
    assert (E : Qle_bool (Energy.peak s) 0 = false)
      by (apply Qle_bool_false; rewrite IHp; exact Hp).
    rewrite E. unfold Energy.settle.
    destruct (Z.ltb_spec 0 (Energy.hold s)) as [_|Hle]; [|lia].
    simpl. split; [exact IHp | lia].
Qed.

Lemma feed_decay_phase (e : Energy.t) (k : nat) :
  (0 < Energy.peak e)%Q -> Energy.hold e = 30 -> (k <= 31)%nat ->
  (Energy.peak (Energy.feed 0 (k + 30) e) == Energy.peak e * decay_product k)%Q /\
  Energy.hold (Energy.feed 0 (k + 30) e) = - Z.of_nat k.
Proof.
  intros Hp Hh. induction k as [|k IH]; intro Hk.
  - destruct (feed_hold_phase e 30 Hp Hh ltac:(lia)) as [E1 E2].
    change (0 + 30)%nat with 30%nat. rewrite E1, E2. split; [|reflexivity].
    cbn [decay_product]. ring.
  - destruct (IH ltac:(lia)) as [IHp IHh].
    change (S k + 30)%nat with (S (k + 30)). rewrite feed_S.
    set (s := Energy.feed 0 (k + 30) e) in *.
    pose proof (decay_product_pos k ltac:(lia)) as Hd.
    assert (Hs : (0 < Energy.peak s)%Q).
    { rewrite IHp. apply Qmult_lt_0_compat; assumption. }
    unfold Energy.update.
    assert (E : Qle_bool (Energy.peak s) 0 = false) by (apply Qle_bool_false; exact Hs).
    rewrite E. unfold Energy.settle.
    destruct (Z.ltb_spec 0 (Energy.hold s)) as [Hlt|_]; [lia|].
    assert (E' : Qlt_bool 0 (Energy.peak s) = true) by (apply Qlt_bool_iff; exact Hs).
    rewrite E'. simpl. split; [|lia].
    rewrite IHp, IHh. cbn [decay_product].
    replace (30 + - Z.of_nat k) with (30 - Z.of_nat k) by lia. ring.
Qed.

Lemma feed_stays_zero (e : Energy.t) (m : nat) :
  (Energy.peak e == 0)%Q -> (Energy.peak (Energy.feed 0 m e) == 0)%Q.
Proof.
  intro Hz. induction m as [|m IH]; [exact Hz|].
  rewrite feed_S. unfold Energy.update.
  assert (E : Qle_bool (Energy.peak (Energy.feed 0 m e)) 0 = true)
    by (apply Qle_bool_iff; rewrite IH; apply Qle_refl).
  rewrite E. reflexivity.
Qed.

(** X5.  How the energy peak dies out.  Once a peak [p > 0] has been
    set ([hold = 30]) and the energy of the following frames is 0, the
    peak is kept for 31 frames (30 frames of hold and a first decay
    step of factor 30/30), is then [p * 30/30 * 29/30 * ... ] and is 0
    after 61 frames, where it stays: the decay itself takes 30 frames,
    as the comment of the source says. *)
Theorem energy_peak_dies_out (e : Energy.t) :
  (0 < Energy.peak e)%Q -> Energy.hold e = 30 ->
  (forall n, (n <= 31)%nat ->
     (Energy.peak (Energy.feed 0 n e) == Energy.peak e)%Q) /\
  (forall k, (k <= 31)%nat ->
     (Energy.peak (Energy.feed 0 (k + 30) e) == Energy.peak e * decay_product k)%Q) /\
  (forall k, (2 <= k <= 31)%nat ->
     (Energy.peak (Energy.feed 0 (k + 30) e) < Energy.peak e)%Q) /\
  (forall n, (61 <= n)%nat -> (Energy.peak (Energy.feed 0 n e) == 0)%Q).
Proof.
  intros Hp Hh.
  assert (Hk : forall k, (k <= 31)%nat ->
     (Energy.peak (Energy.feed 0 (k + 30) e) == Energy.peak e * decay_product k)%Q).
  { intros k Hk. exact (proj1 (feed_decay_phase e k Hp Hh Hk)). }
  split; [|split; [exact Hk|split]].
  - intros n Hn. destruct (Nat.le_gt_cases n 30) as [H30|H30].
    + rewrite (proj1 (feed_hold_phase e n Hp Hh H30)). reflexivity.
    + replace n with (1 + 30)%nat by lia. rewrite (Hk 1%nat ltac:(lia)).
      change (decay_product 1) with (1 * (30 # 30))%Q. ring.
  - intros k [Hk2 Hk31]. rewrite (Hk k Hk31).
    assert (Hd : (decay_product k < 1)%Q).
    { clear Hk. induction k as [|k IH]; [lia|].
      destruct (Nat.eq_dec k 1) as [->|Hne].
      - reflexivity.
      - cbn [decay_product].
        assert (H1 : (decay_product k < 1)%Q) by (apply IH; lia).
        assert (H0 : (0 <= decay_product k)%Q).
        { destruct (Nat.eq_dec k 31) as [->|]; [lia|].
          apply Qlt_le_weak, decay_product_pos. lia. }
        assert (Hf0 : (0 <= inject_Z (30 - Z.of_nat k) / 30)%Q).
        { apply Qle_shift_div_l; [reflexivity|]. rewrite Qmult_0_l.
          rewrite <- (Zle_Qle 0). lia. }
        assert (Hf1 : (inject_Z (30 - Z.of_nat k) / 30 <= 1)%Q).
        { apply Qle_shift_div_r; [reflexivity|]. rewrite Qmult_1_l.
          rewrite <- (Zle_Qle _ 30). lia. }
        set (f := (inject_Z (30 - Z.of_nat k) / 30)%Q) in *.
        set (d := decay_product k) in *.
        assert (H2 : (0 <= d * (1 - f))%Q) by (apply Qmult_le_0_compat; qlra).
        qlra. }
    set (d := decay_product k) in *. set (p := Energy.peak e) in *.
    assert (H2 : (0 < p * (1 - d))%Q) by (apply Qmult_lt_0_compat; qlra).
    qlra.
  - intros n Hn. replace n with ((n - 61) + 61)%nat by lia.
    rewrite feed_add. apply feed_stays_zero.
    change 61%nat with (31 + 30)%nat. rewrite (Hk 31%nat ltac:(lia)).
    rewrite decay_product_31. ring.
Qed.

Lemma energy_peak_dies_out_witness :
  (Energy.peak (Energy.feed 0 61 (Energy.mk (Some (1 # 2)) (1 # 2) 30)) == 0)%Q.
Proof.
  refine (proj2 (proj2 (proj2 (energy_peak_dies_out
                                 (Energy.mk (Some (1 # 2)) (1 # 2) 30) _ _))) 61%nat _).
  - reflexivity.
  - reflexivity.
  - lia.
Defined.

Lemma fallen_closed (k : nat) : 2 * fallen k = Z.of_nat k * (Z.of_nat k + 1).
Proof. induction k as [|k IH]; [reflexivity|]. cbn [fallen]. lia. Qed.

Lemma fallen_mono (j k : nat) : (j <= k)%nat -> fallen j <= fallen k.
Proof.
  induction 1 as [|k _ IH]; [lia|]. cbn [fallen]. lia.
Qed.

Lemma quiet_frame_low (h : Q) (s : BarState.t) :
  quiet h -> (BarState.peak s <= 1)%Q ->
  (BarState.peak (BarState.frame (Some h) s) <= 1)%Q.
Proof.
  intros [H0 H1] Hs. unfold BarState.frame, BarState.reset.
  destruct (Qle_bool (BarState.peak s) h).
  - rewrite decay_low; simpl; assumption.
  - rewrite decay_low; assumption.
Qed.

Lemma quiet_frame_fall (h : Q) (s : BarState.t) :
  quiet h -> (1 < BarState.peak s)%Q -> BarState.hold s = 0 ->
  BarState.frame (Some h) s
  = BarState.mk (BarState.peak s - inject_Z (BarState.accel s + 1)) 0
                (BarState.accel s + 1).
Proof.
  intros [H0 H1] Hs Hh. unfold BarState.frame.
  rewrite reset_lt by qlra. apply decay_fall; assumption.
Qed.

Lemma quiet_run_closed (P : Q) (hs : list Q) :
  Forall quiet hs ->
  forall (s : BarState.t) (j : nat),
    (BarState.peak s == P - inject_Z (fallen j))%Q ->
    BarState.accel s = Z.of_nat j -> BarState.hold s = 0 ->
    (hs = [] \/ (1 < P - inject_Z (fallen (j + length hs - 1)))%Q) ->
    (BarState.peak (BarState.run hs s) == P - inject_Z (fallen (j + length hs)))%Q /\
    BarState.accel (BarState.run hs s) = Z.of_nat (j + length hs) /\
    BarState.hold (BarState.run hs s) = 0.
Proof.
  induction 1 as [|h hs Hh Hrest IH]; intros s j Hp Ha Hhold Hhigh.
  - simpl. rewrite Nat.add_0_r. auto.
  - destruct Hhigh as [Hnil|Hhigh]; [discriminate Hnil|].
    simpl length in *.
    assert (Hs : (1 < BarState.peak s)%Q).
    { rewrite Hp.
      pose proof (fallen_mono j (j + S (length hs) - 1) ltac:(lia)) as Hm.
      rewrite Zle_Qle in Hm. qlra. }
    change (BarState.run (h :: hs) s)
      with (BarState.run hs (BarState.frame (Some h) s)).
    rewrite (quiet_frame_fall h s Hh Hs Hhold).
    replace (j + S (length hs))%nat with (S j + length hs)%nat by lia.
    apply IH.
    + simpl BarState.peak. rewrite Hp, Ha. cbn [fallen].
      rewrite Nat2Z.inj_succ. unfold Z.succ. rewrite !inject_Z_plus. ring.
    + simpl. lia.
    + reflexivity.
    + destruct hs as [|h' hs']; [left; reflexivity|right].
      replace (S j + length (h' :: hs') - 1)%nat
        with (j + S (length (h' :: hs')) - 1)%nat by lia.
      exact Hhigh.
Qed.

Lemma quiet_run_low (hs : list Q) :
  Forall quiet hs ->
  forall s : BarState.t, (BarState.peak s <= 1)%Q ->
    (BarState.peak (BarState.run hs s) <= 1)%Q.
Proof.
  induction 1 as [|h hs Hh _ IH]; intros s Hs; [exact Hs|].
  change (BarState.run (h :: hs) s)
    with (BarState.run hs (BarState.frame (Some h) s)).
  apply IH, quiet_frame_low; assumption.
Qed.

Lemma quiet_run_inv (P : Q) (hs : list Q) :
  Forall quiet hs ->
  forall (s : BarState.t) (j : nat),
    (BarState.peak s <= 1)%Q \/
    ((BarState.peak s == P - inject_Z (fallen j))%Q /\
     BarState.accel s = Z.of_nat j /\ BarState.hold s = 0) ->
    (BarState.peak (BarState.run hs s) <= 1)%Q \/
    ((BarState.peak (BarState.run hs s) == P - inject_Z (fallen (j + length hs)))%Q /\
     BarState.accel (BarState.run hs s) = Z.of_nat (j + length hs) /\
     BarState.hold (BarState.run hs s) = 0).
Proof.
  induction 1 as [|h hs Hh Hrest IH]; intros s j Hs.
  - simpl. rewrite Nat.add_0_r. exact Hs.
  - change (BarState.run (h :: hs) s)
      with (BarState.run hs (BarState.frame (Some h) s)).
    simpl length. replace (j + S (length hs))%nat with (S j + length hs)%nat by lia.
    apply IH.
    destruct Hs as [Hlow|(Hp & Ha & Hhold)].
    + left. apply quiet_frame_low; assumption.
    + destruct (Qlt_le_dec 1 (BarState.peak s)) as [Hhigh|Hlow].
      * right. rewrite (quiet_frame_fall h s Hh Hhigh Hhold). simpl.
        split; [|split; [lia | reflexivity]].
        rewrite Hp, Ha. cbn [fallen].
        rewrite Nat2Z.inj_succ. unfold Z.succ. rewrite !inject_Z_plus. ring.
      * left. apply quiet_frame_low; assumption.
Qed.

(** X6.  How a bar peak falls.  Take a peak at the end of its hold
    ([hold = 0], [accel = 0]) and frames whose bar heights stay in
    [0, 1].  As long as the peak was above 1 on every previous frame it
    has fallen by [1 + 2 + ... + k = k (k + 1) / 2] after [k] frames;
    and from the first [k] with [peak - k (k + 1) / 2 <= 1] on, the
    stored peak is at most 1, so that no peak is drawn any more; no call
    brings it above 1 again while the heights stay in [0, 1]. *)
Theorem bar_peak_falls (s : BarState.t) (hs : list Q) (k : nat) :
  BarState.hold s = 0 -> BarState.accel s = 0 -> Forall quiet hs ->
  2 * fallen k = Z.of_nat k * (Z.of_nat k + 1) /\
  ((hs = [] \/ (1 < BarState.peak s - inject_Z (fallen (length hs - 1)))%Q) ->
     (BarState.peak (BarState.run hs s)
      == BarState.peak s - inject_Z (fallen (length hs)))%Q /\
     BarState.accel (BarState.run hs s) = Z.of_nat (length hs)) /\
  ((BarState.peak s - inject_Z (fallen k) <= 1)%Q -> (k <= length hs)%nat ->
     (BarState.peak (BarState.run hs s) <= 1)%Q).
Proof.
  intros Hhold Hacc Hq. split; [apply fallen_closed|]. split.
  - intro Hhigh.
    destruct (quiet_run_closed (BarState.peak s) hs Hq s 0%nat) as (Hp & Ha & _).
    + simpl. ring.
    + exact Hacc.
    + exact Hhold.
    + exact Hhigh.
    + split; [exact Hp | exact Ha].
  - intros Hk Hlen.
    destruct (quiet_run_inv (BarState.peak s) hs Hq s 0%nat) as [Hlow|(Hp & _ & _)].
    + right. split; [simpl; ring|]. split; [exact Hacc | exact Hhold].
    + exact Hlow.
    + rewrite Hp. simpl Nat.add.
      pose proof (fallen_mono k (length hs) Hlen) as Hm.
      rewrite Zle_Qle in Hm. qlra.
Qed.

Lemma bar_peak_falls_witness :
  (BarState.peak (BarState.run (repeat 0%Q 14) (BarState.mk 100 0 0)) <= 1)%Q.
Proof.
  refine (proj2 (proj2 (bar_peak_falls (BarState.mk 100 0 0) (repeat 0%Q 14) 14
                          eq_refl eq_refl _)) _ _).
  - repeat constructor; vm_compute; discriminate.
  - vm_compute; discriminate.
  - simpl; lia.
Defined.

End Decay.

(** ** The geometry computed by [_calcAux] *)

Section AuxGeometry.

Lemma Qtrunc_nonneg (x : Q) : (0 <= x)%Q -> Qtrunc x = Qfloor x.
Proof.
  intro Hx. destruct x as [n d]. unfold Qtrunc, Qfloor. simpl.
  apply Z.quot_div_nonneg; [|lia].
  unfold Qle in Hx. simpl in Hx. lia.
Qed.

Lemma to_int32_floor (x : Q) :
  (0 <= x)%Q -> (x < inject_Z (2 ^ 31))%Q -> to_int32 x = Qfloor x.
Proof.
  intros H0 H1. unfold to_int32. rewrite (Qtrunc_nonneg x H0).
  apply wrap32_small. split.
  - pose proof (Qfloor_resp_le 0 x H0) as H. change (Qfloor 0) with 0 in H. lia.
  - pose proof (Qfloor_le x) as H.
    assert (H2 : (inject_Z (Qfloor x) < inject_Z (2 ^ 31))%Q) by qlra.
    rewrite <- Zlt_Qlt in H2. exact H2.
Qed.

Lemma Qtrunc_inject (z : Z) : Qtrunc (inject_Z z - 0) = z.
Proof. unfold Qtrunc. simpl. rewrite Z.quot_1_r. lia. Qed.

Lemma Qtrunc_half (z : Z) : 1 <= z -> Qtrunc (inject_Z z - (1 # 2)) = z - 1.
Proof.
  intro Hz. unfold Qtrunc. simpl.
  rewrite Z.quot_div_nonneg by lia.
  replace (z * 2 + -1) with ((z - 1) * 2 + 1) by lia.
  rewrite Z.div_add_l by lia. reflexivity.
Qed.

Lemma js_shr_0 (z : Z) : - 2 ^ 31 <= z < 2 ^ 31 -> js_shr z 0 = z.
Proof. intro Hz. unfold js_shr. rewrite wrap32_small by exact Hz. reflexivity. Qed.

Lemma js_shr_1 (z : Z) : - 2 ^ 31 <= z < 2 ^ 31 -> js_shr z 1 = z / 2.
Proof.
  intro Hz. unfold js_shr. rewrite wrap32_small by exact Hz.
  change (1 mod 32) with 1. rewrite Z.shiftr_div_pow2 by lia. reflexivity.
Qed.

Lemma scaled_height (c : Z) (r : Q) :
  0 <= c < 2 ^ 31 -> (0 <= r <= 1)%Q ->
  0 <= to_int32 (inject_Z c * r) <= c.
Proof.
  intros Hc [Hr0 Hr1].
  assert (Hq : (0 <= inject_Z c)%Q) by (rewrite <- (Zle_Qle 0); lia).
  assert (H0 : (0 <= inject_Z c * r)%Q) by (apply Qmult_le_0_compat; assumption).
  assert (H1 : (inject_Z c * r <= inject_Z c)%Q).
  { assert (H : (0 <= inject_Z c * (1 - r))%Q) by (apply Qmult_le_0_compat; qlra). qlra. }
  assert (H2 : (inject_Z c < inject_Z (2 ^ 31))%Q) by (rewrite <- Zlt_Qlt; lia).
  rewrite to_int32_floor by qlra.
  split.
  - pose proof (Qfloor_resp_le 0 _ H0) as H. exact H.
  - pose proof (Qfloor_resp_le _ _ H1) as H. rewrite Qfloor_Z in H. exact H.
Qed.

(** X7.  The channel areas computed by [_calcAux] tile the canvas.
    For a canvas height [1 <= h < 2^31] and a reflex ratio in [0, 1):
    with one channel area (mono, or radial) the channel is the whole
    canvas and there is no gap; with two channel areas (stereo, not
    radial) twice the channel height plus the gap is exactly [h], so
    that the second channel of [_draw], which starts at
    [channelHeight + channelGap], ends on the last row, and the gap is 1
    for an odd and 2 for an even height, or [h mod 2] in a LED display;
    the analyzer area lies inside the channel,
    [0 <= analyzerHeight <= channelHeight], and fills it when there is
    no reflex; and the radius of the radial display is at most half the
    height. *)
Theorem calcAux_geometry (e : Env) (p : Props) (barWidth : jsnum) :
  1 <= canvas_height e < 2 ^ 31 -> (0 <= _reflexRatio p)%Q -> (_reflexRatio p < 1)%Q ->
  let x := aux_of e p barWidth in
  let h := canvas_height e in
  (_stereo p && negb (_radial p) = false ->
     _channelHeight x = h /\ _channelGap x = 0) /\
  (_stereo p && negb (_radial p) = true ->
     2 * _channelHeight x + _channelGap x = h /\
     _channelGap x = if _isLedDisplay x then h mod 2 else 2 - h mod 2) /\
  0 <= _analyzerHeight x <= _channelHeight x /\
  ((_reflexRatio p == 0)%Q -> _analyzerHeight x = _channelHeight x) /\
  0 <= _radius x <= js_shr h 1.
Proof.
  intros Hh Hr0 Hr1 x h. subst x. fold h in Hh.
  unfold aux_of. fold h. cbv zeta.
  cbn [_channelHeight _channelGap _analyzerHeight _isLedDisplay _radius].
  set (isLed := _showLeds p && negb (Z.rem (_mode p) 10 =? 0) && negb (_radial p)).
  set (isLumi := _lumiBars p && negb (Z.rem (_mode p) 10 =? 0) && negb (_radial p)).
  set (ch := js_shr (Qtrunc (inject_Z h
                    - (if _stereo p && negb (_radial p) && negb isLed then 1 # 2 else 0)))
           (bool_to_Z (_stereo p && negb (_radial p)))).
  assert (Hch : (_stereo p && negb (_radial p) = false -> ch = h) /\
                (_stereo p && negb (_radial p) = true ->
                 ch = if isLed then h / 2 else (h - 1) / 2)).
  { subst ch. destruct (_stereo p && negb (_radial p)); split; intro E;
      try discriminate E.
    - destruct isLed; simpl andb; cbv iota.
      + rewrite Qtrunc_inject. apply js_shr_1. lia.
      + rewrite Qtrunc_half by lia. apply js_shr_1. lia.
    - simpl andb. cbv iota. rewrite Qtrunc_inject. apply js_shr_0. lia. }
  destruct Hch as [Hmono Hdual].
  assert (Hrange : 0 <= ch <= h).
  { destruct (_stereo p && negb (_radial p)) eqn:E.
    - rewrite (Hdual eq_refl). destruct isLed.
      + split; [apply Z.div_pos; lia | apply Z.div_le_upper_bound; lia].
      + split; [apply Z.div_pos; lia | apply Z.div_le_upper_bound; lia].
    - rewrite (Hmono eq_refl). lia. }
  split; [|split; [|split; [|split]]].
  - intro E. rewrite E. split; [apply Hmono; exact E | reflexivity].
  - intro E. rewrite E. rewrite (Hdual E).
    destruct isLed.
    + pose proof (Z.div_mod h 2 ltac:(lia)). split; lia.
    + pose proof (Z.div_mod h 2 ltac:(lia)) as H1.
      pose proof (Z.div_mod (h - 1) 2 ltac:(lia)) as H2.
      pose proof (Z.mod_pos_bound h 2 ltac:(lia)) as H3.
      pose proof (Z.mod_pos_bound (h - 1) 2 ltac:(lia)) as H4.
      assert (H5 : (h - 1) mod 2 = 1 - h mod 2).
      { rewrite <- (Z.mod_small (1 - h mod 2) 2) by lia.
        replace (h - 1) with ((1 - h mod 2) + (h / 2 + h mod 2 - 1) * 2) by lia.
        rewrite Z.mod_add by lia. reflexivity. }
      split; lia.
  - apply scaled_height; [lia|].
    destruct (isLumi || _radial p); split; qlra.
  - intro Hz.
    assert (E : (inject_Z ch * (if isLumi || _radial p then 1 else 1 - _reflexRatio p)
                 == inject_Z ch)%Q).
    { destruct (isLumi || _radial p); [ring | rewrite Hz; ring]. }
    assert (Hq : (0 <= inject_Z ch)%Q) by (rewrite <- (Zle_Qle 0); lia).
    assert (H2 : (inject_Z ch < inject_Z (2 ^ 31))%Q) by (rewrite <- Zlt_Qlt; lia).
    rewrite to_int32_floor.
    + rewrite (Qfloor_comp _ _ E). apply Qfloor_Z.
    + rewrite E. exact Hq.
    + rewrite E. exact H2.
  - rewrite js_shr_1 by lia.
    assert (Hq : (0 <= inject_Z h)%Q) by (rewrite <- (Zle_Qle 0); lia).
    assert (H2 : (inject_Z h < inject_Z (2 ^ 31))%Q) by (rewrite <- Zlt_Qlt; lia).
    set (f := if _stereo p then (375 # 1000)%Q else (125 # 1000)%Q).
    assert (Hf : (0 <= f)%Q /\ (f <= 1 # 2)%Q)
      by (subst f; destruct (_stereo p); split; vm_compute; discriminate).
    destruct Hf as [Hf0 Hf1].
    assert (H0 : (0 <= inject_Z h * f)%Q) by (apply Qmult_le_0_compat; assumption).
    assert (H1 : (inject_Z h * f <= inject_Z h / 2)%Q).
    { assert (H : (0 <= inject_Z h * ((1 # 2) - f))%Q)
        by (apply Qmult_le_0_compat; qlra).
      unfold Qdiv. change (/ 2)%Q with (1 # 2)%Q. qlra. }
    assert (H3 : (inject_Z h / 2 <= inject_Z h)%Q).
    { unfold Qdiv. change (/ 2)%Q with (1 # 2)%Q. qlra. }
    rewrite to_int32_floor by qlra.
    split.
    + exact (Qfloor_resp_le 0 _ H0).
    + rewrite (Zdiv_Qdiv h 2). apply Qfloor_resp_le. exact H1.
Qed.

Lemma calcAux_geometry_witness :
  2 * _channelHeight (aux_of default_env
                        (mk_props 1 20 22000 (3 # 10) (1 # 10) true false false false
                                  None "classic") (Fin 1))
  + _channelGap (aux_of default_env
                   (mk_props 1 20 22000 (3 # 10) (1 # 10) true false false false
                             None "classic") (Fin 1))
  = 270.
Proof.
  refine (proj1 (proj1 (proj2 (calcAux_geometry default_env
            (mk_props 1 20 22000 (3 # 10) (1 # 10) true false false false
                      None "classic") (Fin 1) _ _ _)) _)).
  - simpl. lia.
  - vm_compute; discriminate.
  - reflexivity.
  - reflexivity.
Defined.

End AuxGeometry.

(** ** The LED attributes of the built-in table *)

Section DefaultLeds.




End DefaultLeds.

(** ** The height of a bar in pixels *)

Section BarHeight.

Lemma scaled_value (v : Q) (c : Z) :
  0 <= c < 2 ^ 31 -> (0 <= v <= 1)%Q ->
  to_int32 (v * inject_Z c) = Qfloor (v * inject_Z c) /\
  0 <= to_int32 (v * inject_Z c) <= c /\
  ((v == 1)%Q -> to_int32 (v * inject_Z c) = c) /\
  ((v == 0)%Q -> to_int32 (v * inject_Z c) = 0).
Proof.
  intros Hc [Hv0 Hv1].
  assert (Hq : (0 <= inject_Z c)%Q) by (rewrite <- (Zle_Qle 0); lia).
  assert (H0 : (0 <= v * inject_Z c)%Q) by (apply Qmult_le_0_compat; assumption).
  assert (H1 : (v * inject_Z c <= inject_Z c)%Q).
  { assert (H : (0 <= (1 - v) * inject_Z c)%Q) by (apply Qmult_le_0_compat; qlra). qlra. }
  assert (H2 : (inject_Z c < inject_Z (2 ^ 31))%Q) by (rewrite <- Zlt_Qlt; lia).
  assert (E : to_int32 (v * inject_Z c) = Qfloor (v * inject_Z c))
    by (apply to_int32_floor; qlra).
  rewrite E. split; [reflexivity|]. split; [|split].
  - split.
    + exact (Qfloor_resp_le 0 _ H0).
    + pose proof (Qfloor_resp_le _ _ H1) as H. rewrite Qfloor_Z in H. exact H.
  - intro E1. rewrite (Qfloor_comp _ (inject_Z c)) by (rewrite E1; ring).
    apply Qfloor_Z.
  - intro E0. rewrite (Qfloor_comp _ (inject_Z 0)) by (rewrite E0; ring).
    apply Qfloor_Z.
Qed.

(** X9.  Outside the LED display the height of a bar is a whole number
    of pixels inside the drawing area: for a value [v] in [0, 1],
    [barHeight] is an integer between 0 and the analyzer height (in
    radial mode: between 0 and [centerY - radius]), it is the whole area
    for [v = 1] and 0 for [v = 0]. *)
Theorem bar_height_within_area (a : Analyzer) (v : Q) :
  _isLedDisplay (aux a) = false -> (0 <= v <= 1)%Q ->
  0 <= (if _radial (props a)
        then js_shr (canvas_height (env a)) 1 - _radius (aux a)
        else _analyzerHeight (aux a)) < 2 ^ 31 ->
  exists k : Z,
    bar_height a v = Some (inject_Z k) /\
    0 <= k <= (if _radial (props a)
               then js_shr (canvas_height (env a)) 1 - _radius (aux a)
               else _analyzerHeight (aux a)) /\
    ((v == 1)%Q ->
       k = if _radial (props a)
           then js_shr (canvas_height (env a)) 1 - _radius (aux a)
           else _analyzerHeight (aux a)) /\
    ((v == 0)%Q -> k = 0).
Proof.
  intros Hled Hv Hlimit. unfold bar_height. rewrite Hled. cbv zeta.
  set (limit := if _radial (props a)
                then js_shr (canvas_height (env a)) 1 - _radius (aux a)
                else _analyzerHeight (aux a)) in *.
  destruct (scaled_value v limit Hlimit Hv) as (_ & Hr & H1 & H0).
  exists (to_int32 (v * inject_Z limit)). auto.
Qed.

Lemma bar_height_within_area_witness :
  exists k : Z,
    bar_height default_analyzer (1 # 2) = Some (inject_Z k) /\ 0 <= k <= 270.
Proof.
  destruct (bar_height_within_area default_analyzer (1 # 2)) as (k & Hk & Hr & _).
  - reflexivity.
  - split; vm_compute; discriminate.
  - vm_compute. split; [discriminate | reflexivity].
  - exists k. split; [exact Hk | exact Hr].
Defined.



End BarHeight.

(** ** The colour stops of [_makeGrad] *)

Section MakeGrad.

Lemma Forall_concat_imap {A B} (P : B -> Prop) (l : list A) :
  forall f : nat -> A -> list B,
    (forall i x, l !! i = Some x -> Forall P (f i x)) ->
    Forall P (concat (imap f l)).
Proof.
  induction l as [|x l IH]; intros f Hf; [constructor|].
  cbn [imap concat]. apply Forall_app. split.
  - apply (Hf 0%nat x). reflexivity.
  - apply IH. intros i y Hy. apply (Hf (S i) y). exact Hy.
Qed.

Lemma stop_offset_unit (c : ColorStop) (index maxIndex : Z) :
  valid_stop c -> 0 <= index <= maxIndex -> 1 <= maxIndex ->
  exists q, stop_offset c index maxIndex = Fin q /\ (0 <= q <= 1)%Q.
Proof.
  intros Hc Hi Hm. destruct c as [s|pos s]; simpl.
  - unfold js_div.
    assert (Hq : (1 <= inject_Z maxIndex)%Q) by (rewrite <- (Zle_Qle 1); lia).
    destruct (Qeq_bool (inject_Z maxIndex) 0) eqn:E.
    { apply Qeq_bool_iff in E. qlra. }
    eexists. split; [reflexivity|]. split.
    + apply Qle_shift_div_l; [qlra|]. rewrite Qmult_0_l. rewrite <- (Zle_Qle 0). lia.
    + apply Qle_shift_div_r; [qlra|]. rewrite Qmult_1_l. rewrite <- Zle_Qle. lia.
  - exists pos. split; [reflexivity | exact Hc].
Qed.

Ltac stop_ok :=
  eexists; split; [reflexivity|]; split; qlra.

Ltac split_gt :=
  match goal with
  | |- context [Qlt_bool ?x ?y] =>
      let E := fresh "E" in
      destruct (Qlt_bool x y) eqn:E;
      [apply Qlt_bool_iff in E | apply Qlt_bool_false in E]
  end.

Lemma grad_callback_offsets
    (stereo dual radial isLumiBars isHorizontal : bool) (reflexRatio : Q)
    (stops : list ColorStop) (channel index : nat) (c : ColorStop) :
  (0 <= reflexRatio)%Q -> (reflexRatio < 1)%Q ->
  (2 <= length stops)%nat -> Forall valid_stop stops ->
  stops !! index = Some c ->
  (dual = true -> stereo = true /\ isHorizontal = false) ->
  (channel = 0%nat \/ channel = 1%nat /\ dual = true) ->
  Forall (offset_between (if (channel =? 1)%nat then 1 # 2 else 0)
                         (if dual && (channel =? 0)%nat then 1 # 2 else 1))
         (grad_callback stereo dual radial isLumiBars isHorizontal reflexRatio
                        stops channel index c).
Proof.
  intros Hr0 Hr1 Hlen Hvalid Hc Hdual Hchannel.
  pose proof (lookup_lt_Some _ _ _ Hc) as Hidx.
  assert (Hcv : valid_stop c).
  { rewrite Forall_lookup in Hvalid. exact (Hvalid _ _ Hc). }
  set (maxIndex := Z.of_nat (length stops) - 1).
  destruct (stop_offset_unit c (Z.of_nat index) maxIndex Hcv
              ltac:(subst maxIndex; lia) ltac:(subst maxIndex; lia))
    as (q & Eq & Hq0 & Hq1).
  set (c' := default c (stops !! Z.to_nat (maxIndex - Z.of_nat index))).
  assert (Hc'v : valid_stop c').
  { subst c'. destruct (stops !! Z.to_nat (maxIndex - Z.of_nat index)) as [y|] eqn:Ey;
      simpl; [|exact Hcv].
    rewrite Forall_lookup in Hvalid. exact (Hvalid _ _ Ey). }
  destruct (stop_offset_unit c' (maxIndex - Z.of_nat index) maxIndex Hc'v
              ltac:(subst maxIndex; lia) ltac:(subst maxIndex; lia))
    as (q' & Eq' & Hq'0 & Hq'1).
  assert (Hp1 : (0 <= q * reflexRatio)%Q) by (apply Qmult_le_0_compat; qlra).
  assert (Hp2 : (0 <= (1 - q) * reflexRatio)%Q) by (apply Qmult_le_0_compat; qlra).
  assert (Hp3 : (0 <= q * (1 - reflexRatio))%Q) by (apply Qmult_le_0_compat; qlra).
  assert (Hp4 : (0 <= (1 - q) * (1 - reflexRatio))%Q) by (apply Qmult_le_0_compat; qlra).
  unfold grad_callback. fold maxIndex. cbv zeta. fold c'. rewrite Eq, Eq'.
  unfold offset_between.
  destruct Hchannel as [->|[-> Hd]].
  - (* first channel *)
    change (0 =? 1)%nat with false. change (0 =? 0)%nat with true. cbv iota.
    destruct dual.
    + destruct (Hdual eq_refl) as [-> ->].
      destruct isLumiBars, radial; simpl; repeat split_gt;
        destruct (Z.of_nat index =? maxIndex); simpl;
        repeat split_gt; repeat constructor; simpl; try stop_ok.
    + destruct stereo, isLumiBars, radial, isHorizontal; simpl; repeat split_gt;
        destruct (Z.of_nat index =? maxIndex); simpl;
        repeat split_gt; repeat constructor; simpl; try stop_ok.
  - (* second channel *)
    subst dual. destruct (Hdual eq_refl) as [-> ->].
    change (1 =? 1)%nat with true. change (1 =? 0)%nat with false. cbv iota.
    destruct isLumiBars, radial; simpl; repeat split_gt;
      destruct (index =? 0)%nat; simpl;
      destruct (Z.of_nat index =? maxIndex); simpl;
      repeat split_gt; repeat constructor; simpl; try stop_ok.
Qed.

Lemma offset_between_weaken (lo hi lo' hi' : Q) (stop : jsnum * string) :
  (lo' <= lo)%Q -> (hi <= hi')%Q ->
  offset_between lo hi stop -> offset_between lo' hi' stop.
Proof.
  intros Hlo Hhi (q & Eq & Hq). exists q. split; [exact Eq | qlra].
Qed.

Lemma is_dual_true (stereo splitGradient : bool) (g : Gradient) :
  is_dual stereo splitGradient g = true ->
  stereo = true /\ is_horizontal g = false.
Proof.
  unfold is_dual. destruct stereo, splitGradient, (is_horizontal g);
    simpl; intro H; try discriminate H; auto.
Qed.

Lemma channel_stops_offsets
    (stereo splitGradient radial isLumiBars : bool) (reflexRatio : Q)
    (g : Gradient) (channel : nat) :
  (0 <= reflexRatio)%Q -> (reflexRatio < 1)%Q ->
  (2 <= length (colorStops g))%nat -> Forall valid_stop (colorStops g) ->
  (channel = 0%nat \/ channel = 1%nat /\ is_dual stereo splitGradient g = true) ->
  Forall (offset_between
            (if (channel =? 1)%nat then 1 # 2 else 0)
            (if is_dual stereo splitGradient g && (channel =? 0)%nat
             then 1 # 2 else 1))
         (channel_stops stereo splitGradient radial isLumiBars reflexRatio g channel).
Proof.
  intros Hr0 Hr1 Hlen Hvalid Hchannel. unfold channel_stops.
  apply Forall_concat_imap. intros i c Hc.
  apply grad_callback_offsets; try assumption.
  apply is_dual_true.
Qed.

(** X11.  Every offset that [_makeGrad] hands to [addColorStop] is a
    finite number of [0, 1], in every combination of stereo, split
    gradient, radial, luminance bars and gradient direction, for a
    reflex ratio in [0, 1) and a gradient of at least two colour stops
    (what [registerGradient] requires) whose positions, where given, lie
    in [0, 1]: the reflex and channel adjustments never push a stop out
    of the gradient. *)
Theorem makeGrad_offsets_accepted
    (stereo splitGradient radial isLumiBars : bool) (reflexRatio : Q)
    (g : Gradient) :
  (0 <= reflexRatio)%Q -> (reflexRatio < 1)%Q ->
  (2 <= length (colorStops g))%nat -> Forall valid_stop (colorStops g) ->
  Forall (offset_between 0 1)
         (makeGrad_stops stereo splitGradient radial isLumiBars reflexRatio g).
Proof.
  intros Hr0 Hr1 Hlen Hvalid. unfold makeGrad_stops.
  assert (H0 : Forall (offset_between 0 1)
                 (channel_stops stereo splitGradient radial isLumiBars reflexRatio g 0)).
  { eapply List.Forall_impl;
      [|exact (channel_stops_offsets stereo splitGradient radial isLumiBars
                 reflexRatio g 0 Hr0 Hr1 Hlen Hvalid (or_introl eq_refl))].
    intro stop. apply offset_between_weaken.
    - apply Qle_refl.
    - destruct (is_dual stereo splitGradient g); vm_compute; discriminate. }
  destruct (is_dual stereo splitGradient g) eqn:Ed; simpl; rewrite app_nil_r.
  - apply Forall_app. split; [exact H0|].
    eapply List.Forall_impl;
      [|exact (channel_stops_offsets stereo splitGradient radial isLumiBars
                 reflexRatio g 1 Hr0 Hr1 Hlen Hvalid (or_intror (conj eq_refl Ed)))].
    intro stop. apply offset_between_weaken.
    + vm_compute; discriminate.
    + rewrite Ed. apply Qle_refl.
  - exact H0.
Qed.

Lemma makeGrad_offsets_accepted_witness :
  Forall (offset_between 0 1)
         (makeGrad_stops true false false false (3 # 10)
            (mk_gradient "#111" None
               [Color "red"; ColorAt (6 # 10) "yellow"; Color "green"])).
Proof.
  apply makeGrad_offsets_accepted.
  - vm_compute; discriminate.
  - reflexivity.
  - simpl; lia.
  - repeat constructor; vm_compute; discriminate.
Defined.

(** X12.  In dual mode (stereo, gradient not split and not horizontal)
    the stops are those of the first channel followed by those of the
    second, and each channel keeps to its half of the gradient: every
    offset of the first channel lies in [0, 1/2] and every offset of the
    second in [1/2, 1], so that no colour of one channel bleeds into the
    other. *)
Theorem makeGrad_dual_halves
    (stereo splitGradient radial isLumiBars : bool) (reflexRatio : Q)
    (g : Gradient) :
  (0 <= reflexRatio)%Q -> (reflexRatio < 1)%Q ->
  (2 <= length (colorStops g))%nat -> Forall valid_stop (colorStops g) ->
  is_dual stereo splitGradient g = true ->
  makeGrad_stops stereo splitGradient radial isLumiBars reflexRatio g
  = channel_stops stereo splitGradient radial isLumiBars reflexRatio g 0
    ++ channel_stops stereo splitGradient radial isLumiBars reflexRatio g 1 /\
  Forall (offset_between 0 (1 # 2))
         (channel_stops stereo splitGradient radial isLumiBars reflexRatio g 0) /\
  Forall (offset_between (1 # 2) 1)
         (channel_stops stereo splitGradient radial isLumiBars reflexRatio g 1).
Proof.
  intros Hr0 Hr1 Hlen Hvalid Ed. split; [|split].
  - unfold makeGrad_stops. rewrite Ed. simpl. rewrite app_nil_r. reflexivity.
  - pose proof (channel_stops_offsets stereo splitGradient radial isLumiBars
                  reflexRatio g 0 Hr0 Hr1 Hlen Hvalid (or_introl eq_refl)) as H.
    rewrite Ed in H. exact H.
  - pose proof (channel_stops_offsets stereo splitGradient radial isLumiBars
                  reflexRatio g 1 Hr0 Hr1 Hlen Hvalid (or_intror (conj eq_refl Ed))) as H.
    rewrite Ed in H. exact H.
Qed.

Lemma makeGrad_dual_halves_witness :
  Forall (offset_between (1 # 2) 1)
         (channel_stops true false true false (3 # 10)
            (mk_gradient "#111" None
               [Color "red"; ColorAt (6 # 10) "yellow"; Color "green"]) 1).
Proof.
  refine (proj2 (proj2 (makeGrad_dual_halves true false true false (3 # 10)
            (mk_gradient "#111" None
               [Color "red"; ColorAt (6 # 10) "yellow"; Color "green"])
            _ _ _ _ _))).
  - vm_compute; discriminate.
  - reflexivity.
  - simpl; lia.
  - repeat constructor; vm_compute; discriminate.
  - reflexivity.
Defined.

Lemma concat_imap_singleton {A B} (l : list A) :
  forall (f : nat -> A -> list B) (g : nat -> A -> B),
    (forall i x, l !! i = Some x -> f i x = [g i x]) ->
    concat (imap f l) = imap g l.
Proof.
  induction l as [|x l IH]; intros f g Hfg; [reflexivity|].
  cbn [imap concat]. rewrite (Hfg 0%nat x eq_refl). simpl. f_equal.
  apply IH. intros i y Hy. apply (Hfg (S i) y). exact Hy.
Qed.

Lemma makeGrad_stops_mono (splitGradient radial isLumiBars : bool)
    (reflexRatio : Q) (g : Gradient) :
  makeGrad_stops false splitGradient radial isLumiBars reflexRatio g
  = imap (fun i c => (stop_offset c (Z.of_nat i) (Z.of_nat (length (colorStops g)) - 1),
                      stop_color c))
         (colorStops g).
Proof.
  unfold makeGrad_stops, is_dual. simpl. rewrite app_nil_r.
  unfold channel_stops. apply concat_imap_singleton.
  intros i c _. unfold grad_callback, is_dual. simpl. reflexivity.
Qed.

Lemma addColorStops_accepted (css_color : string -> bool)
    (stops : list (jsnum * string)) :
  Forall (offset_between 0 1) stops ->
  Forall (fun stop => css_color (snd stop) = true) stops ->
  addColorStops css_color stops = None.
Proof.
  induction 1 as [|stop stops (q & Eq & Hq0 & Hq1) _ IH]; intro Hc; [reflexivity|].
  inversion Hc as [|? ? Hc1 Hc2]; subst.
  cbn [addColorStops]. unfold addColorStop. rewrite Eq, Hc1.
  assert (E0 : Qlt_bool q 0 = false) by (apply Qlt_bool_false; exact Hq0).
  assert (E1 : Qlt_bool 1 q = false) by (apply Qlt_bool_false; exact Hq1).
  rewrite E0, E1. cbn [orb]. apply IH. exact Hc2.
Qed.

Lemma registered_stops_accepted (css_color : string -> bool) (stops : list ColorStop) :
  (2 <= length stops)%nat -> Forall valid_stop stops ->
  Forall (fun c => css_color (stop_color c) = true) stops ->
  addColorStops css_color
    (imap (fun i c => (stop_offset c (Z.of_nat i) (Z.of_nat (length stops) - 1),
                       stop_color c))
          stops)
  = None.
Proof.
  intros Hlen Hvalid Hcolors. apply addColorStops_accepted.
  - apply Forall_forall. intros stop Hin.
    apply list_elem_of_In, elem_of_lookup_imap in Hin.
    destruct Hin as (i & c & -> & Hc).
    assert (Hi : (i < length stops)%nat) by (apply lookup_lt_is_Some; eauto).
    assert (Hv : valid_stop c).
    { rewrite Forall_forall in Hvalid. apply Hvalid.
      apply list_elem_of_In. eapply list_elem_of_lookup_2. exact Hc. }
    destruct (stop_offset_unit c (Z.of_nat i) (Z.of_nat (length stops) - 1) Hv)
      as (q & Eq & Hq); [lia | lia |].
    exists q. split; [exact Eq | exact Hq].
  - apply Forall_forall. intros stop Hin.
    apply list_elem_of_In, elem_of_lookup_imap in Hin.
    destruct Hin as (i & c & -> & Hc). cbn [snd].
    rewrite Forall_forall in Hcolors. apply Hcolors.
    apply list_elem_of_In. eapply list_elem_of_lookup_2. exact Hc.
Qed.

(** X13.  Register, select, build.  Take a ready analyzer that is mono
    and not radial, with no gradient registered under the name
    ["hasOwnProperty"].  A gradient registered under a usable name with
    at least two colour stops, whose positions, where given, lie in
    [0, 1] and whose colours the canvas parses, can be selected at once:
    [set gradient] returns normally, and [_makeGrad] hands the canvas
    exactly the registered stops, in their order: each colour at its own
    [pos] when it has one and at [index / ( length - 1 )] otherwise,
    with no stop added, halved or moved.  A registered stop with a
    position outside [0, 1] is not refused by [registerGradient]; it
    makes the selection raise [IndexSizeError] once the gradient is
    selected. *)
Theorem register_select_build
    (css_color : string -> bool) (a : Analyzer) (s : string)
    (o : GradientOptions) (stops : list ColorStop) (splitGradient : bool) :
  _ready a = true -> _stereo (props a) = false -> _radial (props a) = false ->
  _gradients a !! "hasOwnProperty" = None ->
  is_blank s = false -> s <> "__proto__" -> s <> "hasOwnProperty" ->
  o_colorStops o = Some stops -> (2 <= length stops)%nat ->
  Forall (fun c => css_color (stop_color c) = true) stops ->
  let registered :=
    state_after (registerGradient (NameString s) (OptionsObject o) a) in
  let selected := set_gradient css_color splitGradient s registered in
  outcome (registerGradient (NameString s) (OptionsObject o) a) = Return tt /\
  _gradient (props (state_after selected)) = s /\
  _makeGrad splitGradient (state_after selected)
  = Some (imap (fun i c => (stop_offset c (Z.of_nat i) (Z.of_nat (length stops) - 1),
                            stop_color c))
               stops) /\
  (Forall valid_stop stops -> outcome selected = Return tt) /\
  (forall pos color, hd_error stops = Some (ColorAt pos color) ->
     (pos < 0)%Q \/ (1 < pos)%Q ->
     outcome selected = Throw IndexSizeError).
Proof.
  intros Hready Hmono Hflat Hown Hblank Hproto Hname Hstops Hlen Hcolors.
  assert (Hreg : registerGradient (NameString s) (OptionsObject o) a
                 = (with_gradients (store_gradient s (new_gradient o stops)
                                                   (_gradients a)) a,
                    Return tt)).
  { unfold registerGradient. rewrite Hblank, Hstops.
    destruct (Nat.ltb_spec (length stops) 2) as [Hlt|_]; [lia|]. reflexivity. }
  cbv zeta. rewrite Hreg. unfold state_after, outcome. cbn [fst snd].
  destruct (store_gradient_lookup s (new_gradient o stops) (_gradients a) Hproto)
    as [Hlook Hother].
  set (a1 := with_gradients (store_gradient s (new_gradient o stops) (_gradients a)) a).
  set (a2 := with_props (set__gradient s (props a1)) a1).
  assert (Hmk : _makeGrad splitGradient a2
                = Some (imap (fun i c =>
                                (stop_offset c (Z.of_nat i) (Z.of_nat (length stops) - 1),
                                 stop_color c))
                             stops)).
  { unfold _makeGrad. subst a2 a1.
    cbn [_ready _gradients props aux with_props with_gradients set__gradient
         _gradient _stereo _radial _reflexRatio].
    rewrite Hready, Hlook, Hmono. cbn [negb]. cbv iota.
    rewrite makeGrad_stops_mono. reflexivity. }
  assert (Hset : set_gradient css_color splitGradient s a1
                 = makeGrad_call css_color splitGradient a2).
  { unfold set_gradient. subst a2 a1. cbn [_gradients with_gradients].
    rewrite (Hother "hasOwnProperty") by congruence.
    rewrite Hown, Hlook. reflexivity. }
  assert (Hcall : makeGrad_call css_color splitGradient a2
                  = (a2, match addColorStops css_color
                                 (imap (fun i c =>
                                          (stop_offset c (Z.of_nat i)
                                                       (Z.of_nat (length stops) - 1),
                                           stop_color c))
                                       stops) with
                         | Some e => Throw e
                         | None => Return tt
                         end)).
  { unfold makeGrad_call. rewrite Hmk.
    assert (Er : _ready a2 = true) by exact Hready.
    assert (Ec : create_gradient a2 = None).
    { unfold create_gradient.
      assert (E : _radial (props a2) = false) by exact Hflat.
      rewrite E. reflexivity. }
    rewrite Er, Ec. cbn [negb].
    destruct (addColorStops css_color _); reflexivity. }
  rewrite Hset, Hcall. cbn [fst snd].
  split; [reflexivity|]. split; [reflexivity|]. split; [exact Hmk|]. split.
  - intro Hvalid.
    rewrite (registered_stops_accepted css_color stops Hlen Hvalid Hcolors).
    reflexivity.
  - intros pos color Hhd Hout.
    destruct stops as [|c rest]; [discriminate Hhd|].
    cbn [hd_error] in Hhd. injection Hhd as ->.
    cbn [imap addColorStops]. unfold addColorStop. cbn [fst stop_offset].
    assert (E : Qlt_bool pos 0 || Qlt_bool 1 pos = true).
    { destruct Hout as [H|H]; apply Qlt_bool_iff in H; rewrite H;
        [reflexivity | apply orb_true_r]. }
    rewrite E. reflexivity.
Qed.

Lemma register_select_build_witness :
  outcome (set_gradient (fun _ => true) false "fire"
             (state_after (registerGradient (NameString "fire")
                             (OptionsObject two_stops) default_analyzer)))
  = Return tt.
Proof.
  refine (proj1 (proj2 (proj2 (proj2 (register_select_build (fun _ => true)
            default_analyzer "fire"
            two_stops [Color "red"; Color "blue"] false _ _ _ _ _ _ _ _ _ _)))) _).
  - reflexivity.
  - reflexivity.
  - reflexivity.
  - rewrite (proj2 (proj2 (proj2 (proj2 default_analyzer_fields)))). reflexivity.
  - reflexivity.
  - discriminate.
  - discriminate.
  - reflexivity.
  - simpl; lia.
  - repeat constructor.
  - repeat constructor.
Defined.

End MakeGrad.

(** ** [getEnergy] on a range of frequencies *)

Section GetEnergyRange.

Lemma fft_byte_bounds (d : list Z) (i : Z) :
  byte_buffer d -> 0 <= i < Z.of_nat (length d) ->
  exists v, fft_byte d i = Some v /\ (0 <= v <= 255)%Q.
Proof.
  intros Hb Hi. unfold fft_byte.
  destruct (Z.ltb_spec i 0) as [Hneg|_]; [lia|].
  destruct (lookup_lt_is_Some_2 d (Z.to_nat i) ltac:(lia)) as [b Eb].
  rewrite Eb. simpl. exists (inject_Z b). split; [reflexivity|].
  unfold byte_buffer in Hb. rewrite Forall_lookup in Hb.
  specialize (Hb _ _ Eb). split.
  - rewrite <- (Zle_Qle 0). lia.
  - rewrite <- (Zle_Qle _ 255). lia.
Qed.

Lemma bins_sum_bounds (d : list Z) (l : list Z) :
  byte_buffer d -> Forall (fun i => 0 <= i < Z.of_nat (length d)) l ->
  forall acc : Q,
  exists e, fold_left
              (fun acc' i =>
                 match acc', fft_byte d i with
                 | Some e, Some v => Some (e + v)%Q
                 | _, _ => None
                 end) l (Some acc) = Some e /\
            (acc <= e <= acc + 255 * inject_Z (Z.of_nat (length l)))%Q.
Proof.
  intros Hb Hl. induction Hl as [|i l Hi _ IH]; intro acc.
  - exists acc. split; [reflexivity|].
    change (inject_Z (Z.of_nat (length (@nil Z)))) with 0%Q. split; qlra.
  - destruct (fft_byte_bounds d i Hb Hi) as (v & Ev & Hv).
    cbn [fold_left]. rewrite Ev.
    destruct (IH (acc + v)%Q) as (e & Ee & He).
    exists e. split; [exact Ee|].
    cbn [length]. rewrite Nat2Z.inj_succ. unfold Z.succ. rewrite inject_Z_succ.
    set (n := inject_Z (Z.of_nat (length l))) in *. qlra.
Qed.

Lemma channels_sum_bounds (fftData : list (list Z)) (l : list Z) (cs : list nat) :
  Forall (fun channel =>
            exists d, fftData !! channel = Some d /\ byte_buffer d /\
                      Forall (fun i => 0 <= i < Z.of_nat (length d)) l) cs ->
  forall acc : Q,
  exists e, fold_left
              (fun acc channel =>
                 fold_left
                   (fun acc' i =>
                      match acc', fft_byte (default [] (fftData !! channel)) i with
                      | Some e, Some v => Some (e + v)%Q
                      | _, _ => None
                      end) l acc) cs (Some acc) = Some e /\
            (acc <= e <= acc + 255 * inject_Z (Z.of_nat (length l))
                                   * inject_Z (Z.of_nat (length cs)))%Q.
Proof.
  induction 1 as [|channel cs (d & Ed & Hb & Hl) _ IH]; intro acc.
  - exists acc. split; [reflexivity|].
    change (inject_Z (Z.of_nat (length (@nil nat)))) with 0%Q. split; qlra.
  - cbn [fold_left]. rewrite Ed. simpl default.
    destruct (bins_sum_bounds d l Hb Hl acc) as (e1 & E1 & H1). rewrite E1.
    destruct (IH e1) as (e & Ee & He).
    exists e. split; [exact Ee|].
    cbn [length]. rewrite Nat2Z.inj_succ. unfold Z.succ. rewrite inject_Z_succ.
    set (n := inject_Z (Z.of_nat (length l))) in *.
    set (m := inject_Z (Z.of_nat (length cs))) in *.
    qlra.
Qed.

Lemma range_energy_proportion (a : Analyzer) (startFreq : Q) (endFreq : option Q) :
  2 <= fftSize (env a) -> (0 < sampleRate (env a))%Q -> (0 <= startFreq)%Q ->
  match endFreq with Some f => (startFreq <= f)%Q | None => True end ->
  buffers_filled a ->
  exists v, range_energy a startFreq endFreq = Fin v /\ (0 <= v <= 1)%Q.
Proof.
  intros Hfft Hsr Hs He Hbuf. unfold range_energy. cbv zeta.
  set (startBin := _freqToBin a startFreq round).
  set (endBin := match endFreq with
                 | Some f => if Qeq_bool f 0 then startBin else _freqToBin a f round
                 | None => startBin
                 end).
  assert (Hbins : 0 <= startBin /\ startBin <= endBin /\
                  endBin <= fftSize (env a) / 2 - 1).
  { assert (Hself : 0 <= startBin /\ startBin <= startBin /\
                    startBin <= fftSize (env a) / 2 - 1).
    { subst startBin. unfold _freqToBin. split; [|split; [lia|]].
      - apply freqToBin_nonneg; assumption.
      - rewrite freqToBin_min. lia. }
    subst endBin. destruct endFreq as [f|]; [|exact Hself].
    destruct (Qeq_bool f 0); [exact Hself|].
    subst startBin. unfold _freqToBin. split; [|split].
    - apply freqToBin_nonneg; assumption.
    - rewrite !freqToBin_min. apply Z.min_le_compat_r.
      unfold Math_round. apply Qfloor_resp_le.
      pose proof (bin_scale_mono (fftSize (env a)) (sampleRate (env a))
                    startFreq f ltac:(lia) Hsr He). qlra.
    - rewrite freqToBin_min. lia. }
  destruct Hbins as (Hb0 & Hb1 & Hb2).
  set (n := endBin - startBin + 1).
  assert (Hn : 1 <= n) by (subst n; lia).
  set (cs := channels (_stereo (props a))).
  assert (Hcs : inject_Z (Z.of_nat (length cs))
                = inject_Z (bool_to_Z (_stereo (props a)) + 1)).
  { subst cs. destruct (_stereo (props a)); reflexivity. }
  destruct (channels_sum_bounds (_fftData a) (seqZ startBin n) cs) with (acc := 0%Q)
    as (e & Ee & He0 & He1).
  { apply Forall_forall. intros channel Hin.
    destruct (Hbuf channel) as (d & Ed & Hbytes & Hlen).
    - subst cs. exact Hin.
    - exists d. split; [exact Ed|]. split; [exact Hbytes|].
      apply Forall_forall. intros i Hi.
      apply list_elem_of_In, elem_of_seqZ in Hi. subst n. lia. }
  rewrite Ee. rewrite length_seqZ in He1. rewrite Z2Nat.id in He1 by lia.
  rewrite Hcs in He1.
  set (c := inject_Z (bool_to_Z (_stereo (props a)) + 1)) in *.
  assert (Hc : (1 <= c)%Q).
  { subst c. rewrite <- (Zle_Qle 1). destruct (_stereo (props a)); simpl; lia. }
  assert (Hq : (1 <= inject_Z n)%Q) by (rewrite <- (Zle_Qle 1); exact Hn).
  unfold js_div.
  destruct (Qeq_bool (inject_Z n) 0) eqn:E0.
  { apply Qeq_bool_iff in E0. qlra. }
  simpl js_scale. eexists. split; [reflexivity|].
  assert (Hx : (e / inject_Z n * (1 / c) * (1 / 255)
                == e / (255 * inject_Z n * c))%Q) by (field; split; qlra).
  rewrite Hx.
  assert (Hpos : (0 < 255 * inject_Z n * c)%Q).
  { apply Qmult_lt_0_compat; [|qlra]. qlra. }
  split.
  - apply Qle_shift_div_l; [exact Hpos | qlra].
  - apply Qle_shift_div_r; [exact Hpos | qlra].
Qed.

(** X14.  The energy of a range is a proportion.  With byte buffers of
    [frequencyBinCount] entries on the channels in use, an FFT of at
    least two points and a positive sample rate, [getEnergy] returns a
    finite number of [0, 1] and leaves the object as it is, for every
    start frequency that is a non-negative 32-bit integer and every end
    frequency not below it (or none), and for each of the five presets
    (bass, lowMid, mid, highMid, treble). *)
Theorem getEnergy_range_is_proportion (a : Analyzer) :
  2 <= fftSize (env a) -> (0 < sampleRate (env a))%Q -> buffers_filled a ->
  (forall (startFreq : Q) (endFreq : option Q),
     (startFreq == inject_Z (to_int32 startFreq))%Q -> (0 <= startFreq)%Q ->
     match endFreq with Some f => (startFreq <= f)%Q | None => True end ->
     exists v, getEnergy (ArgNumber startFreq) endFreq a
               = (a, Return (EnergyNumber (Fin v))) /\ (0 <= v <= 1)%Q) /\
  (forall (preset : string) (endFreq : option Q),
     In preset ["bass"; "lowMid"; "mid"; "highMid"; "treble"] ->
     exists v, getEnergy (ArgString preset) endFreq a
               = (a, Return (EnergyNumber (Fin v))) /\ (0 <= v <= 1)%Q).
Proof.
  intros Hfft Hsr Hbuf. split.
  - intros startFreq endFreq Hint Hs He.
    destruct (range_energy_proportion a startFreq endFreq Hfft Hsr Hs He Hbuf)
      as (v & Ev & Hv).
    exists v. split; [|exact Hv].
    unfold getEnergy.
    assert (E : Qeq_bool startFreq (inject_Z (to_int32 startFreq)) = true)
      by (apply Qeq_bool_iff; exact Hint).
    rewrite E. simpl. unfold ret. rewrite Ev. reflexivity.
  - intros preset endFreq Hin.
    assert (Hp : exists lo hi, preset <> "peak" /\
                   presets preset = Some (PresetRange lo hi) /\
                   (0 <= lo)%Q /\ (lo <= hi)%Q).
    { simpl in Hin.
      destruct Hin as [<-|[<-|[<-|[<-|[<-|[]]]]]];
        eexists; eexists; (split; [discriminate|]);
        (split; [reflexivity|]); split; vm_compute; discriminate. }
    destruct Hp as (lo & hi & Hne & Hpre & Hlo & Hlohi).
    destruct (range_energy_proportion a lo (Some hi) Hfft Hsr Hlo Hlohi Hbuf)
      as (v & Ev & Hv).
    exists v. split; [|exact Hv].
    unfold getEnergy.
    destruct (String.eqb_spec preset "peak") as [Epk|_]; [contradiction|].
    rewrite Hpre. unfold ret. rewrite Ev. reflexivity.
Qed.

Lemma getEnergy_range_is_proportion_witness :
  exists v, getEnergy (ArgString "bass") None default_analyzer
            = (default_analyzer, Return (EnergyNumber (Fin v))) /\ (0 <= v <= 1)%Q.
Proof.
  refine (proj2 (getEnergy_range_is_proportion default_analyzer _ _ _) "bass" None _).
  - vm_compute; discriminate.
  - reflexivity.
  - intros channel Hin.
    assert (Hc : channel = 0%nat) by (simpl in Hin; destruct Hin as [<-|[]]; reflexivity).
    subst channel. exists (repeat 0 4096). split; [reflexivity|]. split.
    + apply Forall_forall. intros x Hx. apply repeat_spec in Hx. lia.
    + rewrite repeat_length. reflexivity.
  - simpl; auto.
Defined.

(** X15.  [getEnergy] does not put its range in order (unlike
    [setFreqRange]).  When the bin of the end frequency lies before the
    bin of the start frequency, no bin is read and the result is [NaN]
    (the bins are adjacent: 0 / 0) or zero, whatever the signal. *)
Theorem getEnergy_reversed_range (a : Analyzer) (startFreq endFreq : Q) :
  (startFreq == inject_Z (to_int32 startFreq))%Q -> ~ (endFreq == 0)%Q ->
  _freqToBin a endFreq round < _freqToBin a startFreq round ->
  getEnergy (ArgNumber startFreq) (Some endFreq) a
  = (a, Return (EnergyNumber NaN)) \/
  exists v, getEnergy (ArgNumber startFreq) (Some endFreq) a
            = (a, Return (EnergyNumber (Fin v))) /\ (v == 0)%Q.
Proof.
  intros Hint Hend Hrev. unfold getEnergy.
  assert (E : Qeq_bool startFreq (inject_Z (to_int32 startFreq)) = true)
    by (apply Qeq_bool_iff; exact Hint).
  rewrite E. simpl negb. cbv iota. unfold ret, range_energy. cbv zeta.
  assert (E0 : Qeq_bool endFreq 0 = false).
  { destruct (Qeq_bool endFreq 0) eqn:E0; [|reflexivity].
    apply Qeq_bool_iff in E0. contradiction. }
  rewrite E0.
  set (startBin := _freqToBin a startFreq round) in *.
  set (endBin := _freqToBin a endFreq round) in *.
  assert (Hempty : seqZ startBin (endBin - startBin + 1) = []).
  { unfold seqZ. replace (Z.to_nat (endBin - startBin + 1)) with 0%nat by lia.
    reflexivity. }
  rewrite Hempty.
  assert (Hfold : fold_left (fun (acc : option Q) (channel : nat) =>
                               fold_left
                                 (fun acc' i =>
                                    match acc', fft_byte (default [] (_fftData a !! channel)) i with
                                    | Some e, Some v => Some (e + v)%Q
                                    | _, _ => None
                                    end) [] acc)
                            (channels (_stereo (props a))) (Some 0%Q)
                  = Some 0%Q).
  { destruct (_stereo (props a)); reflexivity. }
  rewrite Hfold. unfold js_div.
  destruct (Qeq_bool (inject_Z (endBin - startBin + 1)) 0) eqn:En.
  - left. reflexivity.
  - right. simpl js_scale. eexists. split; [reflexivity|].
    assert (Hn : ~ (inject_Z (endBin - startBin + 1) == 0)%Q).
    { intro H. apply Qeq_bool_iff in H. rewrite H in En. discriminate En. }
    assert (Hc : ~ (inject_Z (bool_to_Z (_stereo (props a)) + 1) == 0)%Q).
    { destruct (_stereo (props a)); discriminate. }
    field. split; assumption.
Qed.

Lemma getEnergy_reversed_range_witness :
  getEnergy (ArgNumber 500) (Some 100%Q) default_analyzer
  = (default_analyzer, Return (EnergyNumber NaN)) \/
  exists v, getEnergy (ArgNumber 500) (Some 100%Q) default_analyzer
            = (default_analyzer, Return (EnergyNumber (Fin v))) /\ (v == 0)%Q.
Proof.
  apply getEnergy_reversed_range.
  - reflexivity.
  - discriminate.
  - vm_compute. reflexivity.
Defined.

Lemma wrap32_range (z : Z) : - 2 ^ 31 <= wrap32 z < 2 ^ 31.
Proof.
  unfold wrap32. pose proof (Z.mod_pos_bound (z + 2 ^ 31) (2 ^ 32) ltac:(lia)). lia.
Qed.

(** X16.  [getEnergy] is a query: it never changes the object, whatever
    its arguments and whether it returns or throws.  Called with a
    number that is not a 32-bit integer (a frequency with a fractional
    part, or one of 2^31 and above) it answers [null], not an energy:
    [startFreq !== ( startFreq | 0 )] sends the number down the branch
    of the preset names. *)
Theorem getEnergy_is_a_query (a : Analyzer) (startFreq : js_arg)
    (endFreq : option Q) (q : Q) :
  (forall z : Z, - 2 ^ 31 <= z < 2 ^ 31 -> ~ (q == inject_Z z)%Q) ->
  state_after (getEnergy startFreq endFreq a) = a /\
  getEnergy (ArgNumber q) endFreq a = (a, Return EnergyNull).
Proof.
  intro Hq. split.
  - apply getEnergy_state.
  - unfold getEnergy.
    destruct (Qeq_bool q (inject_Z (to_int32 q))) eqn:E; [|reflexivity].
    apply Qeq_bool_iff in E. exfalso.
    apply (Hq (to_int32 q)); [apply wrap32_range | exact E].
Qed.

Lemma getEnergy_is_a_query_witness :
  getEnergy (ArgNumber (881 # 2)) None default_analyzer
  = (default_analyzer, Return EnergyNull).
Proof.
  refine (proj2 (getEnergy_is_a_query default_analyzer ArgUndefined None (881 # 2) _)).
  intros z _ H. unfold Qeq in H. simpl in H. lia.
Defined.

End GetEnergyRange.

(** ** The tempered scale in general *)

Section ScaleGeneral.

Variables (minFreq maxFreq : R) (npb : option Z).

Lemma scale_loop_result (fuel : nat) :
  forall (i : Z) (acc r : list R),
    scale_loop fuel minFreq maxFreq npb i acc = Some r ->
    exists n : nat,
      (forall j, i <= j < i + Z.of_nat n -> (note_freq j <= maxFreq)%R) /\
      ~ (note_freq (i + Z.of_nat n) <= maxFreq)%R /\
      r = acc ++ map note_freq (List.filter (kept minFreq npb) (seqZ i (Z.of_nat n))).
Proof.
  induction fuel as [|fuel IH]; intros i acc r Hr; [discriminate Hr|].
  cbn [scale_loop] in Hr. cbv zeta in Hr.
  destruct (Rle_dec (note_freq i) maxFreq) as [Hle|Hgt].
  - apply IH in Hr. destruct Hr as (n & Hall & Hend & ->).
    exists (S n). split; [|split].
    + intros j Hj. destruct (Z.eq_dec j i) as [->|Hne]; [exact Hle|].
      apply Hall. lia.
    + replace (i + Z.of_nat (S n)) with (i + 1 + Z.of_nat n) by lia. exact Hend.
    + rewrite Nat2Z.inj_succ. rewrite (seqZ_cons i (Z.succ (Z.of_nat n))) by lia.
      replace (Z.pred (Z.succ (Z.of_nat n))) with (Z.of_nat n) by lia.
      replace (Z.succ i) with (i + 1) by lia.
      cbn [List.filter]. unfold kept at 2.
      destruct (Rge_dec (note_freq i) minFreq).
      * destruct (on_band i npb).
        -- cbn [map]. rewrite <- app_assoc. reflexivity.
        -- reflexivity.
      * reflexivity.
  - injection Hr as <-. exists 0%nat. split; [|split].
    + intros j Hj. lia.
    + replace (i + Z.of_nat 0) with i by lia. exact Hgt.
    + rewrite app_nil_r. reflexivity.
Qed.

End ScaleGeneral.

Section ScaleCharacterised.

Lemma seqZ_sorted (n : nat) : forall m : Z, StronglySorted Z.lt (seqZ m (Z.of_nat n)).
Proof.
  induction n as [|n IH]; intro m; [constructor|].
  rewrite Nat2Z.inj_succ, seqZ_cons by lia.
  replace (Z.pred (Z.succ (Z.of_nat n))) with (Z.of_nat n) by lia.
  constructor; [apply IH|].
  apply Forall_forall. intros x Hx. apply list_elem_of_In, elem_of_seqZ in Hx. lia.
Qed.

Lemma notes_sorted (f : Z -> bool) (l : list Z) :
  StronglySorted Z.lt l -> StronglySorted Rlt (map note_freq (List.filter f l)).
Proof.
  induction 1 as [|x l Hl IH Hx]; [constructor|].
  cbn [List.filter]. destruct (f x); [|exact IH].
  cbn [map]. constructor; [exact IH|].
  apply Forall_forall. intros y Hy. apply in_map_iff in Hy.
  destruct Hy as (j & <- & Hj). apply filter_In in Hj. destruct Hj as [Hj _].
  rewrite Forall_forall in Hx. apply note_freq_lt, Hx, Hj.
Qed.

Lemma temperedScale_notes (mode : Z) (minFreq maxFreq : Q) :
  exists n : nat,
    temperedScale mode minFreq maxFreq
    = Some (map note_freq
              (List.filter (kept (Q2R minFreq) (notesPerBand mode))
                           (seqZ 0 (Z.of_nat n)))) /\
    (forall j, 0 <= j -> j < Z.of_nat n <-> (note_freq j <= Q2R maxFreq)%R).
Proof.
  destruct (temperedScale_total mode minFreq maxFreq) as (scale & Hs).
  pose proof Hs as Hs'. unfold temperedScale in Hs'.
  apply scale_loop_result in Hs'. destruct Hs' as (n & Hall & Hend & ->).
  exists n. split; [exact Hs|].
  intros j Hj. split.
  - intro Hlt. apply Hall. lia.
  - intro Hle. destruct (Z.lt_ge_cases j (Z.of_nat n)) as [Hlt|Hge]; [exact Hlt|].
    exfalso. apply Hend.
    apply Rle_trans with (note_freq j); [|exact Hle].
    apply note_freq_le. lia.
Qed.

End ScaleCharacterised.

(** ** The octave layout in general *)

Section OctaveInvariant.

Lemma Math_round_half (d : Z) : Math_round (inject_Z d / 2) = (d + 1) / 2.
Proof.
  unfold Math_round. rewrite (Zdiv_Qdiv (d + 1) 2).
  apply Qfloor_comp. rewrite inject_Z_plus. field.
Qed.

Lemma fold_alter_forall {A} (P : A -> Prop) (g : nat -> A -> A) (k : list A -> nat -> nat)
    (idx : list nat) :
  (forall i x, In i idx -> P x -> P (g i x)) ->
  forall l : list A, Forall P l ->
    Forall P (fold_left (fun bs i => alter (g i) (k bs i) bs) idx l).
Proof.
  intro Hg. induction idx as [|i idx IH]; intros l Hl; [exact Hl|].
  cbn [fold_left]. apply IH.
  - intros j x Hj. apply Hg. right. exact Hj.
  - apply (Forall_alter_impl P P); [exact Hl | auto |].
    intros x Hx. apply Hg; [left; reflexivity | exact Hx].
Qed.

Lemma fold_alter_map {A B} (f : A -> B) (g : nat -> A -> A) (k : list A -> nat -> nat)
    (idx : list nat) :
  (forall i x, f (g i x) = f x) ->
  forall l : list A,
    map f (fold_left (fun bs i => alter (g i) (k bs i) bs) idx l) = map f l.
Proof.
  intro Hg. induction idx as [|i idx IH]; intro l; [reflexivity|].
  cbn [fold_left]. rewrite IH. apply map_alter_keep. apply Hg.
Qed.

Lemma set_factors_ok (max : Z) (n : nat) (bars : list Bar.t) :
  Forall (bar_well_formed max) bars -> Forall (bar_well_formed max) (set_factors n bars).
Proof.
  intro Hbars. unfold set_factors.
  apply (fold_alter_forall (bar_well_formed max)
           (fun i => Bar.set_factor (inject_Z (Z.of_nat i + 1) / inject_Z (Z.of_nat n)))
           (fun bs i => (length bs - n + i)%nat)); [|exact Hbars].
  intros i b Hi (Hd & He & _ & H0 & H1). apply in_seq in Hi.
  unfold bar_well_formed, unit_factor. simpl.
  split; [exact Hd|]. split; [exact He|]. split; [|split; assumption].
  assert (Hn : (0 < inject_Z (Z.of_nat n))%Q) by (rewrite <- (Zlt_Qlt 0); lia).
  split.
  - apply Qle_shift_div_l; [exact Hn|]. rewrite Qmult_0_l. rewrite <- (Zle_Qle 0). lia.
  - apply Qle_shift_div_r; [exact Hn|]. rewrite Qmult_1_l. rewrite <- Zle_Qle. lia.
Qed.

Lemma set_factors_map {B} (f : Bar.t -> B) (n : nat) (bars : list Bar.t) :
  (forall q b, f (Bar.set_factor q b) = f b) ->
  map f (set_factors n bars) = map f bars.
Proof.
  intro Hf. unfold set_factors.
  apply (fold_alter_map f
           (fun i => Bar.set_factor (inject_Z (Z.of_nat i + 1) / inject_Z (Z.of_nat n)))
           (fun bs i => (length bs - n + i)%nat)).
  intros i b. apply Hf.
Qed.

Variables (binOf : R -> Z) (max : Z) (barWidth : jsnum).

(** The bars the step keeps from the state, before it adds one. *)
Lemma octave_step_bars (st : octave_state) (index : nat) (freq : R)
    (next : option R) :
  exists base idx endIdx,
    o_bars (octave_step binOf barWidth st index freq next)
    = base ++ [Bar.new (js_scale barWidth (inject_Z (Z.of_nat index))) idx endIdx] /\
    (base = o_bars st \/ base = set_factors (nBars st) (o_bars st)) /\
    idx = (if (0 <? prevBin st) && (prevBin st + 1 <=? binOf freq)
           then prevBin st + 1 else binOf freq) /\
    prevIdx (octave_step binOf barWidth st index freq next) = idx /\
    endIdx = (if 0 <? prevBin (octave_step binOf barWidth st index freq next) - idx
              then prevBin (octave_step binOf barWidth st index freq next) else 0) /\
    prevBin (octave_step binOf barWidth st index freq next)
    = match next with
      | Some nextFreq =>
          if 1 <? binOf nextFreq - binOf freq
          then binOf freq + Math_round (inject_Z (binOf nextFreq - binOf freq) / 2)
          else binOf freq
      | None => binOf freq
      end.
Proof.
  unfold octave_step. cbv zeta.
  set (idx := if (0 <? prevBin st) && (prevBin st + 1 <=? binOf freq)
              then prevBin st + 1 else binOf freq).
  destruct (Z.eqb_spec idx (prevIdx st)) as [E|E].
  - eexists. exists idx. eexists. cbn [o_bars prevIdx prevBin].
    split; [reflexivity|]. split; [left; reflexivity|].
    split; [reflexivity|]. split; [symmetry; exact E|]. split; reflexivity.
  - destruct (1 <? nBars st)%nat.
    + eexists. exists idx. eexists. cbn [o_bars prevIdx prevBin].
      split; [reflexivity|]. split; [right; reflexivity|].
      split; [reflexivity|]. split; [reflexivity|]. split; reflexivity.
    + eexists. exists idx. eexists. cbn [o_bars prevIdx prevBin].
      split; [reflexivity|]. split; [left; reflexivity|].
      split; [reflexivity|]. split; [reflexivity|]. split; reflexivity.
Qed.

Lemma octave_step_inv (st : octave_state) (index : nat) (freq : R)
    (next : option R) :
  octave_inv binOf max (Some freq) st ->
  0 <= binOf freq <= max ->
  match next with
  | Some f' => binOf freq <= binOf f' <= max
  | None => True
  end ->
  octave_inv binOf max next (octave_step binOf barWidth st index freq next).
Proof.
  intros (Hok & Hsorted & Hle & Hidx & Hbin & Hnext) Hfreq Hnx.
  destruct (octave_step_bars st index freq next)
    as (base & idx & endIdx & Ebars & Hbase & Eidx & EprevIdx & EendIdx & EprevBin).
  set (st' := octave_step binOf barWidth st index freq next) in *.
  assert (Hbase_ok : Forall (bar_well_formed max) base).
  { destruct Hbase as [->| ->]; [exact Hok | apply set_factors_ok; exact Hok]. }
  assert (Hbase_idx : map Bar.dataIdx base = map Bar.dataIdx (o_bars st)).
  { destruct Hbase as [->| ->]; [reflexivity|]. apply set_factors_map. reflexivity. }
  assert (Hidx_range : prevIdx st <= idx /\ 0 <= idx <= binOf freq).
  { rewrite Eidx.
    destruct (Z.ltb_spec 0 (prevBin st)); destruct (Z.leb_spec (prevBin st + 1) (binOf freq));
      simpl; lia. }
  assert (HprevBin : binOf freq <= prevBin st' <= max /\
                     match next with Some f => prevBin st' <= binOf f | None => True end).
  { rewrite EprevBin. destruct next as [f'|]; [|lia].
    destruct (Z.ltb_spec 1 (binOf f' - binOf freq)) as [Hgap|Hgap]; [|lia].
    rewrite Math_round_half.
    pose proof (Z.div_le_upper_bound (binOf f' - binOf freq + 1) 2 (binOf f' - binOf freq)
                  ltac:(lia) ltac:(lia)).
    pose proof (Z.div_pos (binOf f' - binOf freq + 1) 2 ltac:(lia) ltac:(lia)).
    lia. }
  destruct HprevBin as [HprevBin Hnext'].
  unfold octave_inv. rewrite Ebars, EprevIdx. rewrite map_app, Hbase_idx.
  split; [|split; [|split; [|split; [|split]]]].
  - apply Forall_app. split; [exact Hbase_ok|]. constructor; [|constructor].
    unfold bar_well_formed, unit_factor. simpl.
    split; [lia|]. split.
    + rewrite EendIdx. destruct (Z.ltb_spec 0 (prevBin st' - idx)); [right; lia | left; reflexivity].
    + split; [split; apply Qle_refl || (vm_compute; discriminate)|]. split; reflexivity.
  - apply StronglySorted_snoc; [exact Hsorted|].
    eapply List.Forall_impl; [|exact Hle]. simpl. intros z Hz. lia.
  - apply Forall_app. split.
    + eapply List.Forall_impl; [|exact Hle]. simpl. intros z Hz. lia.
    + constructor; [simpl; lia | constructor].
  - lia.
  - lia.
  - exact Hnext'.
Qed.

Lemma octave_loop_inv (scale : list R) :
  forall (index : nat) (st : octave_state),
    bins_ok binOf max scale ->
    octave_inv binOf max (head scale) st ->
    octave_inv binOf max None (octave_loop binOf barWidth scale index st).
Proof.
  induction scale as [|freq rest IH]; intros index st [Hrange Hsorted] Hinv;
    [exact Hinv|].
  cbn [octave_loop].
  apply StronglySorted_inv in Hsorted. destruct Hsorted as [Hsorted Hhead].
  apply Forall_cons_1 in Hrange. destruct Hrange as [Hfreq Hrange].
  apply IH; [split; assumption|].
  apply octave_step_inv; [exact Hinv | exact Hfreq |].
  destruct rest as [|f' rest']; [exact I|]. simpl.
  apply Forall_cons_1 in Hhead. apply Forall_cons_1 in Hrange. lia.
Qed.

Lemma octave_loop_posX (scale : list R) :
  forall (index : nat) (st : octave_state),
    map Bar.posX (o_bars (octave_loop binOf barWidth scale index st))
    = map Bar.posX (o_bars st)
      ++ map (fun k => js_scale barWidth (inject_Z (Z.of_nat k)))
             (seq index (length scale)).
Proof.
  induction scale as [|freq rest IH]; intros index st.
  - simpl. rewrite app_nil_r. reflexivity.
  - cbn [octave_loop length seq map]. rewrite IH.
    destruct (octave_step_bars st index freq (head rest))
      as (base & idx & endIdx & Ebars & Hbase & _).
    rewrite Ebars, map_app.
    assert (Hb : map Bar.posX base = map Bar.posX (o_bars st)).
    { destruct Hbase as [->| ->]; [reflexivity|]. apply set_factors_map. reflexivity. }
    rewrite Hb, <- app_assoc. reflexivity.
Qed.

End OctaveInvariant.

Section OctaveLayoutTheorem.

Lemma Rround_nonneg (x : R) : (0 <= x)%R -> 0 <= Rround x.
Proof. intro Hx. apply Rround_lower. simpl. rlra. Qed.

Lemma freqToBinR_bins (fftSize : Z) (sampleRate : Q) (f g : R) :
  2 <= fftSize -> (0 < sampleRate)%Q -> (0 <= f)%R -> (f <= g)%R ->
  0 <= freqToBinR fftSize sampleRate f round /\
  freqToBinR fftSize sampleRate f round <= freqToBinR fftSize sampleRate g round /\
  freqToBinR fftSize sampleRate g round <= fftSize / 2 - 1.
Proof.
  intros Hfft Hsr Hf Hfg.
  assert (Hs : (0 < Q2R sampleRate)%R).
  { rewrite <- Q2R_0. apply Qlt_Rlt. exact Hsr. }
  assert (Hn : (0 < IZR fftSize)%R) by (apply IZR_lt; lia).
  assert (Hmax : 0 <= fftSize / 2 - 1).
  { pose proof (Z.div_le_lower_bound fftSize 2 1 ltac:(lia) ltac:(lia)). lia. }
  assert (Hk : (0 < IZR fftSize / Q2R sampleRate)%R) by (apply Rdiv_lt_0_compat; assumption).
  assert (Hx : (0 <= f * IZR fftSize / Q2R sampleRate)%R).
  { unfold Rdiv. rewrite Rmult_assoc. apply Rmult_le_pos; [exact Hf|].
    apply Rlt_le. exact Hk. }
  assert (Hxy : (f * IZR fftSize / Q2R sampleRate <= g * IZR fftSize / Q2R sampleRate)%R).
  { unfold Rdiv. rewrite !Rmult_assoc. apply Rmult_le_compat_r; [|exact Hfg].
    apply Rlt_le. exact Hk. }
  pose proof (Rround_nonneg _ Hx) as H0.
  pose proof (Rround_mono _ _ Hxy) as H1.
  unfold freqToBinR. cbv zeta.
  destruct (Z.ltb_spec (Rround (f * IZR fftSize / Q2R sampleRate)) (fftSize / 2 - 1));
    destruct (Z.ltb_spec (Rround (g * IZR fftSize / Q2R sampleRate)) (fftSize / 2 - 1));
    lia.
Qed.

Lemma scale_bins_ok (fftSize : Z) (sampleRate : Q) (scale : list R) :
  2 <= fftSize -> (0 < sampleRate)%Q ->
  StronglySorted Rlt scale -> Forall (fun f => (0 < f)%R) scale ->
  bins_ok (fun freq => freqToBinR fftSize sampleRate freq round)
          (fftSize / 2 - 1) scale.
Proof.
  intros Hfft Hsr Hsorted Hpos. split.
  - eapply List.Forall_impl; [|exact Hpos]. simpl. intros f Hf.
    pose proof (freqToBinR_bins fftSize sampleRate f f Hfft Hsr
                  ltac:(rlra) ltac:(rlra)). lia.
  - induction Hsorted as [|f l Hl IH Hf]; [constructor|].
    apply Forall_cons_1 in Hpos. destruct Hpos as [Hf0 Hpos].
    constructor; [apply IH; exact Hpos|].
    eapply List.Forall_impl; [|exact Hf]. simpl. intros g Hg.
    pose proof (freqToBinR_bins fftSize sampleRate f g Hfft Hsr
                  ltac:(rlra) ltac:(rlra)). lia.
Qed.

(** X18.  The octave layout.  On a ready object in an octave mode, with
    an FFT of at least two points and a positive sample rate,
    [_calcBars] builds one bar per note of the tempered scale; bar [k]
    stands at [k * barWidth] with [barWidth = canvas.width / number of
    notes]; the first bins of the bars never decrease from left to
    right; and for every bar the first bin lies in the buffer, the range
    is empty ([endIdx = 0]) or ends on a later bin of the buffer, the
    interpolation factor lies in [0, 1] and the peaks of both channels
    are cleared. *)
Theorem calcBars_octave_layout (a : Analyzer) :
  _ready a = true -> _isOctaveBands (aux a) = true ->
  2 <= fftSize (env a) -> (0 < sampleRate (env a))%Q ->
  exists scale,
    temperedScale (_mode (props a)) (_minFreq (props a)) (_maxFreq (props a))
    = Some scale /\
    length (_bars (_calcBars a)) = length scale /\
    map Bar.posX (_bars (_calcBars a))
    = map (fun k => js_scale (octave_barWidth (canvas_width (env a)) scale)
                             (inject_Z (Z.of_nat k)))
          (seq 0 (length scale)) /\
    StronglySorted Z.le (map Bar.dataIdx (_bars (_calcBars a))) /\
    Forall (bar_well_formed (fftSize (env a) / 2 - 1)) (_bars (_calcBars a)).
Proof.
  intros Hready Hoct Hfft Hsr.
  destruct (temperedScale_notes (_mode (props a)) (_minFreq (props a))
              (_maxFreq (props a))) as (n & Hs & _).
  set (scale := map note_freq
                  (List.filter (kept (Q2R (_minFreq (props a)))
                                     (notesPerBand (_mode (props a))))
                               (seqZ 0 (Z.of_nat n)))) in *.
  exists scale. split; [exact Hs|].
  rewrite (calcBars_octave a scale Hready Hoct Hs).
  split; [apply octave_bars_length|].
  assert (Hbins : bins_ok (fun freq => freqToBinR (fftSize (env a)) (sampleRate (env a))
                                                   freq round)
                          (fftSize (env a) / 2 - 1) scale).
  { apply scale_bins_ok; [exact Hfft | exact Hsr | |].
    - subst scale. apply notes_sorted, seqZ_sorted.
    - subst scale. apply Forall_forall. intros f Hf. apply in_map_iff in Hf.
      destruct Hf as (j & <- & _). apply note_freq_pos. }
  unfold octave_bars.
  pose proof (octave_loop_inv
                (fun freq => freqToBinR (fftSize (env a)) (sampleRate (env a)) freq round)
                (fftSize (env a) / 2 - 1)
                (octave_barWidth (canvas_width (env a)) scale)
                scale 0%nat (mk_octave [] 0 (-1) 0) Hbins) as Hinv.
  assert (Hmax : 0 <= fftSize (env a) / 2 - 1).
  { pose proof (Z.div_le_lower_bound (fftSize (env a)) 2 1 ltac:(lia) ltac:(lia)). lia. }
  assert (Hinit : octave_inv
                    (fun freq => freqToBinR (fftSize (env a)) (sampleRate (env a))
                                            freq round)
                    (fftSize (env a) / 2 - 1) (head scale) (mk_octave [] 0 (-1) 0)).
  { unfold octave_inv. simpl.
    split; [constructor|]. split; [constructor|]. split; [constructor|].
    split; [lia|]. split; [lia|].
    destruct Hbins as [Hrange _].
    destruct scale as [|f rest]; [exact I|]. simpl.
    apply Forall_cons_1 in Hrange. lia. }
  destruct (Hinv Hinit) as (Hok & Hsorted & _).
  split; [|split; [exact Hsorted | exact Hok]].
  rewrite octave_loop_posX. reflexivity.
Qed.

Lemma calcBars_octave_layout_witness :
  exists scale,
    temperedScale 1 20 22000 = Some scale /\
    length (_bars (_calcBars octave_unlaid)) = length scale /\
    StronglySorted Z.le (map Bar.dataIdx (_bars (_calcBars octave_unlaid))).
Proof.
  destruct (calcBars_octave_layout octave_unlaid) as (scale & Hs & Hlen & _ & Hsorted & _).
  - reflexivity.
  - reflexivity.
  - vm_compute; discriminate.
  - reflexivity.
  - exists scale. split; [exact Hs|]. split; [exact Hlen | exact Hsorted].
Defined.

End OctaveLayoutTheorem.

(** ** What every sequence of calls keeps *)

Section Calls.















End Calls.

(** ** The discrete layout reads inside the buffer *)

Section DiscreteWellFormed.

Variable posOf : Z -> jsnum.

Lemma discrete_step_cleared (st : list Bar.t * jsnum) (i : Z) :
  Forall (fun b => Bar.factor b = 0%Q /\ Bar.chan0 b = BarState.fresh /\
                   Bar.chan1 b = BarState.fresh) (fst st) ->
  Forall (fun b => Bar.factor b = 0%Q /\ Bar.chan0 b = BarState.fresh /\
                   Bar.chan1 b = BarState.fresh) (fst (discrete_step posOf st i)).
Proof.
  destruct st as [bars lastPos]. intro H. unfold discrete_step.
  destruct (js_gt (posOf i) lastPos).
  - cbn [fst]. apply Forall_app. split; [exact H|].
    constructor; [|constructor]. simpl. auto.
  - destruct (negb (length bars =? 0)%nat); [|exact H].
    cbn [fst]. apply (Forall_alter_impl _ _ _ _ _ H); auto.
Qed.

Lemma discrete_bars_cleared (minIndex maxIndex : Z) :
  Forall (fun b => Bar.factor b = 0%Q /\ Bar.chan0 b = BarState.fresh /\
                   Bar.chan1 b = BarState.fresh)
         (discrete_bars posOf minIndex maxIndex).
Proof.
  unfold discrete_bars.
  generalize (seqZ minIndex (maxIndex - minIndex + 1)).
  assert (H : Forall (fun b => Bar.factor b = 0%Q /\ Bar.chan0 b = BarState.fresh /\
                               Bar.chan1 b = BarState.fresh)
                     (fst (@nil Bar.t, Fin (-999)))) by constructor.
  revert H. generalize (@nil Bar.t, Fin (-999)).
  intros st H l. revert st H.
  induction l as [|i l IH]; intros st H; [exact H|].
  cbn [fold_left]. apply IH, discrete_step_cleared, H.
Qed.

End DiscreteWellFormed.

Section DiscreteInBuffer.

(** X20.  The discrete layout reads inside the buffer.  On a ready
    object in a discrete mode (0 or 10), with an FFT of at least two
    points, a positive sample rate and a non-negative [minFreq],
    [_calcBars] sets the bar width to 1 and leaves only bars whose first
    bin lies in the magnitude buffer, whose range is empty or ends on a
    later bin of the buffer, whose interpolation factor is 0 and whose
    peaks are cleared on both channels. *)
Theorem calcBars_discrete_in_buffer (a : Analyzer) :
  _ready a = true -> _isOctaveBands (aux a) = false ->
  2 <= fftSize (env a) -> (0 < sampleRate (env a))%Q ->
  (0 <= _minFreq (props a))%Q ->
  _barWidth (_calcBars a) = Fin 1 /\
  Forall (bar_well_formed (fftSize (env a) / 2 - 1)) (_bars (_calcBars a)) /\
  Forall (fun b => Bar.factor b = 0%Q) (_bars (_calcBars a)).
Proof.
  intros Hready Hoct Hfft Hsr Hmin.
  split.
  - unfold _calcBars. cbv zeta. cbn [_ready with_bars aux]. rewrite Hready, Hoct.
    cbn [negb]. unfold layout_discrete. cbv zeta.
    destruct (calcLeds_fields
                (_calcAux
                   (with_bars
                      (discrete_bars
                         (fun i => logPos (canvas_width (env (with_bars [] a)))
                                     (_minFreq (props (with_bars [] a)))
                                     (_maxFreq (props (with_bars [] a)))
                                     (binToFreq (fftSize (env (with_bars [] a)))
                                        (sampleRate (env (with_bars [] a))) i))
                         (_freqToBin (with_bars [] a) (_minFreq (props (with_bars [] a))) floor)
                         (_freqToBin (with_bars [] a) (_maxFreq (props (with_bars [] a))) round))
                      (with_barWidth (Fin 1) (with_bars [] a)))))
      as (_ & _ & _ & _ & Hw & _).
    rewrite Hw. reflexivity.
  - rewrite (calcBars_discrete a Hready Hoct).
    set (posOf := fun i => logPos (canvas_width (env a)) (_minFreq (props a))
                             (_maxFreq (props a))
                             (binToFreq (fftSize (env a)) (sampleRate (env a)) i)).
    set (minIndex := _freqToBin a (_minFreq (props a)) floor).
    set (maxIndex := _freqToBin a (_maxFreq (props a)) round).
    assert (H0 : 0 <= minIndex).
    { subst minIndex. unfold _freqToBin. apply freqToBin_nonneg; assumption. }
    assert (H1 : maxIndex <= fftSize (env a) / 2 - 1).
    { subst maxIndex. unfold _freqToBin. rewrite freqToBin_min. lia. }
    destruct (discrete_bars_ordered posOf minIndex maxIndex) as (_ & _ & Hidx).
    pose proof (discrete_bars_cleared posOf minIndex maxIndex) as Hclr.
    split.
    + apply Forall_forall. intros b Hb.
      rewrite Forall_forall in Hidx, Hclr.
      destruct (Hidx b Hb) as (Hd & _ & He).
      destruct (Hclr b Hb) as (Hf & Hc0 & Hc1).
      unfold bar_well_formed, unit_factor. rewrite Hf.
      split; [lia|]. split; [destruct He as [He|He]; [left; exact He | right; lia]|].
      split; [split; vm_compute; discriminate|]. split; assumption.
    + eapply List.Forall_impl; [|exact Hclr]. simpl. tauto.
Qed.

Lemma calcBars_discrete_in_buffer_witness :
  Forall (bar_well_formed (8192 / 2 - 1)) (_bars (_calcBars default_analyzer)).
Proof.
  refine (proj1 (proj2 (calcBars_discrete_in_buffer default_analyzer _ _ _ _ _))).
  - reflexivity.
  - reflexivity.
  - vm_compute; discriminate.
  - reflexivity.
  - vm_compute; discriminate.
Defined.

End DiscreteInBuffer.

(** ** The animation loop *)

Section AnimationLoop.

(** X23.  [toggleAnalyzer] returns the status it leaves, which is the
    status asked for, or the opposite of the previous one when nothing
    is asked for; asking for the status the analyzer already has changes
    nothing, so that a running analyzer is not restarted and keeps its
    frame counter and frame rate; and two calls without argument bring
    the status back. *)
Theorem toggleAnalyzer_status (value : option bool) (now now' : Q)
    (requestId requestId' : Z) (l : Loop) :
  snd (toggleAnalyzer value now requestId l)
  = isOn (fst (toggleAnalyzer value now requestId l)) /\
  snd (toggleAnalyzer value now requestId l) = default (negb (isOn l)) value /\
  (value = Some (isOn l) -> fst (toggleAnalyzer value now requestId l) = l) /\
  isOn (fst (toggleAnalyzer None now' requestId'
               (fst (toggleAnalyzer None now requestId l)))) = isOn l.
Proof.
  unfold toggleAnalyzer, isOn.
  destruct l as [[id|] frame fps time]; destruct value as [[|]|]; simpl;
    repeat split; try reflexivity; intro H; discriminate H.
Qed.

End AnimationLoop.

(** ** The audio graph *)

Section AudioGraphFacts.

Lemma includes_In (node : nat) (l : list nat) : includes node l = true <-> In node l.
Proof.
  unfold includes. rewrite existsb_exists. split.
  - intros (x & Hx & E). apply Nat.eqb_eq in E. subst x. exact Hx.
  - intro H. exists node. split; [exact H | apply Nat.eqb_refl].
Qed.

Lemma includes_false (node : nat) (l : list nat) :
  includes node l = false <-> ~ In node l.
Proof.
  rewrite <- includes_In. destruct (includes node l); split; intro H;
    try discriminate; try reflexivity; try (intro H'; discriminate H').
  exfalso. apply H. reflexivity.
Qed.

Lemma remove_first_In (node x : nat) (l : list nat) :
  In x (remove_first node l) -> In x l.
Proof.
  induction l as [|y l IH]; simpl; [tauto|].
  destruct (Nat.eqb_spec y node); simpl; tauto.
Qed.

Lemma remove_first_NoDup (node : nat) (l : list nat) :
  List.NoDup l -> List.NoDup (remove_first node l) /\ ~ In node (remove_first node l).
Proof.
  induction 1 as [|y l Hy Hl IH]; simpl.
  - split; [constructor | tauto].
  - destruct (Nat.eqb_spec y node) as [->|Hne].
    + split; [exact Hl | exact Hy].
    + destruct IH as [IH1 IH2]. split.
      * constructor; [|exact IH1]. intro H. apply Hy. eapply remove_first_In. exact H.
      * simpl. intros [E|H]; [congruence | exact (IH2 H)].
Qed.

Lemma remove_first_absent (node : nat) (l : list nat) :
  ~ In node l -> remove_first node l = l.
Proof.
  induction l as [|y l IH]; simpl; [reflexivity|]. intro H.
  destruct (Nat.eqb_spec y node) as [->|Hne]; [tauto|].
  rewrite IH by tauto. reflexivity.
Qed.

Lemma remove_first_snoc (node : nat) (l : list nat) :
  ~ In node l -> remove_first node (l ++ [node]) = l.
Proof.
  induction l as [|y l IH]; simpl; intro H.
  - rewrite Nat.eqb_refl. reflexivity.
  - destruct (Nat.eqb_spec y node) as [->|Hne]; [tauto|].
    rewrite IH by tauto. reflexivity.
Qed.

Lemma filter_NoDup (f : nat -> bool) (l : list nat) :
  List.NoDup l -> List.NoDup (List.filter f l).
Proof.
  induction 1 as [|y l Hy Hl IH]; simpl; [constructor|].
  destruct (f y); [|exact IH].
  constructor; [|exact IH]. intro H. apply filter_In in H. tauto.
Qed.

Lemma NoDup_snoc (node : nat) (l : list nat) :
  List.NoDup l -> ~ In node l -> List.NoDup (l ++ [node]).
Proof.
  intros Hl Hn. induction Hl as [|y l Hy Hl IH]; simpl.
  - constructor; [tauto | constructor].
  - constructor.
    + rewrite in_app_iff. simpl. intros [H|[H|[]]]; [tauto|].
      subst. apply Hn. left. reflexivity.
    + apply IH. intro H. apply Hn. right. exact H.
Qed.

Lemma disconnect_fold_routed (l : list nat) :
  forall g, routed g ->
    routed (fold_left
              (fun g node =>
                 if includes node (_sources g)
                 then mk_graph (g_stereo g) (remove_first node (_sources g)) (_outNodes g)
                               (input_to g) (analyzer0_to g) (analyzer1_to g)
                 else g) l g).
Proof.
  induction l as [|node l IH]; intros g Hg; [exact Hg|].
  cbn [fold_left]. apply IH.
  destruct (includes node (_sources g)); [|exact Hg].
  destruct Hg as (Hs & Ho & Hi & H0 & H1).
  unfold routed. cbn. repeat split; try assumption.
  apply remove_first_NoDup. exact Hs.
Qed.

Lemma graph_perform_routed (c : graph_call) (g : AudioGraph) :
  routed g -> routed (graph_perform c g).
Proof.
  intro Hg. destruct c as [source|sources|node|node|value]; cbn [graph_perform].
  - destruct Hg as (Hs & Ho & Hi & H0 & H1).
    destruct source as [node|node|]; cbn [connectInput fst];
      try (destruct (includes node (_sources g)) eqn:E; cbn [negb];
           [repeat split; assumption|];
           unfold routed; cbn; repeat split; try assumption;
           apply NoDup_snoc; [exact Hs | apply includes_false; exact E]).
    repeat split; assumption.
  - apply disconnect_fold_routed. exact Hg.
  - destruct Hg as (Hs & Ho & Hi & H0 & H1). unfold connectOutput.
    destruct (includes node (_outNodes g)) eqn:E; [repeat split; assumption|].
    apply includes_false in E. cbv zeta.
    destruct (_outNodes g) as [|x rest] eqn:Eout.
    + cbn [app length Nat.eqb]. unfold routed. cbn.
      cbn in H0, H1. rewrite H0, H1.
      repeat split; try assumption.
      * constructor; [tauto | constructor].
      * destruct (g_stereo g); reflexivity.
    + cbn [app length Nat.eqb]. destruct (length (rest ++ [node])) eqn:El.
      * rewrite length_app in El. simpl in El. lia.
      * cbn [Nat.eqb]. unfold routed. cbn. cbn in H0, H1.
        repeat split; try assumption.
        change (x :: rest ++ [node]) with ((x :: rest) ++ [node]).
        apply NoDup_snoc; assumption.
  - destruct Hg as (Hs & Ho & Hi & H0 & H1). unfold disconnectOutput.
    destruct node as [n|].
    + destruct (includes n (_outNodes g)) eqn:E; cbn [negb]; [|repeat split; assumption].
      cbv zeta.
      destruct (length (List.filter (fun e => negb (e =? n)%nat) (_outNodes g)) =? 0)%nat
        eqn:El.
      * unfold routed. cbn. rewrite El.
        repeat split; try assumption. apply filter_NoDup. exact Ho.
      * unfold routed. cbn. rewrite El.
        assert (Hne : (length (_outNodes g) =? 0)%nat = false).
        { destruct (_outNodes g); [discriminate E | reflexivity]. }
        rewrite Hne in H0, H1.
        repeat split; try assumption. apply filter_NoDup. exact Ho.
    + unfold routed. cbn. repeat split; try assumption. constructor.
  - destruct Hg as (Hs & Ho & Hi & H0 & H1). unfold stereo_routing, routed. cbn.
    repeat split; try assumption.
    + right. reflexivity.
    + destruct (length (_outNodes g) =? 0)%nat; cbn [negb]; [reflexivity|].
      destruct value; reflexivity.
Qed.

(** X24.  The routing of the analyzers follows the outputs and the
    stereo setting.  From the graph of the constructor, after any
    sequence of calls of [connectInput], [disconnectInput],
    [connectOutput], [disconnectOutput] and of changes of [stereo], with
    any arguments: no source and no output node is listed twice; the
    input feeds the splitter in stereo and the first analyzer in mono
    (once [stereo] has been set); and the analyzers are connected
    exactly when some output node is, the first one to the merger in
    stereo and to the output in mono, the second one to the merger. *)
Theorem routing_is_kept (cs : list graph_call) :
  routed (fold_left (fun g c => graph_perform c g) cs new_graph).
Proof.
  assert (H : routed new_graph).
  { unfold routed, new_graph. cbn.
    split; [constructor|]. split; [constructor|]. split; [left; reflexivity|].
    split; reflexivity. }
  revert H. generalize new_graph.
  induction cs as [|c cs IH]; intros g Hg; [exact Hg|].
  cbn [fold_left]. apply IH, graph_perform_routed, Hg.
Qed.

Lemma remove_first_perm (node : nat) (s : list nat) :
  In node s -> Permutation.Permutation s (node :: remove_first node s).
Proof.
  induction s as [|y s IH]; intro Hin; [destruct Hin|].
  simpl. destruct (Nat.eqb_spec y node) as [->|Hne]; [reflexivity|].
  destruct Hin as [E|Hin]; [congruence|].
  etransitivity; [apply Permutation.perm_skip, IH, Hin|].
  apply Permutation.perm_swap.
Qed.

Lemma disconnect_all (l : list nat) :
  forall g, Permutation.Permutation l (_sources g) ->
    _sources (fold_left
                (fun g node =>
                   if includes node (_sources g)
                   then mk_graph (g_stereo g) (remove_first node (_sources g))
                                 (_outNodes g) (input_to g) (analyzer0_to g)
                                 (analyzer1_to g)
                   else g) l g) = [].
Proof.
  induction l as [|node l IH]; intros g Hp.
  - simpl. apply Permutation.Permutation_nil in Hp. exact Hp.
  - cbn [fold_left].
    assert (Hin : In node (_sources g)).
    { eapply Permutation.Permutation_in; [exact Hp | left; reflexivity]. }
    rewrite (proj2 (includes_In node (_sources g)) Hin).
    apply IH. cbn [_sources].
    apply Permutation.Permutation_cons_inv with node.
    etransitivity; [exact Hp|]. apply remove_first_perm. exact Hin.
Qed.

(** X25.  Connecting and disconnecting sources.  A node that is not a
    source yet is added at the end of [_sources] and returned, and
    disconnecting it restores the list; connecting a node that is a
    source already changes nothing; something that is neither a media
    element nor an audio node is refused without a change; and
    [disconnectInput()] without argument leaves no source. *)
Theorem sources_round_trip (g : AudioGraph) (node : nat) :
  ~ In node (_sources g) ->
  connectInput (AudioNode node) g
  = (mk_graph (g_stereo g) (_sources g ++ [node]) (_outNodes g) (input_to g)
              (analyzer0_to g) (analyzer1_to g), Some node) /\
  _sources (disconnectInput (Some [node]) (fst (connectInput (AudioNode node) g)))
  = _sources g /\
  fst (connectInput (AudioNode node) (fst (connectInput (AudioNode node) g)))
  = fst (connectInput (AudioNode node) g) /\
  connectInput NotAudio g = (g, None) /\
  _sources (disconnectInput None g) = [].
Proof.
  intro Hnew.
  assert (E : includes node (_sources g) = false) by (apply includes_false; exact Hnew).
  assert (Hc : connectInput (AudioNode node) g
               = (mk_graph (g_stereo g) (_sources g ++ [node]) (_outNodes g) (input_to g)
                           (analyzer0_to g) (analyzer1_to g), Some node)).
  { unfold connectInput. rewrite E. reflexivity. }
  rewrite Hc. cbn [fst].
  assert (E' : includes node (_sources g ++ [node]) = true).
  { apply includes_In, in_app_iff. right. left. reflexivity. }
  split; [reflexivity|]. split; [|split; [|split]].
  - unfold disconnectInput. cbn [fold_left _sources]. rewrite E'. cbn [_sources].
    apply remove_first_snoc. exact Hnew.
  - unfold connectInput. cbn [_sources]. rewrite E'. reflexivity.
  - reflexivity.
  - unfold disconnectInput. apply disconnect_all. reflexivity.
Qed.

Lemma sources_round_trip_witness :
  _sources (disconnectInput (Some [7%nat])
              (fst (connectInput (AudioNode 7) (mk_graph false [3%nat; 5%nat] [] [] [] []))))
  = [3%nat; 5%nat].
Proof.
  refine (proj1 (proj2 (sources_round_trip (mk_graph false [3%nat; 5%nat] [] [] [] [])
                          7%nat _))).
  simpl. intros [H|[H|[]]]; discriminate H.
Defined.

End AudioGraphFacts.

(** ** The radial display *)

Section Radial.

Lemma cos_turns (x : R) (k : Z) : cos (x + IZR k * TAU) = cos x.
Proof.
  unfold TAU. destruct (Z.le_gt_cases 0 k) as [H|H].
  - rewrite <- (Z2Nat.id k H), <- INR_IZR_INZ.
    replace (x + INR (Z.to_nat k) * (2 * PI))%R
      with (x + 2 * INR (Z.to_nat k) * PI)%R by ring.
    apply cos_period.
  - rewrite <- (cos_period (x + IZR k * (2 * PI)) (Z.to_nat (- k))).
    rewrite INR_IZR_INZ, Z2Nat.id by lia. rewrite opp_IZR. f_equal. ring.
Qed.

Lemma sin_turns (x : R) (k : Z) : sin (x + IZR k * TAU) = sin x.
Proof.
  unfold TAU. destruct (Z.le_gt_cases 0 k) as [H|H].
  - rewrite <- (Z2Nat.id k H), <- INR_IZR_INZ.
    replace (x + INR (Z.to_nat k) * (2 * PI))%R
      with (x + 2 * INR (Z.to_nat k) * PI)%R by ring.
    apply sin_period.
  - rewrite <- (sin_period (x + IZR k * (2 * PI)) (Z.to_nat (- k))).
    rewrite INR_IZR_INZ, Z2Nat.id by lia. rewrite opp_IZR. f_equal. ring.
Qed.

(** X26.  [radialXY] wraps the spectrum around the centre of the
    canvas.  For a canvas of non-zero width the point of planar
    coordinates [(x, y)] is drawn at the distance [radius + y] from the
    centre [(width >> 1, height >> 1)]; moving [x] by the width of the
    canvas is a full turn and gives the same point; and with the angle
    [-HALF_PI], the one [set spinSpeed] starts from and goes back to on
    0, the left edge [x = 0] is drawn straight above the centre. *)
Theorem radialXY_wraps (e : Env) (radius : Z) (spinAngle x y : R)
    (s : option Q * R) :
  canvas_width e <> 0 ->
  ((fst (radialXY e radius spinAngle x y) - IZR (js_shr (canvas_width e) 1)) ^ 2
   + (snd (radialXY e radius spinAngle x y) - IZR (js_shr (canvas_height e) 1)) ^ 2
   = (IZR radius + y) ^ 2)%R /\
  radialXY e radius spinAngle (x + IZR (canvas_width e)) y
  = radialXY e radius spinAngle x y /\
  radialXY e radius (snd (set_spinSpeed 0 s)) 0 y
  = (IZR (js_shr (canvas_width e) 1),
     IZR (js_shr (canvas_height e) 1) - (IZR radius + y))%R.
Proof.
  intro Hw. assert (Hw' : IZR (canvas_width e) <> 0%R) by (apply not_0_IZR; exact Hw).
  unfold radialXY. cbv zeta. cbn [fst snd]. split; [|split].
  - set (a := (TAU * (x / IZR (canvas_width e)) + spinAngle)%R).
    pose proof (sin2_cos2 a) as H. unfold Rsqr in H.
    replace ((IZR (js_shr (canvas_width e) 1) + (IZR radius + y) * cos a
              - IZR (js_shr (canvas_width e) 1)) ^ 2
             + (IZR (js_shr (canvas_height e) 1) + (IZR radius + y) * sin a
                - IZR (js_shr (canvas_height e) 1)) ^ 2)%R
      with ((IZR radius + y) ^ 2 * (sin a * sin a + cos a * cos a))%R by ring.
    rewrite H. ring.
  - replace (TAU * ((x + IZR (canvas_width e)) / IZR (canvas_width e)) + spinAngle)%R
      with (TAU * (x / IZR (canvas_width e)) + spinAngle + IZR 1 * TAU)%R
      by (field; exact Hw').
    rewrite cos_turns, sin_turns. reflexivity.
  - assert (Es : snd (set_spinSpeed 0 s) = (- HALF_PI)%R).
    { unfold set_spinSpeed. cbn [snd]. destruct (fst s); reflexivity. }
    rewrite Es. unfold HALF_PI.
    replace (TAU * (0 / IZR (canvas_width e)) + - (PI / 2))%R with (- (PI / 2))%R
      by (field; exact Hw').
    rewrite cos_neg, sin_neg, cos_PI2, sin_PI2. f_equal; ring.
Qed.

Lemma radialXY_wraps_witness :
  radialXY default_env 33 0 (0 + IZR (canvas_width default_env)) 10
  = radialXY default_env 33 0 0 10.
Proof.
  refine (proj1 (proj2 (radialXY_wraps default_env 33 0 0 10 (None, 0%R) _))).
  simpl. discriminate.
Defined.

End Radial.

(** ** The logarithmic scale spans the canvas *)

Section LogScale.

Lemma Rround_upper (r : R) (z : Z) : (r < IZR z + / 2)%R -> Rround r <= z.
Proof.
  intro H. unfold Rround.
  destruct (base_Int_part (r + / 2)) as [Hlo _].
  assert (Hlt : (IZR (Int_part (r + / 2)) < IZR (z + 1))%R).
  { rewrite plus_IZR. simpl. rlra. }
  apply lt_IZR in Hlt. lia.
Qed.

Lemma Rround_IZR (z : Z) : Rround (IZR z) = z.
Proof.
  apply Z.le_antisymm.
  - apply Rround_upper. rlra.
  - apply Rround_lower. rlra.
Qed.

(** X28.  The discrete layout fits the canvas to the frequency range.
    For [0 < minFreq < maxFreq] and a canvas of non-negative width, the
    column of [minFreq] is 0, the column of [maxFreq] is the width of
    the canvas, and every frequency between the two is given a column
    between 0 and the width: the canvas shows exactly the range asked
    for, as the comment of [_calcBars] says. *)
Theorem logPos_spans_canvas (width : Z) (minFreq maxFreq freq : Q) :
  (0 < minFreq)%Q -> (minFreq < maxFreq)%Q -> 0 <= width ->
  logPos width minFreq maxFreq minFreq = Fin (inject_Z 0) /\
  logPos width minFreq maxFreq maxFreq = Fin (inject_Z width) /\
  ((minFreq <= freq)%Q -> (freq <= maxFreq)%Q ->
   exists column : Z,
     logPos width minFreq maxFreq freq = Fin (inject_Z column) /\
     0 <= column <= width).
Proof.
  intros Hmin Hlt Hw.
  assert (Hmin' : (0 < Q2R minFreq)%R) by (rewrite <- Q2R_0; apply Qlt_Rlt; exact Hmin).
  assert (Hlt' : (Q2R minFreq < Q2R maxFreq)%R) by (apply Qlt_Rlt; exact Hlt).
  pose proof (Rlog10_increasing _ _ Hmin' Hlt') as Hlog.
  set (lo := Rlog 10 (Q2R minFreq)) in *.
  set (hi := Rlog 10 (Q2R maxFreq)) in *.
  assert (Hwr : (0 <= IZR width)%R) by (apply IZR_le; exact Hw).
  assert (Hk : (0 <= IZR width / (hi - lo))%R).
  { unfold Rdiv. apply Rmult_le_pos; [exact Hwr|].
    apply Rlt_le, Rinv_0_lt_compat. rlra. }
  split; [|split].
  - rewrite logPos_finite by (try assumption; qlra). fold lo hi.
    replace (IZR width / (hi - lo) * (lo - lo))%R with (IZR 0) by (simpl; field; rlra).
    rewrite Rround_IZR. reflexivity.
  - rewrite logPos_finite by (try assumption; qlra). fold lo hi.
    replace (IZR width / (hi - lo) * (hi - lo))%R with (IZR width) by (field; rlra).
    rewrite Rround_IZR. reflexivity.
  - intros Hf0 Hf1.
    rewrite logPos_finite by (try assumption; qlra). fold lo hi.
    eexists. split; [reflexivity|].
    assert (Hf0' : (Q2R minFreq <= Q2R freq)%R) by (apply Qle_Rle; exact Hf0).
    assert (Hf1' : (Q2R freq <= Q2R maxFreq)%R) by (apply Qle_Rle; exact Hf1).
    assert (Hl0 : (lo <= Rlog 10 (Q2R freq))%R).
    { destruct Hf0' as [H|H]; [|subst lo; rewrite H; apply Rle_refl].
      apply Rlt_le. apply Rlog10_increasing; assumption. }
    assert (Hl1 : (Rlog 10 (Q2R freq) <= hi)%R).
    { destruct Hf1' as [H|H]; [|subst hi; rewrite H; apply Rle_refl].
      apply Rlt_le. apply Rlog10_increasing; [rlra | exact H]. }
    set (lf := Rlog 10 (Q2R freq)) in *.
    split.
    + rewrite <- (Rround_IZR 0). apply Rround_mono.
      apply Rmult_le_pos; [exact Hk | rlra].
    + rewrite <- (Rround_IZR width) at 2. apply Rround_mono.
      replace (IZR width) with (IZR width / (hi - lo) * (hi - lo))%R at 2
        by (field; rlra).
      apply Rmult_le_compat_l; [exact Hk | rlra].
Qed.

Lemma logPos_spans_canvas_witness :
  logPos 640 20 22000 22000 = Fin (inject_Z 640).
Proof.
  refine (proj1 (proj2 (logPos_spans_canvas 640 20 22000 1000 _ _ _))).
  - reflexivity.
  - reflexivity.
  - lia.
Defined.

End LogScale.

(** ** Rebuilding the layout twice *)

Section Rebuild.

Lemma layout_discrete_ext (x y : Analyzer) :
  env y = env x -> props y = props x -> layout_discrete y = layout_discrete x.
Proof.
  intros He Hp. unfold layout_discrete, _freqToBin. cbv zeta. rewrite He, Hp. reflexivity.
Qed.

Lemma layout_octave_ext (x y : Analyzer) :
  env y = env x -> props y = props x -> layout_octave y = layout_octave x.
Proof.
  intros He Hp. unfold layout_octave. cbv zeta. rewrite He, Hp. reflexivity.
Qed.

Lemma calcLeds_calcAux_stable (x y : Analyzer) :
  env y = env x -> _ready y = _ready x -> props y = props x ->
  _barWidth y = _barWidth x -> _bars y = _bars x -> _energy y = _energy x ->
  _fftData y = _fftData x -> _gradients y = _gradients x ->
  _leds y = _leds (_calcLeds (_calcAux x)) ->
  _calcLeds (_calcAux y) = _calcLeds (_calcAux x).
Proof.
  destruct x as [ex rx px ax wx bx lx enx fx gx].
  destruct y as [ey ry py ay wy bys ly eny fy gy].
  cbn [env _ready props _barWidth _bars _energy _fftData _gradients].
  intros -> -> -> -> -> -> -> ->.
  unfold _calcLeds, _calcAux, with_aux.
  cbn [env _ready props aux _barWidth _bars _leds _energy _fftData _gradients].
  destruct (negb (_isOctaveBands (aux_of ex px wx)) || negb rx).
  - cbn [_leds]. intros ->. reflexivity.
  - cbv zeta.
    destruct (compute_leds (_ledParams px) (_mode px)
                (_pixelRatio ex
                 / (if Qlt_bool 1 (window_devicePixelRatio ex) && (screen_height ex <=? 540)
                    then 2 else 1))
                (_analyzerHeight (aux_of ex px wx)) (_maximizeLeds (aux_of ex px wx)) wx)
      as [l|].
    + intros _. reflexivity.
    + cbn [_leds]. intros ->. reflexivity.
Qed.

Lemma calcBars_ready_form (a : Analyzer) :
  _ready a = true ->
  exists w bars,
    _calcBars a
    = _calcLeds (_calcAux (with_bars bars (with_barWidth w (with_bars [] a)))) /\
    ((_isOctaveBands (aux a) = false /\
      (w, bars) = layout_discrete (with_bars [] a)) \/
     (_isOctaveBands (aux a) = true /\
      layout_octave (with_bars [] a) = Some (w, bars)) \/
     (_isOctaveBands (aux a) = true /\ layout_octave (with_bars [] a) = None /\
      w = _barWidth a /\ bars = [])).
Proof.
  intro Hready. unfold _calcBars. cbv zeta.
  change (_ready (with_bars [] a)) with (_ready a).
  change (aux (with_bars [] a)) with (aux a).
  rewrite Hready. cbn [negb].
  destruct (_isOctaveBands (aux a)) eqn:Hoct; cbn [negb].
  - destruct (layout_octave (with_bars [] a)) as [[w bars]|] eqn:El.
    + exists w, bars. split; [reflexivity|].
      right. left. split; reflexivity.
    + exists (_barWidth a), []. split; [reflexivity|].
      right. right. split; [reflexivity|]. split; [reflexivity|]. split; reflexivity.
  - destruct (layout_discrete (with_bars [] a)) as [w bars] eqn:El.
    exists w, bars. split; [reflexivity|].
    left. split; reflexivity.
Qed.

(** X29.  Rebuilding the layout twice is rebuilding it once.  When the
    stored flag [_isOctaveBands] is the one of the current mode (as
    [_calcAux] leaves it), a second call of [_calcBars] with no change
    in between gives back the very same object: the layout depends on
    the configuration and the collaborators only, not on what an
    earlier layout left behind. *)
Theorem calcBars_idempotent (a : Analyzer) :
  _isOctaveBands (aux a) = negb (Z.rem (_mode (props a)) 10 =? 0) ->
  _calcBars (_calcBars a) = _calcBars a.
Proof.
  intro Hflag. destruct (_ready a) eqn:Hready.
  - destruct (calcBars_ready_form a Hready) as (w & bars & Ea & Hlayout).
    destruct (calcBars_fields a) as (He & Hr & Hp & Hen & Hf & Hg).
    pose proof (calcBars_ready_aux a Hready) as Haux.
    set (b := _calcBars a) in *.
    assert (Hrb : _ready b = true) by (rewrite Hr; exact Hready).
    assert (Hwb : _barWidth b = w).
    { rewrite Ea.
      destruct (calcLeds_fields
                  (_calcAux (with_bars bars (with_barWidth w (with_bars [] a)))))
        as (_ & _ & _ & _ & E & _).
      rewrite E. reflexivity. }
    assert (Hflagb : _isOctaveBands (aux b) = _isOctaveBands (aux a)).
    { rewrite Haux, Hflag. reflexivity. }
    destruct (calcBars_ready_form b Hrb) as (w' & bars' & Eb & Hlayout').
    assert (Hsame : w' = w /\ bars' = bars).
    { rewrite Hflagb in Hlayout'.
      rewrite (layout_discrete_ext (with_bars [] a) (with_bars [] b)) in Hlayout'
        by (cbn; assumption).
      rewrite (layout_octave_ext (with_bars [] a) (with_bars [] b)) in Hlayout'
        by (cbn; assumption).
      destruct Hlayout as [[Ho El]|[[Ho El]|(Ho & El & Ew & Ebs)]];
        destruct Hlayout' as [[Ho' El']|[[Ho' El']|(Ho' & El' & Ew' & Ebs')]];
        try congruence.
      - rewrite <- El in El'. injection El' as -> ->. split; reflexivity.
      - rewrite El in El'. injection El' as -> ->. split; reflexivity.
      - subst. split; [|reflexivity]. exact Hwb. }
    destruct Hsame as [-> ->].
    rewrite Eb. rewrite Ea at 2.
    apply calcLeds_calcAux_stable; cbn; try assumption; try reflexivity.
    rewrite <- Ea. reflexivity.
  - assert (E : forall x, _ready x = false -> _calcBars x = with_bars [] x).
    { intros x Hx. unfold _calcBars. cbv zeta. cbn [_ready with_bars]. rewrite Hx.
      reflexivity. }
    rewrite (E a Hready). rewrite E by exact Hready. reflexivity.
Qed.

Lemma calcBars_idempotent_witness :
  _calcBars (_calcBars default_analyzer) = _calcBars default_analyzer.
Proof.
  apply calcBars_idempotent. reflexivity.
Defined.

End Rebuild.
